(** * Storage Transfer Engine: block-blob upload, control plane and status codes

    A shallow embedding of the parts of the copy tool that the
    specification speaks about:

    - [GoInt]     : the wrap-around of the machine integers;
    - [Common]    : the transfer status codes and their string forms
                    (package [common]);
    - [Handlers]  : the front-end handlers for [list], [cancel], [pause],
                    [resume] and the directory upload of the [copy] command
                    (package [handlers]);
    - [BlockId]   : UUID text and base64 block identifiers;
    - [Ste]       : the local-to-block-blob prologue, its chunk loop and the
                    put-blob fast path; the chunk closure returned by
                    [generateUploadFunc], run by several workers that
                    interleave at every access to the shared transfer state;
                    and the earlier variant of that closure, which counts
                    with [atomic.AddUint32] directly (package [ste]);
    - [Sender]    : [anyToRemote] and its dummy chunk for empty files;
    - [TransferStatus], [SenderChunks], [SteCalls] : the later status type
                    with its names, the chunks a source is cut into, and
                    the calls of the chunk closures on the service with the
                    invariants they keep;
    - [Http]      : the HTTP client of the front end and the handlers on a
                    response that may be nil;
    - [ListCommand] : the [list] command and its printers;
    - [CopyHandlers] : upload and download of the [copy] command.

    Machine integers are integers of [Z] with the wrap-around of their Go type
    written out. *)

From Stdlib Require Import ZArith Lia Ascii String List Bool.
From stdpp Require Import base tactics option list strings.

Local Open Scope Z_scope.

(** ** Machine integers *)

Module GoInt.

Definition wrap_unsigned (bits : Z) (x : Z) : Z := x mod 2 ^ bits.

Definition wrap_signed (bits : Z) (x : Z) : Z :=
  (x + 2 ^ (bits - 1)) mod 2 ^ bits - 2 ^ (bits - 1).

Definition to_uint8 := wrap_unsigned 8.
Definition to_uint32 := wrap_unsigned 32.
Definition to_uint64 := wrap_unsigned 64.
Definition to_int32 := wrap_signed 32.
Definition to_int64 := wrap_signed 64.

Definition max_int64 : Z := 2 ^ 63 - 1.
Definition max_uint32 : Z := 2 ^ 32 - 1.
Definition max_uint8 : Z := 255.

End GoInt.

(** ** Results of code that may panic *)

Inductive outcome (A : Type) : Type :=
| Ret (a : A)
| Panic (msg : string).
Arguments Ret {A} a.
Arguments Panic {A} msg.

Definition outcome_bind {A B} (m : outcome A) (k : A -> outcome B) : outcome B :=
  match m with
  | Ret a => k a
  | Panic msg => Panic msg
  end.

Definition panics {A} (m : outcome A) : bool :=
  match m with
  | Ret _ => false
  | Panic _ => true
  end.

(** ** Package common: transfer status codes *)

Module Common.

(** [type Status uint8] *)
Definition Status := Z.

Definition TransferStatusActive : Status := 0.
Definition TransferStatusComplete : Status := 1.
Definition TransferStatusFailed : Status := 2.
Definition TranferStatusAll : Status := 254.

(** The status strings that [TransferStatusStringToStatusCode] accepts. *)
Definition accepted_status_strings : list string :=
  ["TransferStatusActive"; "TransferStatusComplete"; "TransferStatusFailed";
   "TranferStatusAll"]%string.

Definition TransferStatusStringToStatusCode (status : string) : outcome Status :=
  if String.eqb status "TransferStatusActive" then Ret 0
  else if String.eqb status "TransferStatusComplete" then Ret 1
  else if String.eqb status "TransferStatusFailed" then Ret 2
  else if String.eqb status "TranferStatusAll" then Ret 254
  else Panic "invalid expected transfer status".

Definition TransferStatusCodeToString (status : Status) : outcome string :=
  if status =? 0 then Ret "TransferStatusActive"%string
  else if status =? 1 then Ret "TransferStatusComplete"%string
  else if status =? 2 then Ret "TransferStatusFailed"%string
  else if status =? 255 then Ret "TranferStatusAll"%string
  else Panic "invalid expected transfer status code".

(** String to code and back, as the list command does when it prints the
    transfers it asked for. *)
Definition status_round_trip (s : string) : outcome string :=
  outcome_bind (TransferStatusStringToStatusCode s) TransferStatusCodeToString.

(** The later status type, [type TransferStatus uint32]. *)
Definition TransferInProgress : Z := 0.
Definition TransferComplete : Z := 1.
Definition TransferFailed : Z := 2.
Definition TransferAny : Z := 254.

Definition is_terminal (st : Z) : bool :=
  (st =? TransferComplete) || (st =? TransferFailed).

End Common.

(** ** Package handlers: list, cancel, pause, resume *)

Module Handlers.

Record ListCmdArgsAndFlags := {
  lc_JobId : string;
  lc_TransferStatus : string
}.

Record ListJobPartsTransfers := {
  lo_JobId : string;
  lo_ExpectedTransferStatus : Common.Status
}.

(** The part of [HandleListCommand] that builds the list order. *)
Definition HandleListCommand_order (commandLineInput : ListCmdArgsAndFlags)
  : outcome ListJobPartsTransfers :=
  if negb (String.eqb (lc_TransferStatus commandLineInput) "") then
    outcome_bind
      (Common.TransferStatusStringToStatusCode (lc_TransferStatus commandLineInput))
      (fun code => Ret {| lo_JobId := lc_JobId commandLineInput;
                          lo_ExpectedTransferStatus := code |})
  else
    Ret {| lo_JobId := lc_JobId commandLineInput;
           lo_ExpectedTransferStatus := GoInt.max_uint8 |}.

(** A request as [HTTPClient.Send] posts it: the verb goes into the
    [commandType] query parameter, the job id into the body. *)
Record Request (UUID : Type) := {
  rq_commandType : string;
  rq_payload : UUID
}.
Arguments rq_commandType {UUID} _.
Arguments rq_payload {UUID} _.

Record Response := {
  StatusCode : Z;
  Status : string;
  Body : string
}.

Definition StatusAccepted : Z := 202.

(** What a handler did: the requests it sent and the lines it printed. *)
Record Effect (UUID : Type) := {
  sent : list (Request UUID);
  printed : list string
}.
Arguments sent {UUID} _.
Arguments printed {UUID} _.

Section CancelPauseResume.

(** [common.ParseUUID] is not among the sources: it is a parameter, and so is
    the engine that answers the request. *)
Context {UUID : Type}.
Variable ParseUUID : string -> option UUID.
Variable engine : Request UUID -> Response.

Definition Send (commandType : string) (jobId : UUID) : Request UUID :=
  {| rq_commandType := commandType; rq_payload := jobId |}.

Definition conclude (verb : string) (success : string) (jobId : UUID) : Effect UUID :=
  let rq := Send verb jobId in
  let resp := engine rq in
  if negb (StatusCode resp =? StatusAccepted) then
    {| sent := [rq]; printed := ["request failed with status"%string] |}
  else
    {| sent := [rq]; printed := [success] |}.

Definition invalid_job_id : Effect UUID :=
  {| sent := [];
     printed := ["invalid jobId string passed. Failed while parsing string to jobId"%string] |}.

Definition HandleCancelCommand (jobIdString : string) : Effect UUID :=
  match ParseUUID jobIdString with
  | None => invalid_job_id
  | Some jobId => conclude "cancel" "cancelled successfully" jobId
  end.

Definition HandlePauseCommand (jobIdString : string) : Effect UUID :=
  match ParseUUID jobIdString with
  | None => invalid_job_id
  | Some jobId => conclude "resume" "paused successfully" jobId
  end.

Definition HandleResumeCommand (jobIdString : string) : Effect UUID :=
  match ParseUUID jobIdString with
  | None => invalid_job_id
  | Some jobId => conclude "resume" "resume successfully" jobId
  end.

End CancelPauseResume.

(** Modelled from the spec: the control-plane server, which is not among the
    sources.  Section 4.5 gives the effect of each verb: [cancel] trips the
    cancel tokens of all transfers of the job, [pause] is equivalent to
    [cancel], [resume] re-enqueues the transfers whose status is not
    terminal. *)
Record EngineTransfer := {
  et_job : string;
  et_cancelled : bool;
  et_status : Z;
  et_queued : bool
}.

Definition trip (job : string) (t : EngineTransfer) : EngineTransfer :=
  if String.eqb (et_job t) job then
    {| et_job := et_job t; et_cancelled := true;
       et_status := et_status t; et_queued := et_queued t |}
  else t.

Definition requeue (job : string) (t : EngineTransfer) : EngineTransfer :=
  if String.eqb (et_job t) job && negb (Common.is_terminal (et_status t)) then
    {| et_job := et_job t; et_cancelled := et_cancelled t;
       et_status := et_status t; et_queued := true |}
  else t.

Definition serve (rq : Request string) (ts : list EngineTransfer) : list EngineTransfer :=
  if String.eqb (rq_commandType rq) "cancel" then map (trip (rq_payload rq)) ts
  else if String.eqb (rq_commandType rq) "pause" then map (trip (rq_payload rq)) ts
  else if String.eqb (rq_commandType rq) "resume" then map (requeue (rq_payload rq)) ts
  else ts.

Definition serve_all (rqs : list (Request string)) (ts : list EngineTransfer)
  : list EngineTransfer :=
  fold_left (fun acc rq => serve rq acc) rqs ts.

Definition accept_all (rq : Request string) : Response :=
  {| StatusCode := StatusAccepted; Status := "202 Accepted"; Body := "" |}.

(** A job with one active transfer in the engine. *)
Definition job_one : list EngineTransfer :=
  [ {| et_job := "job-1"; et_cancelled := false;
       et_status := Common.TransferInProgress; et_queued := false |} ].

(** *** The copy command: directory upload *)

Definition NumOfFilesPerUploadJobPart : Z := 2.

(** [type LocationType uint8] *)
Definition Local : Z := 0.
Definition Blob : Z := 1.
Definition Unknown : Z := 2.

(** An entry of [ioutil.ReadDir]. *)
Record FileInfo := {
  fi_Name : string;
  fi_IsDir : bool;
  fi_ModTime : Z;
  fi_Size : Z
}.

Record CopyTransfer := {
  ct_Source : string;
  ct_Destination : string;
  ct_LastModifiedTime : Z;
  ct_SourceSize : Z
}.

Record CopyJobPartOrder := {
  Version : Z;
  ID : string;
  PartNum : Z;
  IsFinalPart : bool;
  Priority : Z;
  SourceType : Z;
  DestinationType : Z;
  Transfers : list CopyTransfer
}.

(** [common.CopyJobPartOrder{}] with the job id filled in, as
    [HandleCopyCommand] builds it before it calls the upload handler. *)
Definition new_order (uuid : string) : CopyJobPartOrder :=
  {| Version := 0; ID := uuid; PartNum := 0; IsFinalPart := false; Priority := 0;
     SourceType := 0; DestinationType := 0; Transfers := [] |}.

Definition set_types (o : CopyJobPartOrder) (src dst : Z) : CopyJobPartOrder :=
  {| Version := Version o; ID := ID o; PartNum := PartNum o;
     IsFinalPart := IsFinalPart o; Priority := Priority o;
     SourceType := src; DestinationType := dst; Transfers := Transfers o |}.

Definition set_Transfers (o : CopyJobPartOrder) (ts : list CopyTransfer) : CopyJobPartOrder :=
  {| Version := Version o; ID := ID o; PartNum := PartNum o;
     IsFinalPart := IsFinalPart o; Priority := Priority o;
     SourceType := SourceType o; DestinationType := DestinationType o; Transfers := ts |}.

Definition set_PartNum (o : CopyJobPartOrder) (n : Z) : CopyJobPartOrder :=
  {| Version := Version o; ID := ID o; PartNum := n;
     IsFinalPart := IsFinalPart o; Priority := Priority o;
     SourceType := SourceType o; DestinationType := DestinationType o;
     Transfers := Transfers o |}.

Definition set_IsFinalPart (o : CopyJobPartOrder) (b : bool) : CopyJobPartOrder :=
  {| Version := Version o; ID := ID o; PartNum := PartNum o;
     IsFinalPart := b; Priority := Priority o;
     SourceType := SourceType o; DestinationType := DestinationType o;
     Transfers := Transfers o |}.

(** The variables of the directory branch of [HandleUploadFromLocalToWastore].
    The order is one object, filled in again for every part and handed to the
    dispatch function by pointer; [dispatched] records the order as the
    dispatch function reads it at each call. *)
Record UploadLoop := {
  ul_order : CopyJobPartOrder;
  ul_Transfers : list CopyTransfer;
  ul_numInTransfers : Z;
  ul_partNumber : Z;
  ul_dispatched : list CopyJobPartOrder
}.

Section DirectoryUpload.

(** [path.Join] and the rendering of the destination URL belong to the Go
    library. *)
Variable pathJoin : string -> string -> string.
Variable destinationFor : string -> string -> string.

Variable source : string.
Variable cleanContainerPath : string.

Definition transfer_of (f : FileInfo) : CopyTransfer :=
  {| ct_Source := pathJoin source (fi_Name f);
     ct_Destination := destinationFor cleanContainerPath (fi_Name f);
     ct_LastModifiedTime := fi_ModTime f;
     ct_SourceSize := fi_Size f |}.

(** One iteration of [for _, f := range files].  [partNumber] and
    [numInTransfers] are of type [int] (64 bits); [PartNumber] is [uint32]. *)
Definition upload_file (st : UploadLoop) (f : FileInfo) : UploadLoop :=
  if negb (fi_IsDir f) then
    let ts := ul_Transfers st ++ [transfer_of f] in
    let n := GoInt.to_int64 (ul_numInTransfers st + 1) in
    if n =? NumOfFilesPerUploadJobPart then
      let o := set_PartNum (set_Transfers (ul_order st) ts)
                           (GoInt.to_uint32 (ul_partNumber st)) in
      {| ul_order := o;
         ul_Transfers := [];
         ul_numInTransfers := 0;
         ul_partNumber := GoInt.to_int64 (ul_partNumber st + 1);
         ul_dispatched := ul_dispatched st ++ [o] |}
    else
      {| ul_order := ul_order st;
         ul_Transfers := ts;
         ul_numInTransfers := n;
         ul_partNumber := ul_partNumber st;
         ul_dispatched := ul_dispatched st |}
  else st.

Definition upload_start (o : CopyJobPartOrder) : UploadLoop :=
  {| ul_order := o; ul_Transfers := []; ul_numInTransfers := 0;
     ul_partNumber := 0; ul_dispatched := [] |}.

(** The code after the loop: the final part, which may be empty. *)
Definition upload_finish (st : UploadLoop) : list CopyJobPartOrder :=
  let o1 := if negb (ul_numInTransfers st =? 0)
            then set_Transfers (ul_order st) (ul_Transfers st)
            else set_Transfers (ul_order st) [] in
  let o2 := set_PartNum o1 (GoInt.to_uint32 (ul_partNumber st)) in
  let o3 := set_IsFinalPart o2 true in
  ul_dispatched st ++ [o3].

(** [HandleUploadFromLocalToWastore] on a directory whose listing is [files]:
    the orders dispatched, in order. *)
Definition HandleUploadFromLocalToWastore_dir
  (jobPartOrderToFill : CopyJobPartOrder) (files : list FileInfo)
  : list CopyJobPartOrder :=
  upload_finish
    (fold_left upload_file files (upload_start (set_types jobPartOrderToFill Local Blob))).

(** [HandleCopyCommand] for a local directory and a container URL. *)
Definition HandleCopyCommand_dir (uuid : string) (files : list FileInfo)
  : list CopyJobPartOrder :=
  HandleUploadFromLocalToWastore_dir (new_order uuid) files.

End DirectoryUpload.

Definition regular_files (files : list FileInfo) : list FileInfo :=
  filter (fun f => fi_IsDir f = false) files.

Definition total_transfers (parts : list CopyJobPartOrder) : nat :=
  list_sum (map (fun o => length (Transfers o)) parts).

(** A listing with five files and a sub-directory, and plain renderings of
    paths and URLs, to run the handler on. *)
Definition plain_join (a b : string) : string := (a ++ "/" ++ b)%string.

Definition five_files : list FileInfo :=
  [ {| fi_Name := "a"; fi_IsDir := false; fi_ModTime := 1; fi_Size := 10 |};
    {| fi_Name := "b"; fi_IsDir := false; fi_ModTime := 2; fi_Size := 0 |};
    {| fi_Name := "sub"; fi_IsDir := true; fi_ModTime := 3; fi_Size := 4096 |};
    {| fi_Name := "c"; fi_IsDir := false; fi_ModTime := 4; fi_Size := 30 |};
    {| fi_Name := "d"; fi_IsDir := false; fi_ModTime := 5; fi_Size := 40 |};
    {| fi_Name := "e"; fi_IsDir := false; fi_ModTime := 6; fi_Size := 50 |} ].

End Handlers.

(** ** UUID text and base64 block identifiers *)

Module BlockId.

(** A Go [byte] is an [ascii]; a Go [string] or [[]byte] is a [string]. *)

(** [b &^ clear | set] on a byte. *)
Definition and_not_or (b : ascii) (clear set : N) : ascii :=
  ascii_of_N (N.lor (N.ldiff (N_of_ascii b) clear) set).

Definition hex_digits : list ascii :=
  list_ascii_of_string "0123456789abcdef".

Definition hex_digit (n : N) : ascii := nth (N.to_nat n) hex_digits "0"%char.

(** [%x] of a byte slice: two lower-case digits for every byte. *)
Fixpoint hex_string (bs : list ascii) : string :=
  match bs with
  | [] => EmptyString
  | b :: rest =>
      String (hex_digit (N_of_ascii b / 16))
        (String (hex_digit (N_of_ascii b mod 16)) (hex_string rest))
  end.

(** The sixteen bytes of [newUUID] after the variant and version bits are
    set, from the bytes that [io.ReadFull(rand.Reader, uuid)] delivered. *)
Definition uuid_bytes (rnd : list ascii) : list ascii :=
  let uuid := rnd in
  let uuid := <[8%nat := and_not_or (nth 8 uuid zero) 0xc0 0x80]> uuid in
  let uuid := <[6%nat := and_not_or (nth 6 uuid zero) 0xf0 0x40]> uuid in
  uuid.

(** [newUUID]: the text and whether an error is returned.  [rnd] holds the
    bytes read; fewer than sixteen is the error case of [io.ReadFull]. *)
Definition newUUID (rnd : list ascii) : string * bool :=
  if negb (Nat.eqb (length rnd) 16) then (EmptyString, true)
  else (hex_string (uuid_bytes rnd), false).

(** *** [base64.StdEncoding.EncodeToString] *)

(** Six bits, most significant first. *)
Record sextet := Sextet { s5 : bool; s4 : bool; s3 : bool; s2 : bool; s1 : bool; s0 : bool }.

Definition N_of_sextet (s : sextet) : N :=
  N_of_digits [s0 s; s1 s; s2 s; s3 s; s4 s; s5 s].

Definition alphabet : list ascii :=
  list_ascii_of_string
    "ABCDEFGHIJKLMNOPQRSTUVWXYZabcdefghijklmnopqrstuvwxyz0123456789+/".

Definition b64_char (s : sextet) : ascii :=
  nth (N.to_nat (N_of_sextet s)) alphabet "A"%char.

Definition pad : ascii := "="%char.

Definition encode1 (a : ascii) : string :=
  let 'Ascii a0 a1 a2 a3 a4 a5 a6 a7 := a in
  String (b64_char (Sextet a7 a6 a5 a4 a3 a2))
    (String (b64_char (Sextet a1 a0 false false false false))
      (String pad (String pad EmptyString))).

Definition encode2 (a b : ascii) : string :=
  let 'Ascii a0 a1 a2 a3 a4 a5 a6 a7 := a in
  let 'Ascii b0 b1 b2 b3 b4 b5 b6 b7 := b in
  String (b64_char (Sextet a7 a6 a5 a4 a3 a2))
    (String (b64_char (Sextet a1 a0 b7 b6 b5 b4))
      (String (b64_char (Sextet b3 b2 b1 b0 false false))
        (String pad EmptyString))).

Definition encode3 (a b c : ascii) (rest : string) : string :=
  let 'Ascii a0 a1 a2 a3 a4 a5 a6 a7 := a in
  let 'Ascii b0 b1 b2 b3 b4 b5 b6 b7 := b in
  let 'Ascii c0 c1 c2 c3 c4 c5 c6 c7 := c in
  String (b64_char (Sextet a7 a6 a5 a4 a3 a2))
    (String (b64_char (Sextet a1 a0 b7 b6 b5 b4))
      (String (b64_char (Sextet b3 b2 b1 b0 c7 c6))
        (String (b64_char (Sextet c5 c4 c3 c2 c1 c0)) rest))).

Fixpoint EncodeToString (src : string) : string :=
  match src with
  | EmptyString => EmptyString
  | String a EmptyString => encode1 a
  | String a (String b EmptyString) => encode2 a b
  | String a (String b (String c rest)) => encode3 a b c (EncodeToString rest)
  end.

(** The inverse of the alphabet, used to show that the encoding loses
    nothing. *)
Fixpoint index_of (c : ascii) (l : list ascii) (i : nat) : option nat :=
  match l with
  | [] => None
  | x :: rest => if Ascii.eqb c x then Some i else index_of c rest (S i)
  end.

Definition sextet_of_nat (n : nat) : sextet :=
  let m := N.of_nat n in
  Sextet (N.testbit m 5) (N.testbit m 4) (N.testbit m 3)
         (N.testbit m 2) (N.testbit m 1) (N.testbit m 0).

Definition b64_val (c : ascii) : option sextet :=
  option_map sextet_of_nat (index_of c alphabet 0).

Fixpoint DecodeString (s : string) : option string :=
  match s with
  | EmptyString => Some EmptyString
  | String c1 (String c2 (String c3 (String c4 rest))) =>
      match b64_val c1, b64_val c2 with
      | Some (Sextet a7 a6 a5 a4 a3 a2), Some (Sextet a1 a0 b7 b6 b5 b4) =>
          if Ascii.eqb c3 pad then
            Some (String (Ascii a0 a1 a2 a3 a4 a5 a6 a7) EmptyString)
          else
            match b64_val c3 with
            | Some (Sextet b3 b2 b1 b0 c7 c6) =>
                if Ascii.eqb c4 pad then
                  Some (String (Ascii a0 a1 a2 a3 a4 a5 a6 a7)
                         (String (Ascii b0 b1 b2 b3 b4 b5 b6 b7) EmptyString))
                else
                  match b64_val c4, DecodeString rest with
                  | Some (Sextet c5 c4' c3' c2' c1' c0), Some tail =>
                      Some (String (Ascii a0 a1 a2 a3 a4 a5 a6 a7)
                             (String (Ascii b0 b1 b2 b3 b4 b5 b6 b7)
                               (String (Ascii c0 c1' c2' c3' c4' c5 c6 c7) tail)))
                  | _, _ => None
                  end
            | None => None
            end
      | _, _ => None
      end
  | _ => None
  end.

Definition unhex_digit (c : ascii) : option N :=
  option_map N.of_nat (index_of c hex_digits 0).

Fixpoint unhex_string (s : string) : option (list ascii) :=
  match s with
  | EmptyString => Some []
  | String h (String l rest) =>
      match unhex_digit h, unhex_digit l, unhex_string rest with
      | Some hi, Some lo, Some bs => Some (ascii_of_N (hi * 16 + lo) :: bs)
      | _, _, _ => None
      end
  | _ => None
  end.

(** The block id a chunk closure computes:
    [base64.StdEncoding.EncodeToString([]byte(blockId))], where [blockId] is
    the UUID text.  [common.NewUUID] is not among the sources; its text is
    taken to be that of [newUUID] of package handlers. *)
Definition encodedBlockId (rnd : list ascii) : string :=
  EncodeToString (fst (newUUID rnd)).

End BlockId.

(** ** Package ste: the local-to-block-blob upload *)

Module Ste.

Import GoInt.

(** The fields of [TransferMsg] that the prologue reads.  Sizes are [uint64]
    as in the plan file ([JobPartPlanTransfer.SourceSize],
    [JobPartPlanBlobData.BlockSize]). *)
Record TransferMsg := {
  Source : string;
  Destination : string;
  SourceSize : Z;
  BlockSize : Z;
  NumChunks : Z
}.

(** Calls on the blob client.  The log of a transfer holds them newest first,
    each with whether it failed. *)
Inductive RemoteOp :=
| OpPutBlock (blockId : string) (offset count : Z)
| OpPutBlockList (ids : list string)
| OpPutBlob (body : string).

(** Who called [TransferDone] or [Unmap]: the prologue (put-blob path) or the
    closure of a chunk. *)
Inductive Caller :=
| ByPrologue
| ByChunk (chunkId : Z).

(** The state of one transfer that the prologue and the chunk closures share
    through [TransferMsg]: the cancel token, the atomic chunk counter, the
    status in the plan, the done accounting, the mapping of the source file,
    the block id slice, the blob service, the chunk slots of the plan and the
    throughput counter.  [panicked] is set by an index out of range. *)
Record TransferState := {
  cancelled : bool;
  chunksDone : Z;
  status : Z;
  transfersDone : list Caller;
  unmaps : list Caller;
  blockIds : list string;
  remote : list (RemoteOp * bool);
  chunkInfo : list (Z * Z);
  currentBytes : Z;
  panicked : bool
}.

Definition set_cancelled (v : bool) (st : TransferState) : TransferState :=
  {| cancelled := v; chunksDone := chunksDone st; status := status st;
     transfersDone := transfersDone st; unmaps := unmaps st; blockIds := blockIds st;
     remote := remote st; chunkInfo := chunkInfo st; currentBytes := currentBytes st;
     panicked := panicked st |}.

Definition set_chunksDone (v : Z) (st : TransferState) : TransferState :=
  {| cancelled := cancelled st; chunksDone := v; status := status st;
     transfersDone := transfersDone st; unmaps := unmaps st; blockIds := blockIds st;
     remote := remote st; chunkInfo := chunkInfo st; currentBytes := currentBytes st;
     panicked := panicked st |}.

Definition set_status (v : Z) (st : TransferState) : TransferState :=
  {| cancelled := cancelled st; chunksDone := chunksDone st; status := v;
     transfersDone := transfersDone st; unmaps := unmaps st; blockIds := blockIds st;
     remote := remote st; chunkInfo := chunkInfo st; currentBytes := currentBytes st;
     panicked := panicked st |}.

Definition set_transfersDone (v : list Caller) (st : TransferState) : TransferState :=
  {| cancelled := cancelled st; chunksDone := chunksDone st; status := status st;
     transfersDone := v; unmaps := unmaps st; blockIds := blockIds st;
     remote := remote st; chunkInfo := chunkInfo st; currentBytes := currentBytes st;
     panicked := panicked st |}.

Definition set_unmaps (v : list Caller) (st : TransferState) : TransferState :=
  {| cancelled := cancelled st; chunksDone := chunksDone st; status := status st;
     transfersDone := transfersDone st; unmaps := v; blockIds := blockIds st;
     remote := remote st; chunkInfo := chunkInfo st; currentBytes := currentBytes st;
     panicked := panicked st |}.

Definition set_blockIds (v : list string) (st : TransferState) : TransferState :=
  {| cancelled := cancelled st; chunksDone := chunksDone st; status := status st;
     transfersDone := transfersDone st; unmaps := unmaps st; blockIds := v;
     remote := remote st; chunkInfo := chunkInfo st; currentBytes := currentBytes st;
     panicked := panicked st |}.

Definition set_remote (v : list (RemoteOp * bool)) (st : TransferState) : TransferState :=
  {| cancelled := cancelled st; chunksDone := chunksDone st; status := status st;
     transfersDone := transfersDone st; unmaps := unmaps st; blockIds := blockIds st;
     remote := v; chunkInfo := chunkInfo st; currentBytes := currentBytes st;
     panicked := panicked st |}.

Definition set_chunkInfo (v : list (Z * Z)) (st : TransferState) : TransferState :=
  {| cancelled := cancelled st; chunksDone := chunksDone st; status := status st;
     transfersDone := transfersDone st; unmaps := unmaps st; blockIds := blockIds st;
     remote := remote st; chunkInfo := v; currentBytes := currentBytes st;
     panicked := panicked st |}.

Definition set_currentBytes (v : Z) (st : TransferState) : TransferState :=
  {| cancelled := cancelled st; chunksDone := chunksDone st; status := status st;
     transfersDone := transfersDone st; unmaps := unmaps st; blockIds := blockIds st;
     remote := remote st; chunkInfo := chunkInfo st; currentBytes := v;
     panicked := panicked st |}.

Definition set_panicked (v : bool) (st : TransferState) : TransferState :=
  {| cancelled := cancelled st; chunksDone := chunksDone st; status := status st;
     transfersDone := transfersDone st; unmaps := unmaps st; blockIds := blockIds st;
     remote := remote st; chunkInfo := chunkInfo st; currentBytes := currentBytes st;
     panicked := v |}.


Definition fresh : TransferState :=
  {| cancelled := false; chunksDone := 0; status := Common.TransferInProgress;
     transfersDone := []; unmaps := []; blockIds := []; remote := [];
     chunkInfo := []; currentBytes := 0; panicked := false |}.

(** Modelled from the spec: the methods of [TransferMsg], the helpers
    [updateChunkInfo] and [updateTransferStatus] and the throughput counter
    are not among the sources.  [ChunksDone] is the atomic increment of the
    [uint32] chunk counter that returns the new value (the earlier closure
    writes it out as [atomic.AddUint32(progressCount, 1)]); [TransferStatus]
    writes the status of the transfer in the plan; [TransferDone] marks the
    transfer done in the accounting of the job part; [TransferCancelFunc]
    trips the cancel token. *)
Definition ChunksDone (st : TransferState) : TransferState * Z :=
  let n := to_uint32 (chunksDone st + 1) in (set_chunksDone n st, n).

Definition TransferCancelFunc (st : TransferState) : TransferState :=
  set_cancelled true st.

Definition TransferStatus (v : Z) (st : TransferState) : TransferState :=
  set_status v st.

Definition TransferDone (who : Caller) (st : TransferState) : TransferState :=
  set_transfersDone (who :: transfersDone st) st.

Definition Unmap (who : Caller) (st : TransferState) : TransferState :=
  set_unmaps (who :: unmaps st) st.

Definition call (op : RemoteOp) (fails : bool) (st : TransferState) : TransferState :=
  set_remote ((op, fails) :: remote st) st.

Definition updateCurrentBytes (n : Z) (st : TransferState) : TransferState :=
  set_currentBytes (to_int64 (currentBytes st + n)) st.

Definition updateChunkInfo (chunk : Z) (v : Z) (st : TransferState) : TransferState :=
  set_chunkInfo ((chunk, v) :: chunkInfo st) st.

Definition ChunkTransferStatusComplete : Z := 3.
Definition ChunkTransferStatusFailed : Z := 4.

(** *** The prologue *)

(** What [generateUploadFunc] captures for one chunk. *)
Record ChunkMsg := {
  chunkId : Z;
  totalNumOfChunks : Z;
  chunkSize : Z;
  startIndex : Z
}.

(** [for startIndex := int64(0); startIndex < blobSize; startIndex += chunkSize].
    The loop need not end (a chunk size of zero never advances), so it runs on
    fuel; [None] means the fuel ran out. *)
Fixpoint scheduleChunks (fuel : nat) (blobSize chunkSz numOfBlocks : Z)
    (startIdx blockIdCount : Z) : option (list ChunkMsg) :=
  if startIdx <? blobSize then
    match fuel with
    | O => None
    | S fuel' =>
        let adjustedChunkSize :=
          if to_int64 (startIdx + chunkSz) >? blobSize
          then to_int64 (blobSize - startIdx)
          else chunkSz in
        let msg := {| chunkId := blockIdCount;
                      totalNumOfChunks := to_uint32 numOfBlocks;
                      chunkSize := adjustedChunkSize;
                      startIndex := startIdx |} in
        option_map (cons msg)
          (scheduleChunks fuel' blobSize chunkSz numOfBlocks
             (to_int64 (startIdx + chunkSz)) (to_int32 (blockIdCount + 1)))
    end
  else Some [].

(** [putBlob]: one put-blob call with the whole mapped file, then the status,
    the done accounting and the unmapping. *)
Definition putBlob (memoryMappedFile : string) (putBlobFails : bool)
    (st : TransferState) : TransferState :=
  let st := call (OpPutBlob memoryMappedFile) putBlobFails st in
  let st := if putBlobFails
            then TransferStatus Common.TransferFailed st
            else TransferStatus Common.TransferComplete st in
  let st := TransferDone ByPrologue st in
  Unmap ByPrologue st.

Inductive PrologueResult :=
| PutBlobTriggered (st : TransferState)
| ChunksScheduled (msgs : list ChunkMsg) (st : TransferState).

(** The later prologue (with the put-blob fast path). *)
Definition prologue (fuel : nat) (transfer : TransferMsg) (memoryMappedFile : string)
    (putBlobFails : bool) (st : TransferState) : option PrologueResult :=
  let blobSize := to_int64 (SourceSize transfer) in
  let chunkSz := to_int64 (BlockSize transfer) in
  let numOfBlocks := NumChunks transfer in
  if blobSize <=? chunkSz then
    Some (PutBlobTriggered (putBlob memoryMappedFile putBlobFails st))
  else
    let st := set_blockIds (replicate (Z.to_nat numOfBlocks) EmptyString) st in
    option_map (fun msgs => ChunksScheduled msgs st)
      (scheduleChunks fuel blobSize chunkSz numOfBlocks 0 0).

(** The earlier prologue: the size is that of the file, the chunk size a
    [uint64], the number of blocks comes from [computeNumOfChunks], which is
    not among the sources and is a parameter. *)
Definition prologueV0 (computeNumOfChunks : Z -> Z -> Z) (fuel : nat)
    (fileSize : Z) (ChunkSize : Z) (st : TransferState) : option PrologueResult :=
  let blobSize := fileSize in
  let downloadChunkSize := to_int64 ChunkSize in
  let numOfBlocks := computeNumOfChunks blobSize downloadChunkSize in
  let st := set_blockIds (replicate (Z.to_nat numOfBlocks) EmptyString) st in
  option_map (fun msgs => ChunksScheduled msgs st)
    (scheduleChunks fuel blobSize downloadChunkSize numOfBlocks 0 0).

Definition scheduled (r : PrologueResult) : list ChunkMsg :=
  match r with
  | PutBlobTriggered _ => []
  | ChunksScheduled msgs _ => msgs
  end.

Definition state_after (r : PrologueResult) : TransferState :=
  match r with
  | PutBlobTriggered st => st
  | ChunksScheduled _ st => st
  end.

(** The chunk that covers [[i * size, min ((i+1) * size, total))]. *)
Definition chunk_at (blobSize chunkSz : Z) (i : Z) : Z * Z :=
  (i * chunkSz, Z.min ((i + 1) * chunkSz) blobSize - i * chunkSz).

Definition ceil_div (a b : Z) : Z := (a + b - 1) / b.

(** The chunk messages the loop is expected to produce from chunk [k] on:
    [r] messages, the first with chunk index [c]. *)
Fixpoint chunks_from (blobSize chunkSz numOfBlocks : Z) (r : nat) (k c : Z)
  : list ChunkMsg :=
  match r with
  | O => []
  | S r' =>
      {| chunkId := c;
         totalNumOfChunks := to_uint32 numOfBlocks;
         chunkSize := snd (chunk_at blobSize chunkSz k);
         startIndex := fst (chunk_at blobSize chunkSz k) |}
      :: chunks_from blobSize chunkSz numOfBlocks r' (k + 1) (to_int32 (c + 1))
  end.

(** The messages cover the blob: there are ceil(size / chunk size) of them
    and the i-th is chunk [i], with index [i] as an [int32]. *)
Definition chunks_cover (blobSize chunkSz : Z) (msgs : list ChunkMsg) : Prop :=
  Z.of_nat (length msgs) = ceil_div blobSize chunkSz /\
  forall i m, msgs !! i = Some m ->
    (startIndex m, chunkSize m) = chunk_at blobSize chunkSz (Z.of_nat i) /\
    chunkId m = to_int32 (Z.of_nat i).

Definition ascending (msgs : list ChunkMsg) : Prop :=
  forall i j mi mj, (i < j)%nat -> msgs !! i = Some mi -> msgs !! j = Some mj ->
    startIndex mi < startIndex mj.

(** The single-file upload of the specification: ten MiB in blocks of four. *)
Definition MiB : Z := 1024 * 1024.

Definition ten_MiB : TransferMsg :=
  {| Source := "a.bin"; Destination := "https://account/container/a.bin";
     SourceSize := 10 * MiB; BlockSize := 4 * MiB; NumChunks := 3 |}.

(** A file of one KiB, below the block size. *)
Definition one_KiB : TransferMsg :=
  {| Source := "small"; Destination := "https://account/container/small";
     SourceSize := 1024; BlockSize := 4 * MiB; NumChunks := 1 |}.

(** *** Workers running chunk closures *)

(** The places of a closure between two accesses to the shared state. *)
Inductive pc :=
| PStart | PCancelCount | PCancelDone
| PGenId | PStoreId | PPutBlock
| PFailCancel | PFailChunkInfo | PFailStatus | PFailCount | PFailDone | PFailUnmap
| PChunkInfo | PThroughput | PCount | PCheckCancel | PLateCancelDone
| PPutBlockList | PListFailStatus | PListFailDone
| PCompleteStatus | PCompleteDone | PUnmap
| PEnd.

Global Instance pc_eq_dec : EqDecision pc.
Proof. solve_decision. Defined.

(** One invocation of a closure: what it captured, where it is, what its
    check of the cancel token found, the block id it computed and the value
    [ChunksDone] returned to it (0 before the call). *)
Record Worker := {
  w_msg : ChunkMsg;
  w_pc : pc;
  w_sawCancel : bool;
  w_blockId : string;
  w_observed : Z
}.

Definition at_pc (p : pc) (w : Worker) : Worker :=
  {| w_msg := w_msg w; w_pc := p; w_sawCancel := w_sawCancel w;
     w_blockId := w_blockId w; w_observed := w_observed w |}.

Definition with_sawCancel (b : bool) (w : Worker) : Worker :=
  {| w_msg := w_msg w; w_pc := w_pc w; w_sawCancel := b;
     w_blockId := w_blockId w; w_observed := w_observed w |}.

Definition with_blockId (id : string) (w : Worker) : Worker :=
  {| w_msg := w_msg w; w_pc := w_pc w; w_sawCancel := w_sawCancel w;
     w_blockId := id; w_observed := w_observed w |}.

Definition with_observed (n : Z) (w : Worker) : Worker :=
  {| w_msg := w_msg w; w_pc := w_pc w; w_sawCancel := w_sawCancel w;
     w_blockId := w_blockId w; w_observed := n |}.

Definition invoke (m : ChunkMsg) : Worker :=
  {| w_msg := m; w_pc := PStart; w_sawCancel := false;
     w_blockId := EmptyString; w_observed := 0 |}.

(** The store into slot [chunkId] of the block id slice; an index out of range
    panics. *)
Definition store_blockId (chunk : Z) (id : string) (st : TransferState) : TransferState :=
  if (0 <=? chunk) && (chunk <? Z.of_nat (length (blockIds st)))
  then set_blockIds (<[Z.to_nat chunk := id]> (blockIds st)) st
  else set_panicked true st.

(** The count step shared by all paths: [if t.ChunksDone() == totalNumOfChunks]. *)
Definition count_then (last other : pc) (st : TransferState) (w : Worker)
  : TransferState * Worker :=
  let '(st', n) := ChunksDone st in
  if n =? totalNumOfChunks (w_msg w)
  then (st', at_pc last (with_observed n w))
  else (st', at_pc other (with_observed n w)).

(** One step of the later closure ([generateUploadFunc] with the cancel
    checks).  [rnd] is what the random source delivers to this closure when it
    draws its UUID, [fails] whether the remote call of the step fails. *)
Definition worker_step (rnd : list ascii) (fails : bool) (st : TransferState)
    (w : Worker) : TransferState * Worker :=
  let m := w_msg w in
  let me := ByChunk (chunkId m) in
  match w_pc w with
  | PStart =>
      if cancelled st then (st, at_pc PCancelCount (with_sawCancel true w))
      else (st, at_pc PGenId w)
  | PCancelCount => count_then PCancelDone PEnd st w
  | PCancelDone => (TransferDone me st, at_pc PEnd w)
  | PGenId => (st, at_pc PStoreId (with_blockId (BlockId.encodedBlockId rnd) w))
  | PStoreId =>
      let st' := store_blockId (chunkId m) (w_blockId w) st in
      if panicked st' then (st', at_pc PEnd w) else (st', at_pc PPutBlock w)
  | PPutBlock =>
      let st' := call (OpPutBlock (w_blockId w) (startIndex m) (chunkSize m)) fails st in
      if fails then (st', at_pc PFailCancel w) else (st', at_pc PThroughput w)
  | PFailCancel => (TransferCancelFunc st, at_pc PFailStatus w)
  | PFailStatus => (TransferStatus Common.TransferFailed st, at_pc PFailCount w)
  | PFailCount => count_then PFailDone PEnd st w
  | PFailDone => (TransferDone me st, at_pc PFailUnmap w)
  | PFailUnmap => (Unmap me st, at_pc PEnd w)
  | PThroughput => (updateCurrentBytes (chunkSize m) st, at_pc PCount w)
  | PCount => count_then PCheckCancel PEnd st w
  | PCheckCancel =>
      if cancelled st then (st, at_pc PLateCancelDone w)
      else (st, at_pc PPutBlockList w)
  | PLateCancelDone => (TransferDone me st, at_pc PEnd w)
  | PPutBlockList =>
      let st' := call (OpPutBlockList (blockIds st)) fails st in
      if fails then (st', at_pc PListFailStatus w)
      else (st', at_pc PCompleteStatus w)
  | PListFailStatus => (TransferStatus Common.TransferFailed st, at_pc PListFailDone w)
  | PListFailDone => (TransferDone me st, at_pc PEnd w)
  | PCompleteStatus => (TransferStatus Common.TransferComplete st, at_pc PCompleteDone w)
  | PCompleteDone => (TransferDone me st, at_pc PUnmap w)
  | PUnmap => (Unmap me st, at_pc PEnd w)
  | PFailChunkInfo | PChunkInfo | PEnd => (st, at_pc PEnd w)
  end.

(** One step of the earlier closure, which has no cancel check, writes the
    chunk slots of the plan and counts only after a successful put-block. *)
Definition worker_stepV0 (rnd : list ascii) (fails : bool) (st : TransferState)
    (w : Worker) : TransferState * Worker :=
  let m := w_msg w in
  let me := ByChunk (chunkId m) in
  match w_pc w with
  | PStart | PGenId =>
      (st, at_pc PStoreId (with_blockId (BlockId.encodedBlockId rnd) w))
  | PStoreId =>
      let st' := store_blockId (chunkId m) (w_blockId w) st in
      if panicked st' then (st', at_pc PEnd w) else (st', at_pc PPutBlock w)
  | PPutBlock =>
      let st' := call (OpPutBlock (w_blockId w) (startIndex m) (chunkSize m)) fails st in
      if fails then (st', at_pc PFailCancel w) else (st', at_pc PChunkInfo w)
  | PFailCancel => (TransferCancelFunc st, at_pc PFailChunkInfo w)
  | PFailChunkInfo =>
      (updateChunkInfo (wrap_unsigned 16 (chunkId m)) ChunkTransferStatusFailed st,
       at_pc PFailStatus w)
  | PFailStatus => (TransferStatus Common.TransferStatusFailed st, at_pc PEnd w)
  | PChunkInfo =>
      (updateChunkInfo (wrap_unsigned 16 (chunkId m)) ChunkTransferStatusComplete st,
       at_pc PThroughput w)
  | PThroughput => (updateCurrentBytes (chunkSize m) st, at_pc PCount w)
  | PCount => count_then PPutBlockList PEnd st w
  | PPutBlockList =>
      let st' := call (OpPutBlockList (blockIds st)) fails st in
      if fails then (st', at_pc PListFailStatus w)
      else (st', at_pc PCompleteStatus w)
  | PListFailStatus =>
      (TransferStatus Common.TransferStatusFailed st, at_pc PCompleteStatus w)
  | PCompleteStatus => (TransferStatus Common.TransferStatusComplete st, at_pc PUnmap w)
  | PUnmap => (Unmap me st, at_pc PEnd w)
  | _ => (st, at_pc PEnd w)
  end.

(** The transfer and the workers on its chunks. *)
Record System := {
  shared : TransferState;
  workers : list Worker
}.

(** What can happen next: the cancel command trips the token, or worker [i]
    takes its next step, whose remote call, if it makes one, fails or not. *)
Inductive Event :=
| ECancel
| ERun (i : nat) (fails : bool).

Section Run.

Variable step : list ascii -> bool -> TransferState -> Worker -> TransferState * Worker.

(** What the random source delivers to the closure of each chunk. *)
Variable tape : nat -> list ascii.

Definition sys_step (s : System) (e : Event) : System :=
  match e with
  | ECancel => {| shared := TransferCancelFunc (shared s); workers := workers s |}
  | ERun i fails =>
      if panicked (shared s) then s
      else match workers s !! i with
           | Some w =>
               if decide (w_pc w = PEnd) then s
               else
                 let '(st', w') := step (tape i) fails (shared s) w in
                 {| shared := st'; workers := <[i := w']> (workers s) |}
           | None => s
           end
  end.

Definition run (sch : list Event) (s : System) : System :=
  fold_left sys_step sch s.

End Run.

(** The system right after the prologue scheduled [msgs]. *)
Definition start (msgs : list ChunkMsg) (st : TransferState) : System :=
  {| shared := st; workers := map invoke msgs |}.

(** The transfer whose [n] chunks were all scheduled: chunk [i] carries index
    [i] and the total [n], the block id slice has [n] slots, and nothing has
    happened yet. *)
Definition all_scheduled (n : nat) (s : System) : Prop :=
  length (workers s) = n /\
  length (blockIds (shared s)) = n /\
  (forall i w, workers s !! i = Some w ->
     w_pc w = PStart /\ w_observed w = 0 /\ w_sawCancel w = false /\
     chunkId (w_msg w) = Z.of_nat i /\ totalNumOfChunks (w_msg w) = Z.of_nat n) /\
  chunksDone (shared s) = 0 /\
  status (shared s) = Common.TransferInProgress /\
  transfersDone (shared s) = [] /\
  unmaps (shared s) = [] /\
  remote (shared s) = [] /\
  panicked (shared s) = false.

Definition finished (s : System) : Prop :=
  forall i w, workers s !! i = Some w -> w_pc w = PEnd.

Definition finishedb (s : System) : bool :=
  forallb (fun w => bool_decide (w_pc w = PEnd)) (workers s).

(** Worker [i] takes [k] steps, with the given answer of the remote calls. *)
Definition steps (k : nat) (i : nat) (fails : bool) : list Event :=
  repeat (ERun i fails) k.

(** *** Vocabulary of the invariants *)

Definition b2z (b : bool) : Z := if b then 1 else 0.

(** The number of workers that satisfy [f]. *)
Fixpoint countZ (f : Worker -> bool) (ws : list Worker) : Z :=
  match ws with
  | [] => 0
  | w :: rest => b2z (f w) + countZ f rest
  end.

(** Places before the closure's call of [ChunksDone]. *)
Definition uncounted (p : pc) : bool :=
  match p with
  | PStart | PCancelCount | PGenId | PStoreId | PPutBlock
  | PFailCancel | PFailStatus | PFailCount | PThroughput | PCount => true
  | _ => false
  end.

(** Places only the closure that found the counter equal to the total visits. *)
Definition in_epilogue (p : pc) : bool :=
  match p with
  | PCancelDone | PFailDone | PFailUnmap | PCheckCancel | PLateCancelDone
  | PPutBlockList | PListFailStatus | PListFailDone
  | PCompleteStatus | PCompleteDone | PUnmap => true
  | _ => false
  end.

(** Places after the closure's call of [TransferDone], if it makes one. *)
Definition done_called (p : pc) : bool :=
  match p with
  | PFailUnmap | PUnmap | PEnd => true
  | _ => false
  end.

(** Places of the closure that skips its chunk because of cancellation. *)
Definition skipping (p : pc) : bool :=
  match p with
  | PCancelCount | PCancelDone => true
  | _ => false
  end.

(** Places at which the closure has stored its block id. *)
Definition stored (w : Worker) : bool :=
  negb (w_sawCancel w) &&
  match w_pc w with
  | PStart | PGenId | PStoreId | PCancelCount | PCancelDone => false
  | _ => true
  end.

(** Places at which the closure has drawn its block id. *)
Definition drawn (w : Worker) : bool :=
  negb (w_sawCancel w) &&
  match w_pc w with
  | PStart | PGenId | PCancelCount | PCancelDone => false
  | _ => true
  end.

(** Places between the check before the commit and the end of the commit. *)
Definition committing (p : pc) : bool :=
  match p with
  | PPutBlockList | PListFailStatus | PListFailDone
  | PCompleteStatus | PCompleteDone | PUnmap => true
  | _ => false
  end.

Definition is_last (n : Z) (w : Worker) : bool := w_observed w =? n.

Definition is_PutBlockList (e : RemoteOp * bool) : bool :=
  match fst e with
  | OpPutBlockList _ => true
  | _ => false
  end.

Definition is_PutBlock (e : RemoteOp * bool) : bool :=
  match fst e with
  | OpPutBlock _ _ _ => true
  | _ => false
  end.

(** *** Invariants of the later closure *)

(** What holds of the worker on chunk [i] of [n], whatever the others do. *)
Record WorkerOk (n i : nat) (w : Worker) : Prop := {
  wk_id : chunkId (w_msg w) = Z.of_nat i;
  wk_total : totalNumOfChunks (w_msg w) = Z.of_nat n;
  wk_valid : w_pc w <> PFailChunkInfo /\ w_pc w <> PChunkInfo;
  wk_uncounted : uncounted (w_pc w) = true -> w_observed w = 0;
  wk_epilogue : in_epilogue (w_pc w) = true -> w_observed w = Z.of_nat n;
  wk_counted : uncounted (w_pc w) = false -> 1 <= w_observed w
}.

(** The counter counts the closures that have called [ChunksDone], and the
    values it returned to them are 1, 2, ... up to its present value, each
    returned once. *)
Record CountOk (n : nat) (s : System) : Prop := {
  co_workers : length (workers s) = n;
  co_nopanic : panicked (shared s) = false;
  co_slots : length (blockIds (shared s)) = n;
  co_worker : forall i w, workers s !! i = Some w -> WorkerOk n i w;
  co_count :
    chunksDone (shared s) = countZ (fun w => negb (uncounted (w_pc w))) (workers s);
  co_observed : forall c, 1 <= c ->
    countZ (is_last c) (workers s) = b2z (c <=? chunksDone (shared s))
}.

(** [TransferDone] has been called once for every closure that found the
    counter equal to the total and is past its call, and by no one else. *)
Record DoneOk (n : nat) (s : System) : Prop := {
  do_count :
    Z.of_nat (length (transfersDone (shared s)))
    = countZ (fun w => is_last (Z.of_nat n) w && done_called (w_pc w)) (workers s);
  do_by : forall who, In who (transfersDone (shared s)) ->
    exists i w, who = ByChunk (Z.of_nat i) /\ workers s !! i = Some w /\
                w_observed w = Z.of_nat n
}.

(** The block ids: a closure that skipped its chunk saw the token tripped;
    a closure past its draw holds the id of its UUID and, past its store, has
    it in its own slot; the commit is only attempted when no closure skipped;
    and every block list passed to the service is the list of all the ids, in
    the order of the chunks. *)
Record IdsOk (tape : nat -> list ascii) (n : nat) (s : System) : Prop := {
  io_skip : forall i w, workers s !! i = Some w ->
    w_sawCancel w = true -> cancelled (shared s) = true;
  io_skipping : forall i w, workers s !! i = Some w ->
    skipping (w_pc w) = true -> w_sawCancel w = true;
  io_drawn : forall i w, workers s !! i = Some w ->
    drawn w = true -> w_blockId w = BlockId.encodedBlockId (tape i);
  io_stored : forall i w, workers s !! i = Some w ->
    stored w = true -> blockIds (shared s) !! i = Some (w_blockId w);
  io_commit :
    1 <= countZ (fun w => committing (w_pc w)) (workers s) ->
    countZ w_sawCancel (workers s) = 0;
  io_logged : forall ids f, In (OpPutBlockList ids, f) (remote (shared s)) ->
    ids = map (fun i => BlockId.encodedBlockId (tape i)) (seq 0 n)
}.

(** A remote call of the kind [p] is in the log, and one that failed. *)
Definition logged (p : RemoteOp * bool -> bool) (st : TransferState) : bool :=
  existsb p (remote st).

Definition fail_logged (p : RemoteOp * bool -> bool) (st : TransferState) : bool :=
  existsb (fun e => p e && snd e) (remote st).

(** Places between a failed put-block and the write of the status. *)
Definition failing (p : pc) : bool :=
  match p with
  | PFailCancel | PFailStatus => true
  | _ => false
  end.

Definition about_to_cancel (p : pc) : bool :=
  match p with
  | PFailCancel => true
  | _ => false
  end.

Definition list_failing (p : pc) : bool :=
  match p with
  | PListFailStatus => true
  | _ => false
  end.

(** Places after a failed commit. *)
Definition list_failed (p : pc) : bool :=
  match p with
  | PListFailStatus | PListFailDone | PEnd => true
  | _ => false
  end.

(** Places after the commit was attempted. *)
Definition past_commit (p : pc) : bool :=
  match p with
  | PListFailStatus | PListFailDone | PCompleteStatus | PCompleteDone | PUnmap
  | PEnd => true
  | _ => false
  end.

(** Places after the status was set to Complete. *)
Definition wrote_complete (p : pc) : bool :=
  match p with
  | PCompleteDone | PUnmap | PEnd => true
  | _ => false
  end.

(** Places from the check before the commit to the write of Complete. *)
Definition clean_commit (p : pc) : bool :=
  match p with
  | PPutBlockList | PCompleteStatus => true
  | _ => false
  end.

(** The status of the transfer in the later closure: it is Complete only
    once the last closure wrote it after a commit that did not fail, Failed
    only after a remote call failed, and the commit is only attempted while no
    call has failed. *)
Record StatusOk (n : nat) (s : System) : Prop := {
  so_range : status (shared s) = 0 \/ status (shared s) = 1 \/ status (shared s) = 2;
  so_failing : forall i w, workers s !! i = Some w ->
    failing (w_pc w) = true -> fail_logged is_PutBlock (shared s) = true;
  so_list_failing : forall i w, workers s !! i = Some w ->
    list_failing (w_pc w) = true -> fail_logged is_PutBlockList (shared s) = true;
  so_complete : status (shared s) = 1 ->
    1 <= countZ (fun w => is_last (Z.of_nat n) w && wrote_complete (w_pc w)) (workers s);
  so_block_failed : fail_logged is_PutBlock (shared s) = true ->
    cancelled (shared s) = true \/
    1 <= countZ (fun w => about_to_cancel (w_pc w)) (workers s);
  so_list_failed : fail_logged is_PutBlockList (shared s) = true ->
    1 <= countZ (fun w => is_last (Z.of_nat n) w && list_failed (w_pc w)) (workers s);
  so_clean : 1 <= countZ (fun w => clean_commit (w_pc w)) (workers s) ->
    fail_logged is_PutBlock (shared s) = false /\
    fail_logged is_PutBlockList (shared s) = false;
  so_failed : status (shared s) = 2 ->
    fail_logged is_PutBlock (shared s) = true \/
    fail_logged is_PutBlockList (shared s) = true;
  so_list_failed_status : fail_logged is_PutBlockList (shared s) = true ->
    status (shared s) = 2 \/
    1 <= countZ (fun w => list_failing (w_pc w)) (workers s);
  so_list_logged : logged is_PutBlockList (shared s) = true ->
    1 <= countZ (fun w => is_last (Z.of_nat n) w && past_commit (w_pc w)) (workers s)
}.

(** All of the above: what holds of every state the workers can reach. *)
Record Reachable (tape : nat -> list ascii) (n : nat) (s : System) : Prop := {
  r_count : CountOk n s;
  r_done : DoneOk n s;
  r_ids : IdsOk tape n s;
  r_status : StatusOk n s
}.


(** The number of steps a schedule gives to worker [i]. *)
Fixpoint turns (i : nat) (sch : list Event) : nat :=
  match sch with
  | [] => 0
  | ECancel :: rest => turns i rest
  | ERun j _ :: rest => (if Nat.eqb i j then 1 else 0) + turns i rest
  end.

(** Places of the closure that skips its chunk, from its start to its end. *)
Definition skip_place (p : pc) : bool :=
  match p with
  | PStart | PCancelCount | PCancelDone | PEnd => true
  | _ => false
  end.





(** *** Invariants of the earlier closure *)

(** Places of the earlier closure before its atomic add; a closure whose
    put-block failed stays before it for good. *)
Definition uncountedV0 (p : pc) : bool :=
  match p with
  | PStart | PGenId | PStoreId | PPutBlock | PChunkInfo | PThroughput | PCount
  | PFailCancel | PFailChunkInfo | PFailStatus => true
  | _ => false
  end.

Definition has_counted (w : Worker) : bool := 1 <=? w_observed w.

Definition drawnV0 (p : pc) : bool :=
  match p with
  | PStart | PGenId => false
  | _ => true
  end.

Definition storedV0 (p : pc) : bool :=
  match p with
  | PStart | PGenId | PStoreId => false
  | _ => true
  end.

(** The earlier closure: the counter counts the closures whose atomic add
    returned, a closure holds and has stored the id of its UUID once past the
    draw and the store, and every block list passed to the service is the
    list of all the ids, in the order of the chunks. *)
Record EarlierOk (tape : nat -> list ascii) (n : nat) (s : System) : Prop := {
  eo_workers : length (workers s) = n;
  eo_nopanic : panicked (shared s) = false;
  eo_slots : length (blockIds (shared s)) = n;
  eo_id : forall i w, workers s !! i = Some w ->
    chunkId (w_msg w) = Z.of_nat i /\ totalNumOfChunks (w_msg w) = Z.of_nat n;
  eo_observed : forall i w, workers s !! i = Some w ->
    0 <= w_observed w <= chunksDone (shared s);
  eo_uncounted : forall i w, workers s !! i = Some w ->
    uncountedV0 (w_pc w) = true -> w_observed w = 0;
  eo_commit : forall i w, workers s !! i = Some w ->
    w_pc w = PPutBlockList -> w_observed w = Z.of_nat n;
  eo_count : chunksDone (shared s) = countZ has_counted (workers s);
  eo_drawn : forall i w, workers s !! i = Some w ->
    drawnV0 (w_pc w) = true -> w_blockId w = BlockId.encodedBlockId (tape i);
  eo_stored : forall i w, workers s !! i = Some w ->
    storedV0 (w_pc w) = true -> blockIds (shared s) !! i = Some (w_blockId w);
  eo_logged : forall ids f, In (OpPutBlockList ids, f) (remote (shared s)) ->
    ids = map (fun i => BlockId.encodedBlockId (tape i)) (seq 0 n)
}.
(** Two chunks of five bytes, and bytes for the random source. *)
Definition two_chunks : list ChunkMsg :=
  [ {| chunkId := 0; totalNumOfChunks := 2; chunkSize := 5; startIndex := 0 |};
    {| chunkId := 1; totalNumOfChunks := 2; chunkSize := 5; startIndex := 5 |} ].

Definition two_slots : TransferState :=
  set_blockIds [EmptyString; EmptyString] fresh.

Definition one_chunk : list ChunkMsg :=
  [ {| chunkId := 0; totalNumOfChunks := 1; chunkSize := 5; startIndex := 0 |} ].

Definition one_slot : TransferState := set_blockIds [EmptyString] fresh.

Definition sample_tape (i : nat) : list ascii := repeat (ascii_of_nat i) 16.

(** Schedules for two chunks: each worker runs to its end in turn. *)
Definition in_turn (fails0 fails1 : bool) : list Event :=
  steps 11 0 fails0 ++ steps 11 1 fails1.

(** One chunk whose put-block succeeds and whose commit fails: [k] steps up to
    the commit, the commit, which fails, and steps for the rest of the
    closure.  The earlier closure reaches its commit in six steps, the later
    one, with its two cancel checks, in seven. *)
Definition commit_fails (k : nat) (rest : nat) : list Event :=
  steps k 0 false ++ steps 1 0 true ++ steps rest 0 false.

(** The system that the prologue leaves for the workers, if it scheduled
    chunks. *)
Definition upload_of (fuel : nat) (t : TransferMsg) : option System :=
  match prologue fuel t EmptyString false fresh with
  | Some (ChunksScheduled msgs st) => Some (start msgs st)
  | _ => None
  end.

(** The upload of ten MiB in three chunks, and a schedule that lets the three
    workers run to their ends in turn. *)
Definition ten_MiB_upload : System :=
  match upload_of 3 ten_MiB with
  | Some s => s
  | None => start [] fresh
  end.

Definition three_in_turn : list Event :=
  steps 11 0 false ++ steps 11 1 false ++ steps 11 2 false.

End Ste.

(** ** Package ste: anyToRemote *)

Module Sender.

Import GoInt.

(** The transfer status of the job part transfer manager.  The numbers are not
    among the sources; the epilogue tells that 0 is "not started", that a
    positive status is a transfer in good standing and that failures are
    negative. *)
Definition ENotStarted : Z := 0.
Definition EStarted : Z := 1.
Definition ESuccess : Z := 2.
Definition EFailed : Z := -1.
Definition EFileAlreadyExistsFailure : Z := -3.

(** What [anyToRemote] asks of its collaborators: the transfer manager, the
    two factories, the sender and the source file. *)
Record Env := {
  WasCanceled : bool;
  sipfFails : bool;
  senderFactoryFails : bool;
  ChunkSize : Z;
  NumChunks : Z;
  IsForceWriteTrue : bool;
  existenceErr : bool;
  remoteExists : bool;
  IsLocal : bool;
  openFails : bool
}.

(** A chunk function handed to [jptm.ScheduleChunks], by what it captured. *)
Record Scheduled := {
  OffsetInFile : Z;
  index : Z;
  chunkLength : Z;
  isWholeFile : bool;
  fromLocal : bool
}.

Record Jptm := {
  j_status : Z;
  j_reportedDone : nat;
  j_numberOfChunks : option Z;
  j_actionAfterLastChunk : bool;
  j_scheduled : list Scheduled;
  j_prologues : nat
}.

Definition SetStatus (v : Z) (j : Jptm) : Jptm :=
  {| j_status := v; j_reportedDone := j_reportedDone j;
     j_numberOfChunks := j_numberOfChunks j;
     j_actionAfterLastChunk := j_actionAfterLastChunk j;
     j_scheduled := j_scheduled j; j_prologues := j_prologues j |}.

Definition ReportTransferDone (j : Jptm) : Jptm :=
  {| j_status := j_status j; j_reportedDone := S (j_reportedDone j);
     j_numberOfChunks := j_numberOfChunks j;
     j_actionAfterLastChunk := j_actionAfterLastChunk j;
     j_scheduled := j_scheduled j; j_prologues := j_prologues j |}.

Definition SetNumberOfChunks (n : Z) (j : Jptm) : Jptm :=
  {| j_status := j_status j; j_reportedDone := j_reportedDone j;
     j_numberOfChunks := Some n;
     j_actionAfterLastChunk := j_actionAfterLastChunk j;
     j_scheduled := j_scheduled j; j_prologues := j_prologues j |}.

Definition SetActionAfterLastChunk (j : Jptm) : Jptm :=
  {| j_status := j_status j; j_reportedDone := j_reportedDone j;
     j_numberOfChunks := j_numberOfChunks j;
     j_actionAfterLastChunk := true;
     j_scheduled := j_scheduled j; j_prologues := j_prologues j |}.

Definition ScheduleChunks (c : Scheduled) (j : Jptm) : Jptm :=
  {| j_status := j_status j; j_reportedDone := j_reportedDone j;
     j_numberOfChunks := j_numberOfChunks j;
     j_actionAfterLastChunk := j_actionAfterLastChunk j;
     j_scheduled := j_scheduled j ++ [c]; j_prologues := j_prologues j |}.

Definition Prologue (j : Jptm) : Jptm :=
  {| j_status := j_status j; j_reportedDone := j_reportedDone j;
     j_numberOfChunks := j_numberOfChunks j;
     j_actionAfterLastChunk := j_actionAfterLastChunk j;
     j_scheduled := j_scheduled j; j_prologues := S (j_prologues j) |}.

Definition isDummyChunkInEmptyFile (startIndex fileSize : Z) : bool :=
  (startIndex =? 0) && (fileSize =? 0).

(** Step 6 of [anyToRemote]: the chunk loop, on fuel. *)
Fixpoint schedule_loop (fuel : nat) (e : Env) (srcSize : Z)
    (startIndex chunkIDCount : Z) (j : Jptm) : option (Jptm * Z) :=
  if (startIndex <? srcSize) || isDummyChunkInEmptyFile startIndex srcSize then
    match fuel with
    | O => None
    | S fuel' =>
        let chunkSize := ChunkSize e in
        let adjustedChunkSize :=
          if to_int64 (startIndex + chunkSize) >? srcSize
          then to_int64 (srcSize - startIndex)
          else chunkSize in
        let j := if startIndex =? 0 then Prologue j else j in
        let isWhole := NumChunks e =? 1 in
        let j := ScheduleChunks
                   {| OffsetInFile := startIndex; index := chunkIDCount;
                      chunkLength := adjustedChunkSize; isWholeFile := isWhole;
                      fromLocal := IsLocal e |} j in
        schedule_loop fuel' e srcSize (to_int64 (startIndex + chunkSize))
          (to_int32 (chunkIDCount + 1)) j
    end
  else Some (j, chunkIDCount).

Definition fail_transfer (v : Z) (j : Jptm) : option (outcome Jptm) :=
  Some (Ret (ReportTransferDone (SetStatus v j))).

(** [anyToRemote]; [None] when the chunk loop does not end within the fuel. *)
Definition anyToRemote (fuel : nat) (srcSize : Z) (e : Env) (j : Jptm)
  : option (outcome Jptm) :=
  if WasCanceled e then Some (Ret (ReportTransferDone j))
  else if sipfFails e then fail_transfer EFailed j
  else if senderFactoryFails e then fail_transfer EFailed j
  else
    let numChunks := NumChunks e in
    if numChunks =? 0 then
      Some (Panic "must always schedule one chunk, even if file is empty")
    else if negb (IsForceWriteTrue e) && existenceErr e then fail_transfer EFailed j
    else if negb (IsForceWriteTrue e) && remoteExists e then
      fail_transfer EFileAlreadyExistsFailure j
    else if IsLocal e && openFails e then fail_transfer EFailed j
    else
      let j := SetNumberOfChunks numChunks j in
      let j := SetActionAfterLastChunk j in
      match schedule_loop fuel e srcSize 0 0 j with
      | None => None
      | Some (j', chunkIDCount) =>
          if negb (chunkIDCount =? to_int32 numChunks) then
            Some (Panic "difference in the number of chunk calculated and actual chunks scheduled")
          else Some (Ret j')
      end.

(** Calls on the blob client made for a transfer. *)
Inductive SendOp :=
| SPutBlob (length : Z)
| SPutBlock (offset length : Z)
| SPutBlockList.

(** [epilogueWithCleanupSendToRemote], after the sender's own epilogue. *)
Definition epilogueWithCleanupSendToRemote (j : Jptm) : outcome Jptm :=
  if j_status j =? 0 then Panic "think we're finished but status is notStarted"
  else if j_status j >? 0 then Ret (ReportTransferDone (SetStatus ESuccess j))
  else Ret (ReportTransferDone j).

(** Modelled from the spec: the sender of a block blob and the chunk
    accounting of the transfer manager, which are not among the sources.
    The sender reports one chunk for an empty file and the ceiling of
    size / chunk size otherwise (section 8, boundary behaviours); its chunk
    function puts the whole blob when the chunk is the whole file and puts a
    block otherwise, and its epilogue commits the block list only on the
    chunked path (section 4.3); the action after the last chunk runs when the
    number of chunks done reaches the number of chunks (section 4.2). *)
Definition getNumChunks (srcSize chunkSize : Z) : Z :=
  if srcSize =? 0 then 1 else (srcSize + chunkSize - 1) / chunkSize.

Definition chunkFunc (c : Scheduled) : SendOp :=
  if isWholeFile c then SPutBlob (chunkLength c)
  else SPutBlock (OffsetInFile c) (chunkLength c).

Definition senderEpilogue (j : Jptm) : list SendOp :=
  match j_scheduled j with
  | [c] => if isWholeFile c then [] else [SPutBlockList]
  | _ => [SPutBlockList]
  end.

Record Sent := {
  ops : list SendOp;
  chunksDone : Z;
  epilogues : nat;
  after : Jptm
}.

Definition chunk_done (j : Jptm) (acc : outcome Sent) (c : Scheduled) : outcome Sent :=
  outcome_bind acc (fun s =>
    let done := chunksDone s + 1 in
    let ops1 := ops s ++ [chunkFunc c] in
    if j_actionAfterLastChunk j && bool_decide (j_numberOfChunks j = Some done) then
      outcome_bind (epilogueWithCleanupSendToRemote (after s)) (fun j' =>
        Ret {| ops := ops1 ++ senderEpilogue j; chunksDone := done;
               epilogues := S (epilogues s); after := j' |})
    else
      Ret {| ops := ops1; chunksDone := done; epilogues := epilogues s;
             after := after s |}).

Definition run_chunks (j : Jptm) : outcome Sent :=
  fold_left (chunk_done j) (j_scheduled j)
    (Ret {| ops := []; chunksDone := 0; epilogues := 0; after := j |}).

(** A transfer as the engine hands it to [anyToRemote]: started, nothing
    scheduled. *)
Definition started : Jptm :=
  {| j_status := EStarted; j_reportedDone := 0; j_numberOfChunks := None;
     j_actionAfterLastChunk := false; j_scheduled := []; j_prologues := 0 |}.

(** The one chunk scheduled for an empty file. *)
Definition dummy_chunk (local : bool) : Scheduled :=
  {| OffsetInFile := 0; index := 0; chunkLength := 0; isWholeFile := true;
     fromLocal := local |}.

(** An upload of an empty local file with chunks of four MiB. *)
Definition empty_upload : Env :=
  {| WasCanceled := false; sipfFails := false; senderFactoryFails := false;
     ChunkSize := 4 * 1024 * 1024; NumChunks := 1; IsForceWriteTrue := true;
     existenceErr := false; remoteExists := false; IsLocal := true;
     openFails := false |}.

End Sender.

(** ** Package common: the later transfer status and its names *)

Module TransferStatus.

Import Common.

(** [func (status TransferStatus) String()]; [TransferStatus] is a [uint32]. *)
Definition String_ (status : Z) : string :=
  if status =? TransferInProgress then "InProgress"
  else if status =? TransferComplete then "TransferComplete"
  else if status =? TransferFailed then "TransferFailed"
  else if status =? TransferAny then "TransferAny"
  else "InvalidStatusCode".

Definition TransferStatusStringToCode (statusString : string) : outcome Z :=
  if String.eqb statusString "TransferInProgress" then Ret TransferInProgress
  else if String.eqb statusString "TransferComplete" then Ret TransferComplete
  else if String.eqb statusString "TransferFailed" then Ret TransferFailed
  else if String.eqb statusString "TransferAny" then Ret TransferAny
  else Panic "invalid status string".

End TransferStatus.

(** ** Package ste: the chunks [anyToRemote] is expected to schedule *)

Module SenderChunks.

Import GoInt Sender.

(** The number of turns of the chunk loop: one for an empty source (the dummy
    chunk), the ceiling of size / chunk size otherwise. *)
Definition turns_of (srcSize chunkSize : Z) : Z :=
  if srcSize =? 0 then 1 else Ste.ceil_div srcSize chunkSize.

(** Chunk [i] of a source of [srcSize] bytes. *)
Definition send_chunk (e : Env) (srcSize : Z) (i : nat) : Scheduled :=
  {| OffsetInFile := Z.of_nat i * ChunkSize e;
     index := Z.of_nat i;
     chunkLength := Z.min ((Z.of_nat i + 1) * ChunkSize e) srcSize
                    - Z.of_nat i * ChunkSize e;
     isWholeFile := NumChunks e =? 1;
     fromLocal := IsLocal e |}.

(** No check before the chunk loop ends the transfer. *)
Definition passes_checks (e : Env) : bool :=
  negb (WasCanceled e) && negb (sipfFails e) && negb (senderFactoryFails e) &&
  negb (negb (IsForceWriteTrue e) && (existenceErr e || remoteExists e)) &&
  negb (IsLocal e && openFails e).

(** A source of ten bytes sent in chunks of four. *)
Definition ten_bytes : Env :=
  {| WasCanceled := false; sipfFails := false; senderFactoryFails := false;
     ChunkSize := 4; NumChunks := 3; IsForceWriteTrue := true;
     existenceErr := false; remoteExists := false; IsLocal := true;
     openFails := false |}.

End SenderChunks.

(** ** Package ste: the calls a transfer makes *)

Module SteCalls.

Import GoInt Ste.

(** The number of calls of a kind in the log of the blob service. *)
Fixpoint countOps (p : RemoteOp * bool -> bool) (l : list (RemoteOp * bool)) : Z :=
  match l with
  | [] => 0
  | e :: rest => b2z (p e) + countOps p rest
  end.

(** A call of the kind [p] that did not fail is in the log. *)
Definition ok_logged (p : RemoteOp * bool -> bool) (st : TransferState) : bool :=
  existsb (fun e => p e && negb (snd e)) (remote st).

Definition at_end (p : pc) : bool :=
  match p with
  | PEnd => true
  | _ => false
  end.

(** Places between the call of [TransferDone] and the unmapping. *)
Definition unmapping (p : pc) : bool :=
  match p with
  | PFailUnmap | PUnmap => true
  | _ => false
  end.

(** The closure has made its put-block call. *)
Definition put_done (w : Worker) : bool :=
  negb (w_sawCancel w) &&
  match w_pc w with
  | PStart | PGenId | PStoreId | PPutBlock | PCancelCount | PCancelDone => false
  | _ => true
  end.

(** The put-block call of a closure: its block id and the range of its
    chunk. *)
Definition put_of (w : Worker) : RemoteOp :=
  OpPutBlock (w_blockId w) (startIndex (w_msg w)) (chunkSize (w_msg w)).

Definition completing (p : pc) : bool :=
  match p with
  | PCompleteStatus => true
  | _ => false
  end.

(** The file is unmapped at most once, by the closure that found the counter
    equal to the total, after it marked the transfer done. *)
Record UnmapOk (n : nat) (s : System) : Prop := {
  um_count :
    Z.of_nat (length (unmaps (shared s)))
    <= countZ (fun w => is_last (Z.of_nat n) w && at_end (w_pc w)) (workers s);
  um_done : forall who, In who (unmaps (shared s)) -> In who (transfersDone (shared s));
  um_place : forall i w, workers s !! i = Some w -> unmapping (w_pc w) = true ->
    In (ByChunk (chunkId (w_msg w))) (transfersDone (shared s))
}.

(** The put-block calls in the log are those of the closures that did not
    skip their chunk, one for each. *)
Record PutOk (s : System) : Prop := {
  pk_saw : forall i w, workers s !! i = Some w -> w_sawCancel w = true ->
    skip_place (w_pc w) = true /\ w_pc w <> PStart;
  pk_count : countOps is_PutBlock (remote (shared s)) = countZ put_done (workers s);
  pk_put : forall i w, workers s !! i = Some w -> put_done w = true ->
    exists f, In (put_of w, f) (remote (shared s));
  pk_whose : forall id off sz f, In (OpPutBlock id off sz, f) (remote (shared s)) ->
    exists i w, workers s !! i = Some w /\ put_done w = true /\
                OpPutBlock id off sz = put_of w
}.

(** The commit: it is attempted at most once, only after every block was
    put without failure; the status is Complete only after a commit that did
    not fail, and then stays; after a failed put-block the status becomes
    Failed. *)
Record CommitOk (tape : nat -> list ascii) (n : nat) (s : System) : Prop := {
  cm_count :
    countOps is_PutBlockList (remote (shared s))
    <= countZ (fun w => is_last (Z.of_nat n) w && past_commit (w_pc w)) (workers s);
  cm_blocks : forall ids f, In (OpPutBlockList ids, f) (remote (shared s)) ->
    forall i w, workers s !! i = Some w ->
      In (OpPutBlock (BlockId.encodedBlockId (tape i)) (startIndex (w_msg w))
            (chunkSize (w_msg w)), false) (remote (shared s));
  cm_exclusive : logged is_PutBlockList (shared s) = true ->
    fail_logged is_PutBlock (shared s) = false;
  cm_complete : status (shared s) = Common.TransferComplete ->
    ok_logged is_PutBlockList (shared s) = true;
  cm_completing : forall i w, workers s !! i = Some w -> completing (w_pc w) = true ->
    ok_logged is_PutBlockList (shared s) = true;
  cm_block_failed : fail_logged is_PutBlock (shared s) = true ->
    status (shared s) = Common.TransferFailed \/
    1 <= countZ (fun w => failing (w_pc w)) (workers s);
  cm_committed : ok_logged is_PutBlockList (shared s) = true ->
    status (shared s) = Common.TransferComplete \/
    1 <= countZ (fun w => completing (w_pc w)) (workers s)
}.

(** Places at which the closure that found the counter equal to the total
    has decided what to do with the transfer. *)
Definition decided (p : pc) : bool :=
  match p with
  | PCancelDone | PFailDone | PFailUnmap | PLateCancelDone
  | PListFailStatus | PListFailDone | PCompleteStatus | PCompleteDone | PUnmap
  | PEnd => true
  | _ => false
  end.

(** Places after the closure tripped the token because its put-block failed. *)
Definition tripped (p : pc) : bool :=
  match p with
  | PFailStatus | PFailCount | PLateCancelDone => true
  | _ => false
  end.

(** The last closure gives up the commit only on a tripped token. *)
Record DecisionOk (n : nat) (s : System) : Prop := {
  dc_tripped : forall i w, workers s !! i = Some w -> tripped (w_pc w) = true ->
    cancelled (shared s) = true;
  dc_decided : forall i w, workers s !! i = Some w ->
    is_last (Z.of_nat n) w && decided (w_pc w) = true ->
    logged is_PutBlockList (shared s) = true \/ cancelled (shared s) = true
}.

(** *** The earlier closure after a failed put-block *)

(** The closure returned, or is about to, from a failed put-block. *)
Definition failedV0 (w : Worker) : bool :=
  (w_observed w =? 0) &&
  match w_pc w with
  | PFailCancel | PFailChunkInfo | PFailStatus | PEnd => true
  | _ => false
  end.

Definition failingV0 (p : pc) : bool :=
  match p with
  | PFailCancel | PFailChunkInfo | PFailStatus => true
  | _ => false
  end.

(** Places of the earlier closure after its commit was attempted. *)
Definition committedV0 (p : pc) : bool :=
  match p with
  | PListFailStatus | PCompleteStatus | PUnmap => true
  | _ => false
  end.

Record EarlierFailOk (n : nat) (s : System) : Prop := {
  ef_failed : fail_logged is_PutBlock (shared s) = true ->
    1 <= countZ failedV0 (workers s);
  ef_failing : forall i w, workers s !! i = Some w -> failingV0 (w_pc w) = true ->
    w_observed w = 0 /\ fail_logged is_PutBlock (shared s) = true;
  ef_listed : logged is_PutBlockList (shared s) = true ->
    chunksDone (shared s) = Z.of_nat n;
  ef_place : forall i w, workers s !! i = Some w -> committedV0 (w_pc w) = true ->
    logged is_PutBlockList (shared s) = true;
  ef_unmapped : unmaps (shared s) <> [] -> logged is_PutBlockList (shared s) = true;
  ef_complete : status (shared s) = Common.TransferStatusComplete ->
    logged is_PutBlockList (shared s) = true;
  ef_status : fail_logged is_PutBlock (shared s) = true ->
    status (shared s) = Common.TransferStatusFailed \/
    1 <= countZ (fun w => failingV0 (w_pc w)) (workers s)
}.

(** Two chunks, the put-block of the first fails. *)
Definition first_fails : list Event := in_turn true false.

End SteCalls.

(** ** Package common and handlers: the HTTP client and its callers *)

Module Http.

Import Handlers.

(** A response with its body, which can be read or not. *)
Record Answer := {
  an_resp : Response;
  an_bodyReads : bool
}.

(** What [client.Do] returns: a response and no error, or an error, with
    which a response may come all the same. *)
Inductive Done :=
| Answered (a : Answer)
| Failed (err : string) (resp : option Answer).

(** What a caller did, and how it ended: it returned, or it panicked. *)
Record Run (UUID : Type) := {
  posted : list (Request UUID);
  lines : list string;
  ended : option string
}.
Arguments posted {UUID} _.
Arguments lines {UUID} _.
Arguments ended {UUID} _.

Definition nil_dereference : string :=
  "invalid memory address or nil pointer dereference".

Definition url : string := "http://localhost:1337".

Section Client.

Context {UUID : Type}.

(** [json.Marshal] of the payload, [client.Do], [common.ParseUUID] and the
    formatting of a number and of a job id do not belong to the sources:
    they are parameters. *)
Variable marshals : UUID -> bool.
Variable do : Request UUID -> Done.
Variable ParseUUID : string -> option UUID.
Variable show : Z -> string.
Variable showUUID : UUID -> string.

(** The line of a payload that cannot be marshalled: the verb [%d] is given
    a string. *)
Definition marshal_line (commandType : string) : string :=
  ("error marshalling the request payload for command type %!d(string="
   ++ commandType ++ ")")%string.

Definition send_error_line (urlString err : string) : string :=
  ("error sending the http request to url " ++ urlString
   ++ ". Failed with error " ++ err)%string.

(** [Println] puts a space between its two operands. *)
Definition status_line (a : Answer) : string :=
  ("response status code  " ++ show (StatusCode (an_resp a)))%string.

(** [HTTPClient.Send]: the response, [None] for a nil pointer, the requests
    made and the lines printed. *)
Definition Send (urlString commandType : string) (v : UUID)
  : option Answer * list (Request UUID) * list string :=
  if negb (marshals v) then (None, [], [marshal_line commandType])
  else
    let rq := {| rq_commandType := commandType; rq_payload := v |} in
    match do rq with
    | Failed err resp => (resp, [rq], [send_error_line urlString err])
    | Answered a => (Some a, [rq], [status_line a])
    end.

Definition failure_line (resp : Response) : string :=
  ("request failed with status " ++ Status resp ++ " and message " ++ Body resp)%string.

Definition success_line (jobId : UUID) (success : string) : string :=
  ("Job " ++ showUUID jobId ++ success)%string.

(** The common body of the three handlers from [httpClient.Send] on:
    [defer resp.Body.Close()] dereferences the response, [ioutil.ReadAll]
    reads the body, then the status code is compared with 202. *)
Definition post (verb : string) (success : string) (jobId : UUID) : Run UUID :=
  let '(resp, rqs, printed0) := Send url verb jobId in
  match resp with
  | None => {| posted := rqs; lines := printed0; ended := Some nil_dereference |}
  | Some a =>
      if negb (an_bodyReads a) then
        {| posted := rqs; lines := printed0; ended := Some "ReadAll"%string |}
      else if negb (StatusCode (an_resp a) =? StatusAccepted) then
        {| posted := rqs; lines := printed0 ++ [failure_line (an_resp a)];
           ended := None |}
      else
        {| posted := rqs; lines := printed0 ++ [success_line jobId success];
           ended := None |}
  end.

Definition invalid : Run UUID :=
  {| posted := [];
     lines := ["invalid jobId string passed. Failed while parsing string to jobId"%string];
     ended := None |}.

Definition HandleCancelCommand (jobIdString : string) : Run UUID :=
  match ParseUUID jobIdString with
  | None => invalid
  | Some jobId => post "cancel" " cancelled successfully" jobId
  end.

Definition HandlePauseCommand (jobIdString : string) : Run UUID :=
  match ParseUUID jobIdString with
  | None => invalid
  | Some jobId => post "resume" " paused successfully" jobId
  end.

Definition HandleResumeCommand (jobIdString : string) : Run UUID :=
  match ParseUUID jobIdString with
  | None => invalid
  | Some jobId => post "resume" " resume successfully" jobId
  end.

(** [sendJobPartOrderToSTE]: the order is posted with the verb "copy"; the
    body is read and the status code is not looked at. *)
Definition sendJobPartOrderToSTE (payload : UUID) : Run UUID :=
  let '(resp, rqs, printed0) := Send url "copy" payload in
  match resp with
  | None => {| posted := rqs; lines := printed0; ended := Some nil_dereference |}
  | Some a =>
      if negb (an_bodyReads a) then
        {| posted := rqs; lines := printed0; ended := Some "ReadAll"%string |}
      else {| posted := rqs; lines := printed0; ended := None |}
  end.

End Client.

(** An engine that cannot be reached, and one that rejects every request. *)
Definition unreachable (rq : Request string) : Done :=
  Failed "connection refused" None.

Definition rejecting (rq : Request string) : Done :=
  Answered {| an_resp := {| StatusCode := 400; Status := "400 Bad Request"; Body := "" |};
              an_bodyReads := true |}.

End Http.

(** ** Package handlers: the list command and what it prints *)

Module ListCommand.

Import Handlers.

(** [common.TransferStatus], the status and details of one transfer. *)
Record TransferStatus := {
  Src : string;
  Dst : string;
  TransferStatus_ : Common.Status
}.

Record JobProgressSummary := {
  CompleteJobOrdered : bool;
  JobStatus : Common.Status;
  TotalNumberOfTransfer : Z;
  TotalNumberofTransferCompleted : Z;
  TotalNumberofFailedTransfer : Z;
  PercentageProgress : Z;
  FailedTransfers : list TransferStatus
}.

(** The lines written to standard output, and the panic that ended the
    printing, if one did. *)
Record Printed := {
  out : list string;
  panic : option string
}.

Definition printed_then (line : string) (r : Printed) : Printed :=
  {| out := line :: out r; panic := panic r |}.

Definition panicked_with (msg : string) : Printed :=
  {| out := []; panic := Some msg |}.

Definition done : Printed := {| out := []; panic := None |}.

Section Printers.

(** [%d] and [Println] of a number and of a boolean, and [json.Unmarshal]
    into each of the three response types, belong to the Go library. *)
Variable show : Z -> string.
Variable showb : bool -> string.
Variable Unmarshal_jobs : string -> option (list string).
Variable Unmarshal_transfers : string -> option (list TransferStatus).
Variable Unmarshal_summary : string -> option JobProgressSummary.

Definition PrintExistingJobIds (data : string) : Printed :=
  match Unmarshal_jobs data with
  | None => panicked_with "json.Unmarshal"
  | Some JobIds =>
      {| out := "Existing Jobs "%string :: JobIds; panic := None |}
  end.

Definition transfer_line (t : TransferStatus) (status : string) : string :=
  ("transfer--> source: " ++ Src t ++ " destination: " ++ Dst t
   ++ " status " ++ status)%string.

(** The loop of [PrintJobTransfers]: the arguments of [Sprintf] are
    evaluated first, so a status code without a name panics before the line
    of its transfer is printed. *)
Fixpoint print_transfers (ts : list TransferStatus) : Printed :=
  match ts with
  | [] => done
  | t :: rest =>
      match Common.TransferStatusCodeToString (TransferStatus_ t) with
      | Panic msg => panicked_with msg
      | Ret name => printed_then (transfer_line t name) (print_transfers rest)
      end
  end.

Definition transfers_header (jobId : string) : string :=
  ("----------- Transfers for JobId " ++ jobId ++ " -----------")%string.

Definition PrintJobTransfers (data : string) (jobId : string) : Printed :=
  match Unmarshal_transfers data with
  | None => panicked_with "json.Unmarshal"
  | Some transfers =>
      printed_then (transfers_header jobId) (print_transfers transfers)
  end.

Definition failed_line (index : nat) (t : TransferStatus) : string :=
  ("transfer-" ++ show (Z.of_nat index) ++ "	source: " ++ Src t
   ++ "	destination: " ++ Dst t)%string.

Definition summary_lines (summary : JobProgressSummary) (jobId : string) : list string :=
  [ ("--------------- Progress Summary for Job " ++ jobId ++ " ---------------")%string;
    ("Total Number of Transfer  " ++ show (TotalNumberOfTransfer summary))%string;
    ("Total Number of Transfer Completed  "
     ++ show (TotalNumberofTransferCompleted summary))%string;
    ("Total Number of Transfer Failed  "
     ++ show (TotalNumberofFailedTransfer summary))%string;
    ("Has the final part been ordered  " ++ showb (CompleteJobOrdered summary))%string;
    ("Progress of Job in terms of Perecentage  "
     ++ show (PercentageProgress summary))%string ]
  ++ imap failed_line (FailedTransfers summary).

(** [PrintJobProgressSummary]: what it prints and the status it returns.
    The message of its panic goes on with the text of the library's error,
    which is left out. *)
Definition PrintJobProgressSummary (summaryData : string) (jobId : string)
  : Printed * option Common.Status :=
  match Unmarshal_summary summaryData with
  | None => (panicked_with "error unmarshaling the progress summary", None)
  | Some summary =>
      ({| out := summary_lines summary jobId; panic := None |}, Some (JobStatus summary))
  end.

(** The GET request of the list command carries the list order; [None] is
    an error of [client.Do]. *)
Variable get : ListJobPartsTransfers -> option Http.Answer.

(** [HandleListCommand]: the orders sent and what is printed. *)
Definition HandleListCommand (commandLineInput : ListCmdArgsAndFlags)
  : list ListJobPartsTransfers * Printed :=
  match HandleListCommand_order commandLineInput with
  | Panic msg => ([], panicked_with msg)
  | Ret listOrder =>
      match get listOrder with
      | None => ([listOrder], panicked_with "client.Do")
      | Some a =>
          let resp := Http.an_resp a in
          if negb (StatusCode resp =? StatusAccepted) then
            ([listOrder],
             {| out := [("request failed with status  " ++ Status resp)%string];
                panic := Some ("request failed with status " ++ Status resp)%string |})
          else if negb (Http.an_bodyReads a) then
            ([listOrder], panicked_with "ReadAll")
          else if String.eqb (lo_JobId listOrder) "" then
            ([listOrder], PrintExistingJobIds (Body resp))
          else if String.eqb (lc_TransferStatus commandLineInput) "" then
            ([listOrder],
             fst (PrintJobProgressSummary (Body resp) (lc_JobId commandLineInput)))
          else
            ([listOrder], PrintJobTransfers (Body resp) (lc_JobId commandLineInput))
      end
  end.

End Printers.

(** The codes that [TransferStatusCodeToString] names. *)
Definition named (t : TransferStatus) : bool :=
  let c := TransferStatus_ t in
  (c =? 0) || (c =? 1) || (c =? 2) || (c =? 255).

(** The name of a code that has one. *)
Definition status_name (c : Common.Status) : string :=
  match Common.TransferStatusCodeToString c with
  | Ret name => name
  | Panic _ => EmptyString
  end.

Definition line_of (t : TransferStatus) : string :=
  transfer_line t (status_name (TransferStatus_ t)).

(** Three transfers, the second with the code that
    [TransferStatusStringToStatusCode] gives for "TranferStatusAll". *)
Definition three_transfers : list TransferStatus :=
  [ {| Src := "a"; Dst := "x"; TransferStatus_ := 1 |};
    {| Src := "b"; Dst := "y"; TransferStatus_ := 254 |};
    {| Src := "c"; Dst := "z"; TransferStatus_ := 2 |} ].

End ListCommand.

(** ** Package handlers: the copy command, upload and download *)

Module CopyHandlers.

Import Handlers.

(** A parsed URL: what stands before the path, and the path. *)
Record URL := {
  u_Host : string;
  u_Path : string
}.

Definition set_Path (u : URL) (p : string) : URL :=
  {| u_Host := u_Host u; u_Path := p |}.

(** [s[1:]] of a Go string, which panics on the empty string. *)
Definition from_1 (s : string) : outcome string :=
  match s with
  | EmptyString => Panic "slice bounds out of range"
  | String _ rest => Ret rest
  end.

(** [strings.Contains(s, "/")]. *)
Fixpoint contains_slash (s : string) : bool :=
  match s with
  | EmptyString => false
  | String c rest => Ascii.eqb c "/" || contains_slash rest
  end.

Definition final_single (o : CopyJobPartOrder) (src dst : Z) (t : CopyTransfer)
  : CopyJobPartOrder :=
  set_IsFinalPart (set_PartNum (set_Transfers (set_types o src dst) [t]) 0) true.

Section Upload.

(** [os.Stat], [url.Parse], [ioutil.ReadDir], [path.Join] and [URL.String]
    belong to the Go library and the file system. *)
Variable Stat : string -> option FileInfo.
Variable Parse : string -> option URL.
Variable ReadDir : string -> option (list FileInfo).
Variable pathJoin : string -> string -> string.
Variable urlString : URL -> string.

(** The destination of a file of a directory:
    [destinationUrl.Path = fmt.Sprintf("%s/%s", cleanContainerPath, f.Name())],
    then [destinationUrl.String()]. *)
Definition destination_in (destinationUrl : URL) (cleanContainerPath name : string)
  : string :=
  urlString (set_Path destinationUrl (cleanContainerPath ++ "/" ++ name)%string).

(** [HandleUploadFromLocalToWastore]: the orders dispatched, or the panic. *)
Definition HandleUploadFromLocalToWastore (Source Destination : string)
    (jobPartOrderToFill : CopyJobPartOrder) : outcome (list CopyJobPartOrder) :=
  match Stat Source with
  | None => Panic "cannot access source, not a valid local file system path"
  | Some sourceFileInfo =>
      match Parse Destination with
      | None => Panic "url.Parse"
      | Some destinationUrl =>
          if fi_IsDir sourceFileInfo then
            match ReadDir Source with
            | None => Panic "cannot access source, not a valid local file system path"
            | Some files =>
                outcome_bind (from_1 (u_Path destinationUrl)) (fun rest =>
                  if contains_slash rest then
                    Panic "destination is not a valid container url"
                  else
                    Ret (HandleUploadFromLocalToWastore_dir pathJoin
                           (destination_in destinationUrl) Source
                           (u_Path destinationUrl) jobPartOrderToFill files))
            end
          else
            outcome_bind (from_1 (u_Path destinationUrl)) (fun rest =>
              let destinationUrl :=
                if negb (contains_slash rest)
                then set_Path destinationUrl
                       (u_Path destinationUrl ++ "/" ++ fi_Name sourceFileInfo)%string
                else destinationUrl in
              let singleTask :=
                {| ct_Source := Source;
                   ct_Destination := urlString destinationUrl;
                   ct_LastModifiedTime := fi_ModTime sourceFileInfo;
                   ct_SourceSize := fi_Size sourceFileInfo |} in
              Ret [final_single jobPartOrderToFill Local Blob singleTask])
      end
  end.

End Upload.

(** *** Download *)

(** An entry of a listing of blobs; [ContentLength] is a pointer. *)
Record BlobInfo := {
  b_Name : string;
  b_LastModified : Z;
  b_ContentLength : option Z
}.

(** What [ListBlobs] returns from a marker on: a segment of blobs with the
    next marker, which is done or not, or an error. *)
Inductive Listing :=
| LastSegment (blobs : list BlobInfo)
| Segment (blobs : list BlobInfo) (next : Listing)
| ListError.

Inductive StatResult :=
| Exists (fi : FileInfo)
| NotExist
| StatError.

(** The orders dispatched and how the handler ended: it returned ([None]),
    panicked, or left through [log.Fatal]. *)
Record Dispatch := {
  parts : list CopyJobPartOrder;
  ending : option string
}.

Definition stopped (msg : string) : Dispatch := {| parts := []; ending := Some msg |}.

Definition after_part (o : CopyJobPartOrder) (d : Dispatch) : Dispatch :=
  {| parts := o :: parts d; ending := ending d |}.

Section Download.

Variable Parse : string -> option URL.
Variable urlString : URL -> string.
Variable pathJoin : string -> string -> string.
Variable Stat : string -> StatResult.
Variable MkdirAll : string -> bool.
Variable StatAgain : string -> option FileInfo.
Variable GetPropertiesAndMetadata : URL -> option (Z * Z).
Variable ListBlobs : URL -> Listing.

Variable Destination : string.
Variable sourceUrl : URL.

(** The transfer of a blob of the container. *)
Definition blob_transfer (blobInfo : BlobInfo) (ContentLength : Z) : CopyTransfer :=
  {| ct_Source :=
       urlString (set_Path sourceUrl (u_Path sourceUrl ++ "/" ++ b_Name blobInfo)%string);
     ct_Destination := pathJoin Destination (b_Name blobInfo);
     ct_LastModifiedTime := b_LastModified blobInfo;
     ct_SourceSize := ContentLength |}.

(** [for _, blobInfo := range listBlob.Blobs.Blob]: the transfers are
    appended to those of the segments before; a nil [ContentLength]
    panics. *)
Fixpoint append_blobs (blobs : list BlobInfo) (Transfers : list CopyTransfer)
  : outcome (list CopyTransfer) :=
  match blobs with
  | [] => Ret Transfers
  | blobInfo :: rest =>
      match b_ContentLength blobInfo with
      | None => Panic "invalid memory address or nil pointer dereference"
      | Some len => append_blobs rest (Transfers ++ [blob_transfer blobInfo len])
      end
  end.

(** [for marker := (azblob.Marker{}); marker.NotDone(); ...]. *)
Fixpoint download_loop (l : Listing) (o : CopyJobPartOrder)
    (Transfers : list CopyTransfer) (partNumber : Z) : Dispatch :=
  match l with
  | ListError => stopped "log.Fatal"
  | LastSegment blobs =>
      match append_blobs blobs Transfers with
      | Panic msg => stopped msg
      | Ret Transfers =>
          let o := set_PartNum (set_Transfers o Transfers) (GoInt.to_uint32 partNumber) in
          let o := set_IsFinalPart o true in
          after_part o {| parts := []; ending := None |}
      end
  | Segment blobs next =>
      match append_blobs blobs Transfers with
      | Panic msg => stopped msg
      | Ret Transfers =>
          let o := set_PartNum (set_Transfers o Transfers) (GoInt.to_uint32 partNumber) in
          after_part o (download_loop next o Transfers (GoInt.to_int64 (partNumber + 1)))
      end
  end.

(** [HandleDownloadFromWastoreToLocal], after the source URL is parsed. *)
Definition download_from (jobPartOrderToFill : CopyJobPartOrder) : Dispatch :=
  let o := set_types jobPartOrderToFill Blob Local in
  match from_1 (u_Path sourceUrl) with
  | Panic msg => stopped msg
  | Ret rest =>
      let single := contains_slash rest in
      let located : outcome (option FileInfo) :=
        match Stat Destination with
        | Exists fi => Ret (Some fi)
        | NotExist =>
            if negb single && negb (MkdirAll Destination)
            then Panic "failed to create the destination on the local file system"
            else Ret (StatAgain Destination)
        | StatError => Panic "cannot access destination, not a valid local file system path"
        end in
      match located with
      | Panic msg => stopped msg
      | Ret destinationFileInfo =>
          if single then
            match GetPropertiesAndMetadata sourceUrl with
            | None => stopped "Cannot get blob properties"
            | Some (LastModified, ContentLength) =>
                let singleTask :=
                  {| ct_Source := urlString sourceUrl;
                     ct_Destination := Destination;
                     ct_LastModifiedTime := LastModified;
                     ct_SourceSize := ContentLength |} in
                {| parts := [final_single jobPartOrderToFill Blob Local singleTask];
                   ending := None |}
            end
          else
            match destinationFileInfo with
            | None => stopped "invalid memory address or nil pointer dereference"
            | Some fi =>
                if negb (fi_IsDir fi) then stopped "destination should be a directory"
                else download_loop (ListBlobs sourceUrl) o [] 0
            end
      end
  end.

End Download.

(** [HandleDownloadFromWastoreToLocal]. *)
Definition HandleDownloadFromWastoreToLocal
    (Parse : string -> option URL) (urlString : URL -> string)
    (pathJoin : string -> string -> string) (Stat : string -> StatResult)
    (MkdirAll : string -> bool) (StatAgain : string -> option FileInfo)
    (GetPropertiesAndMetadata : URL -> option (Z * Z)) (ListBlobs : URL -> Listing)
    (Source Destination : string) (jobPartOrderToFill : CopyJobPartOrder) : Dispatch :=
  match Parse Source with
  | None => stopped "url.Parse"
  | Some sourceUrl =>
      download_from urlString pathJoin Stat MkdirAll StatAgain GetPropertiesAndMetadata
        ListBlobs Destination sourceUrl jobPartOrderToFill
  end.

(** The segments of a listing that ends without an error. *)
Fixpoint segments (l : Listing) : option (list (list BlobInfo)) :=
  match l with
  | LastSegment blobs => Some [blobs]
  | Segment blobs next => option_map (cons blobs) (segments next)
  | ListError => None
  end.

Definition sized (b : BlobInfo) : bool :=
  match b_ContentLength b with
  | Some _ => true
  | None => false
  end.

Definition size_of (b : BlobInfo) : Z :=
  match b_ContentLength b with
  | Some n => n
  | None => 0
  end.

(** A container of three blobs listed in two segments, renderings of URLs
    and paths, and a local directory, to run the handlers on. *)
Definition plain_url (u : URL) : string := (u_Host u ++ u_Path u)%string.

Definition plain_parse (s : string) : option URL :=
  Some {| u_Host := "https://account"; u_Path := s |}.

Definition two_segments : Listing :=
  Segment [ {| b_Name := "a"; b_LastModified := 1; b_ContentLength := Some 10 |};
            {| b_Name := "b"; b_LastModified := 2; b_ContentLength := Some 20 |} ]
    (LastSegment [ {| b_Name := "c"; b_LastModified := 3; b_ContentLength := Some 30 |} ]).

Definition a_directory : FileInfo :=
  {| fi_Name := "dir"; fi_IsDir := true; fi_ModTime := 0; fi_Size := 4096 |}.

Definition a_file : FileInfo :=
  {| fi_Name := "f.bin"; fi_IsDir := false; fi_ModTime := 7; fi_Size := 12 |}.

End CopyHandlers.

(** * Properties *)

(** ** Machine integers *)

Section GoIntFacts.

Import GoInt.

Lemma to_int64_id x : - 2 ^ 63 <= x <= max_int64 -> to_int64 x = x.
Proof.
  unfold to_int64, wrap_signed, max_int64. intros H.
  change (64 - 1) with 63.
  rewrite Z.mod_small; lia.
Qed.

Lemma to_int32_id x : - 2 ^ 31 <= x < 2 ^ 31 -> to_int32 x = x.
Proof.
  unfold to_int32, wrap_signed. intros H.
  change (32 - 1) with 31.
  rewrite Z.mod_small; lia.
Qed.

Lemma to_uint32_id x : 0 <= x <= max_uint32 -> to_uint32 x = x.
Proof.
  unfold to_uint32, wrap_unsigned, max_uint32. intros H.
  rewrite Z.mod_small; lia.
Qed.

End GoIntFacts.

(** ** Status codes *)

Section StatusCodes.

Import Common Handlers.

(** The three proper statuses survive the trip from string to code and back. *)
Lemma proper_status_round_trip s :
  In s ["TransferStatusActive"; "TransferStatusComplete"; "TransferStatusFailed"]%string ->
  status_round_trip s = Ret s.
Proof.
  simpl. intros [<- | [<- | [<- | []]]]; reflexivity.
Qed.

(** Without a status filter the list order carries 255. *)
Lemma list_order_default jobId :
  HandleListCommand_order {| lc_JobId := jobId; lc_TransferStatus := "" |}
  = Ret {| lo_JobId := jobId; lo_ExpectedTransferStatus := 255 |}.
Proof. reflexivity. Qed.

(** C9, at the status string "TranferStatusAll": the string is accepted and
    mapped to 254, the constant [TranferStatusAll]; the way back knows the
    sentinel only as 255, so the round trip panics instead of returning the
    string; the list handler, too, uses 255 when no filter is given.  The
    any/all sentinel therefore has two codes, not one. *)
Theorem all_status_round_trip_panics :
  In "TranferStatusAll"%string accepted_status_strings /\
  TransferStatusStringToStatusCode "TranferStatusAll" = Ret TranferStatusAll /\
  TranferStatusAll = 254 /\
  panics (status_round_trip "TranferStatusAll") = true /\
  TransferStatusCodeToString 255 = Ret "TranferStatusAll"%string /\
  (forall jobId,
     outcome_bind
       (HandleListCommand_order {| lc_JobId := jobId; lc_TransferStatus := "" |})
       (fun o => Ret (lo_ExpectedTransferStatus o)) = Ret 255).
Proof.
  repeat split; try reflexivity.
  simpl. auto.
Qed.

End StatusCodes.

(** ** Cancel, pause and resume *)

Section PauseIsNotCancel.

Import Handlers.

Context {UUID : Type}.
Variable ParseUUID : string -> option UUID.
Variable engine : Request UUID -> Response.

Lemma cancel_sends_cancel jobIdString jobId :
  ParseUUID jobIdString = Some jobId ->
  sent (HandleCancelCommand ParseUUID engine jobIdString) = [Send "cancel" jobId].
Proof.
  intros H. unfold HandleCancelCommand, conclude. rewrite H.
  destruct (negb _); reflexivity.
Qed.

Lemma pause_sends_resume jobIdString jobId :
  ParseUUID jobIdString = Some jobId ->
  sent (HandlePauseCommand ParseUUID engine jobIdString) = [Send "resume" jobId].
Proof.
  intros H. unfold HandlePauseCommand, conclude. rewrite H.
  destruct (negb _); reflexivity.
Qed.

Lemma resume_sends_resume jobIdString jobId :
  ParseUUID jobIdString = Some jobId ->
  sent (HandleResumeCommand ParseUUID engine jobIdString) = [Send "resume" jobId].
Proof.
  intros H. unfold HandleResumeCommand, conclude. rewrite H.
  destruct (negb _); reflexivity.
Qed.

(** Whatever the job id: pause posts what resume posts, and an invalid id
    posts nothing. *)
Lemma pause_posts_as_resume jobIdString :
  sent (HandlePauseCommand ParseUUID engine jobIdString)
  = sent (HandleResumeCommand ParseUUID engine jobIdString).
Proof.
  destruct (ParseUUID jobIdString) as [jobId|] eqn:H.
  - rewrite (pause_sends_resume _ _ H), (resume_sends_resume _ _ H). reflexivity.
  - unfold HandlePauseCommand, HandleResumeCommand. rewrite H. reflexivity.
Qed.

End PauseIsNotCancel.

Section PauseExample.

Import Handlers.

(** C8, at the job "job-1" with one active transfer: the cancel command
    posts the verb "cancel", which trips the cancel token of the transfer;
    the pause command posts the verb "resume", the very request of the resume
    command, which leaves the token untouched and enqueues the transfer again.
    Pause therefore does not have the effect of cancel. *)
Theorem pause_posts_resume_verb :
  map rq_commandType (sent (HandleCancelCommand Some accept_all "job-1")) = ["cancel"%string] /\
  map rq_commandType (sent (HandlePauseCommand Some accept_all "job-1")) = ["resume"%string] /\
  sent (HandlePauseCommand Some accept_all "job-1")
    = sent (HandleResumeCommand Some accept_all "job-1") /\
  map et_cancelled
    (serve_all (sent (HandleCancelCommand Some accept_all "job-1")) job_one) = [true] /\
  map et_cancelled
    (serve_all (sent (HandlePauseCommand Some accept_all "job-1")) job_one) = [false] /\
  map et_queued
    (serve_all (sent (HandlePauseCommand Some accept_all "job-1")) job_one) = [true].
Proof. repeat split; reflexivity. Qed.

End PauseExample.

(** ** Directory upload *)

Section DirectoryUploadFacts.

Import GoInt Handlers.

Variable pathJoin : string -> string -> string.
Variable destinationFor : string -> string -> string.
Variable source : string.
Variable cleanContainerPath : string.

Local Abbreviation upload_file := (upload_file pathJoin destinationFor source cleanContainerPath).

(** What holds of the loop variables after the files [files]. *)
Record upload_inv (files : list FileInfo) (st : UploadLoop) : Prop := {
  ui_num : ul_numInTransfers st = Z.of_nat (length (ul_Transfers st));
  ui_pending : length (ul_Transfers st) = (length (regular_files files) mod 2)%nat;
  ui_parts : length (ul_dispatched st) = (length (regular_files files) / 2)%nat;
  ui_partNumber : ul_partNumber st = Z.of_nat (length (ul_dispatched st));
  ui_open : IsFinalPart (ul_order st) = false;
  ui_full : Forall (fun o => IsFinalPart o = false /\ length (Transfers o) = 2%nat)
              (ul_dispatched st);
  ui_numbers : forall i o, ul_dispatched st !! i = Some o -> PartNum o = Z.of_nat i;
  ui_total : (total_transfers (ul_dispatched st) + length (ul_Transfers st))%nat
             = length (regular_files files)
}.

Lemma regular_files_snoc files f :
  regular_files (files ++ [f])
  = regular_files files ++ (if fi_IsDir f then [] else [f]).
Proof.
  unfold regular_files. rewrite filter_app. f_equal.
  rewrite filter_cons, filter_nil. destruct (fi_IsDir f); reflexivity.
Qed.

Lemma total_transfers_snoc parts o :
  total_transfers (parts ++ [o]) = (total_transfers parts + length (Transfers o))%nat.
Proof.
  unfold total_transfers. rewrite map_app, list_sum_app. simpl. lia.
Qed.

Lemma upload_inv_start o :
  IsFinalPart o = false -> upload_inv [] (upload_start o).
Proof.
  intros H. split; simpl; done.
Qed.

Lemma upload_inv_step files f st :
  Z.of_nat (length (regular_files (files ++ [f]))) < 2 ^ 33 ->
  upload_inv files st -> upload_inv (files ++ [f]) (upload_file st f).
Proof.
  intros Hbound Hinv.
  assert (Hsnoc := regular_files_snoc files f).
  unfold upload_file.
  destruct (fi_IsDir f) eqn:Hdir; simpl.
  - rewrite app_nil_r in Hsnoc.
    destruct Hinv. split; rewrite ?Hsnoc; assumption.
  - rewrite Hsnoc in Hbound.
    destruct Hinv as [Hnum Hpend Hparts Hpn Hopen Hfull Hnums Htot].
    rewrite length_app in Hbound. simpl in Hbound.
    set (k := length (regular_files files)) in *.
    assert (Hlen : length (regular_files (files ++ [f])) = (k + 1)%nat).
    { rewrite Hsnoc, length_app. reflexivity. }
    clear Hsnoc.
    assert (Hk : (k mod 2 < 2)%nat) by (apply Nat.mod_upper_bound; lia).
    assert (Hkd : k = (2 * (k / 2) + k mod 2)%nat) by (apply Nat.div_mod_eq).
    rewrite Hnum, Hpend.
    rewrite to_int64_id by (unfold max_int64; lia).
    unfold NumOfFilesPerUploadJobPart.
    destruct (Z.eqb_spec (Z.of_nat (k mod 2) + 1) 2) as [E|E].
    + assert (Hm : (k mod 2 = 1)%nat) by lia.
      assert (Hd : ((k + 1) / 2 = S (k / 2) /\ (k + 1) mod 2 = 0)%nat).
      { split; symmetry.
        - apply (Nat.div_unique _ _ _ 0%nat); lia.
        - apply (Nat.mod_unique _ _ (S (k / 2))); lia. }
      destruct Hd as [Hd1 Hd2].
      split; cbn [ul_order ul_Transfers ul_numInTransfers ul_partNumber ul_dispatched]; rewrite ?Hlen, ?length_app; cbn [length].
      * reflexivity.
      * lia.
      * lia.
      * rewrite Hpn. rewrite to_int64_id by (unfold max_int64; lia). lia.
      * assumption.
      * apply Forall_app. split; [assumption|].
        constructor; [|constructor]. simpl. split; [assumption|].
        rewrite length_app. simpl. lia.
      * intros i o Hl. apply lookup_app_Some in Hl as [Hl | [Hge Hl]].
        { eauto. }
        apply list_lookup_singleton_Some in Hl as [Hi <-]. simpl.
        rewrite Hpn. rewrite to_uint32_id by (unfold max_uint32; lia). lia.
      * rewrite total_transfers_snoc. simpl. rewrite length_app. simpl. lia.
    + assert (Hm : (k mod 2 = 0)%nat) by lia.
      assert (Hd : ((k + 1) / 2 = k / 2 /\ (k + 1) mod 2 = 1)%nat).
      { split; symmetry.
        - apply (Nat.div_unique _ _ _ 1%nat); lia.
        - apply (Nat.mod_unique _ _ (k / 2)%nat); lia. }
      destruct Hd as [Hd1 Hd2].
      split; cbn [ul_order ul_Transfers ul_numInTransfers ul_partNumber ul_dispatched]; rewrite ?Hlen, ?length_app; cbn [length]; try assumption; try lia.
Qed.

(** The invariant holds after any listing, as long as part numbers fit. *)
Lemma upload_inv_fold files o :
  Z.of_nat (length (regular_files files)) < 2 ^ 33 ->
  IsFinalPart o = false ->
  upload_inv files (fold_left upload_file files (upload_start o)).
Proof.
  intros Hbound Ho. induction files as [|f files IH] using rev_ind.
  - apply upload_inv_start. assumption.
  - rewrite fold_left_app. simpl. apply upload_inv_step; [assumption|].
    apply IH. rewrite regular_files_snoc, length_app in Hbound. lia.
Qed.

Lemma directory_upload_shape o files :
  let n := length (regular_files files) in
  let parts :=
    HandleUploadFromLocalToWastore_dir pathJoin destinationFor source
      cleanContainerPath o files in
  Z.of_nat n < 2 ^ 33 ->
  IsFinalPart o = false ->
  (forall i p, parts !! i = Some p -> PartNum p = Z.of_nat i) /\
  (exists init final,
     parts = init ++ [final] /\ IsFinalPart final = true /\
     Forall (fun p => IsFinalPart p = false /\ length (Transfers p) = 2%nat) init) /\
  total_transfers parts = n /\
  length parts = S (n / 2).
Proof.
  intros n parts Hbound Ho. subst parts. unfold HandleUploadFromLocalToWastore_dir.
  destruct (upload_inv_fold files (set_types o Local Blob) Hbound Ho)
    as [Hnum Hpend Hparts Hpn Hopen Hfull Hnums Htot].
  set (st := fold_left upload_file files _) in *.
  fold n in Hpend, Hparts, Htot.
  assert (Hk : (n mod 2 < 2)%nat) by (apply Nat.mod_upper_bound; lia).
  assert (Hkd : n = (2 * (n / 2) + n mod 2)%nat) by (apply Nat.div_mod_eq).
  unfold upload_finish. repeat split.
  - intros i p Hl. apply lookup_app_Some in Hl as [Hl | [Hge Hl]].
    { eauto. }
    apply list_lookup_singleton_Some in Hl as [Hi <-]. simpl.
    rewrite Hpn. rewrite to_uint32_id by (unfold max_uint32; lia). lia.
  - eexists _, _. split; [reflexivity|]. split; [reflexivity|]. assumption.
  - rewrite total_transfers_snoc. simpl. rewrite Hnum.
    destruct (Z.eqb_spec (Z.of_nat (length (ul_Transfers st))) 0); simpl; lia.
  - rewrite length_app. cbn [length]. lia.
Qed.

(** C10: a directory with [n] regular files (sub-directories are skipped) is
    dispatched, two files per part, as parts numbered 0, 1, 2, ... in the
    order of dispatch; exactly the last part dispatched is final; every other
    part holds exactly two transfers; the parts hold [n] transfers in all.
    With five files these are the parts 0, 1, 2, part 2 final, five
    transfers.  Part numbers are [uint32]: the listing is taken to have fewer
    than 2^33 files. *)
Theorem directory_upload_parts uuid files :
  Z.of_nat (length (regular_files files)) < 2 ^ 33 ->
  (forall i p,
     HandleCopyCommand_dir pathJoin destinationFor source cleanContainerPath uuid files
       !! i = Some p -> PartNum p = Z.of_nat i) /\
  (exists init final,
     HandleCopyCommand_dir pathJoin destinationFor source cleanContainerPath uuid files
       = init ++ [final] /\
     IsFinalPart final = true /\
     Forall (fun p => IsFinalPart p = false /\ length (Transfers p) = 2%nat) init) /\
  total_transfers
    (HandleCopyCommand_dir pathJoin destinationFor source cleanContainerPath uuid files)
  = length (regular_files files) /\
  (length (regular_files files) = 5%nat ->
   map PartNum
     (HandleCopyCommand_dir pathJoin destinationFor source cleanContainerPath uuid files)
   = [0; 1; 2] /\
   map IsFinalPart
     (HandleCopyCommand_dir pathJoin destinationFor source cleanContainerPath uuid files)
   = [false; false; true]).
Proof.
  intros Hbound. unfold HandleCopyCommand_dir.
  destruct (directory_upload_shape (new_order uuid) files Hbound eq_refl)
    as (Hnum & (init & final & Hparts & Hfinal & Hinit) & Htotal & Hlen).
  split; [assumption|]. split; [eauto|]. split; [assumption|].
  intros H5. rewrite H5 in Hlen. change (5 / 2)%nat with 2%nat in Hlen.
  rewrite Hparts in *. rewrite length_app in Hlen. simpl in Hlen.
  destruct init as [|p0 [|p1 [|p2 init]]]; simpl in Hlen; try lia.
  apply Forall_cons in Hinit as [[F0 _] Hinit].
  apply Forall_cons in Hinit as [[F1 _] _].
  simpl. rewrite F0, F1, Hfinal.
  rewrite (Hnum 0%nat p0 eq_refl), (Hnum 1%nat p1 eq_refl), (Hnum 2%nat final eq_refl).
  split; reflexivity.
Qed.

End DirectoryUploadFacts.

(** The handler on a listing of five files and one sub-directory. *)
Lemma directory_upload_parts_witness :
  Z.of_nat (length (Handlers.regular_files Handlers.five_files)) < 2 ^ 33 /\
  Handlers.total_transfers
    (Handlers.HandleCopyCommand_dir Handlers.plain_join Handlers.plain_join
       "dir" "/container" "job" Handlers.five_files) = 5%nat /\
  map Handlers.PartNum
    (Handlers.HandleCopyCommand_dir Handlers.plain_join Handlers.plain_join
       "dir" "/container" "job" Handlers.five_files) = [0; 1; 2].
Proof.
  assert (Hb : Z.of_nat (length (Handlers.regular_files Handlers.five_files)) < 2 ^ 33)
    by (vm_compute; reflexivity).
  destruct (directory_upload_parts Handlers.plain_join Handlers.plain_join
              "dir" "/container" "job" Handlers.five_files Hb)
    as (_ & _ & Htotal & Hfive).
  split; [exact Hb|]. split; [exact Htotal|].
  exact (proj1 (Hfive eq_refl)).
Defined.

(** ** The prologue *)

Section PrologueFacts.

Import GoInt Ste.

Lemma to_int32_range x : - 2 ^ 31 <= to_int32 x < 2 ^ 31.
Proof.
  unfold to_int32, wrap_signed. change (32 - 1) with 31.
  pose proof (Z.mod_pos_bound (x + 2 ^ 31) (2 ^ 32) ltac:(lia)). lia.
Qed.

Lemma to_int32_succ x : to_int32 (to_int32 x + 1) = to_int32 (x + 1).
Proof.
  unfold to_int32, wrap_signed. f_equal.
  replace ((x + 2 ^ (32 - 1)) mod 2 ^ 32 - 2 ^ (32 - 1) + 1 + 2 ^ (32 - 1))
    with ((x + 2 ^ (32 - 1)) mod 2 ^ 32 + 1) by lia.
  rewrite Z.add_mod_idemp_l by lia. f_equal. lia.
Qed.

Lemma to_int32_plus x n : 
  to_int32 (to_int32 x + Z.of_nat n) = to_int32 (x + Z.of_nat n).
Proof.
  unfold to_int32, wrap_signed. f_equal.
  replace ((x + 2 ^ (32 - 1)) mod 2 ^ 32 - 2 ^ (32 - 1) + Z.of_nat n + 2 ^ (32 - 1))
    with ((x + 2 ^ (32 - 1)) mod 2 ^ 32 + Z.of_nat n) by lia.
  rewrite Z.add_mod_idemp_l by lia. f_equal. lia.
Qed.

Lemma ceil_div_bounds a b :
  0 < b -> 0 <= a -> a <= ceil_div a b * b /\ (ceil_div a b - 1) * b < a /\ 0 <= ceil_div a b.
Proof.
  intros Hb Ha. unfold ceil_div.
  pose proof (Z.div_mod (a + b - 1) b ltac:(lia)) as Hdm.
  pose proof (Z.mod_pos_bound (a + b - 1) b Hb) as Hm.
  assert (0 <= (a + b - 1) / b) by (apply Z.div_pos; lia).
  nia.
Qed.

(** The loop, from chunk [k] on with [r] chunks left, produces the expected
    messages as soon as the fuel covers them. *)
Lemma scheduleChunks_from blobSize chunkSz numOfBlocks r : forall fuel k c,
  0 < chunkSz -> 0 <= k ->
  blobSize + chunkSz <= max_int64 ->
  blobSize <= (k + Z.of_nat r) * chunkSz ->
  (r = 0%nat \/ (k + Z.of_nat r - 1) * chunkSz < blobSize) ->
  (r <= fuel)%nat ->
  scheduleChunks fuel blobSize chunkSz numOfBlocks (k * chunkSz) c
  = Some (chunks_from blobSize chunkSz numOfBlocks r k c).
Proof.
  induction r as [|r IH]; intros fuel k c Hc Hk Hmax Hup Hlow Hfuel.
  - replace (k + Z.of_nat 0) with k in Hup by lia.
    destruct fuel; simpl;
      destruct (Z.ltb_spec (k * chunkSz) blobSize); try lia; reflexivity.
  - destruct Hlow as [Hlow|Hlow]; [discriminate|].
    destruct fuel as [|fuel]; [lia|].
    assert (Hlt : k * chunkSz < blobSize) by nia.
    assert (Hk0 : 0 <= k * chunkSz) by nia.
    cbn [scheduleChunks chunks_from].
    destruct (Z.ltb_spec (k * chunkSz) blobSize); [|lia].
    rewrite (to_int64_id (k * chunkSz + chunkSz)) by (unfold max_int64 in *; lia).
    replace (k * chunkSz + chunkSz) with ((k + 1) * chunkSz) by lia.
    rewrite IH; try lia.
    cbn [option_map]. do 2 f_equal.
    unfold chunk_at. cbn [fst snd]. f_equal.
    destruct (Z.gtb_spec ((k + 1) * chunkSz) blobSize).
    + rewrite to_int64_id by (unfold max_int64 in *; lia). lia.
    + lia.
Qed.

Lemma chunks_from_length blobSize chunkSz numOfBlocks r : forall k c,
  length (chunks_from blobSize chunkSz numOfBlocks r k c) = r.
Proof. induction r; intros; simpl; [reflexivity|]. rewrite IHr. reflexivity. Qed.

Lemma chunks_from_lookup blobSize chunkSz numOfBlocks r : forall k c i m,
  to_int32 c = c ->
  chunks_from blobSize chunkSz numOfBlocks r k c !! i = Some m ->
  (startIndex m, chunkSize m) = chunk_at blobSize chunkSz (k + Z.of_nat i) /\
  chunkId m = to_int32 (c + Z.of_nat i) /\
  totalNumOfChunks m = to_uint32 numOfBlocks.
Proof.
  induction r as [|r IH]; intros k c i m Hc Hl; [discriminate|].
  destruct i as [|i]; simpl in Hl.
  - inversion Hl; subst; clear Hl. cbn [startIndex chunkSize chunkId totalNumOfChunks].
    replace (k + Z.of_nat 0) with k by lia.
    replace (c + Z.of_nat 0) with c by lia.
    split; [unfold chunk_at; reflexivity|]. split; [congruence|reflexivity].
  - apply IH in Hl as (H1 & H2 & H3).
    + replace (k + Z.of_nat (S i)) with (k + 1 + Z.of_nat i) by lia.
      split; [assumption|]. split; [|assumption].
      rewrite H2, to_int32_plus. f_equal. lia.
    + apply to_int32_id, to_int32_range.
Qed.

Lemma chunks_from_cover blobSize chunkSz numOfBlocks :
  0 < chunkSz -> 0 <= blobSize ->
  chunks_cover blobSize chunkSz
    (chunks_from blobSize chunkSz numOfBlocks
       (Z.to_nat (ceil_div blobSize chunkSz)) 0 0).
Proof.
  intros Hc Hb. destruct (ceil_div_bounds blobSize chunkSz Hc Hb) as (_ & _ & H0).
  split.
  - rewrite chunks_from_length. lia.
  - intros i m Hl. apply chunks_from_lookup in Hl as (H1 & H2 & _); [|reflexivity].
    simpl in H1, H2. split; assumption.
Qed.

Lemma chunks_cover_ascending blobSize chunkSz msgs :
  0 < chunkSz -> 0 <= blobSize ->
  chunks_cover blobSize chunkSz msgs -> ascending msgs.
Proof.
  intros Hc Hb [Hlen Hcov] i j mi mj Hij Hi Hj.
  destruct (Hcov _ _ Hi) as [Ei _]. destruct (Hcov _ _ Hj) as [Ej _].
  unfold chunk_at in *. inversion Ei. inversion Ej. nia.
Qed.

(** The last chunk is a whole block when the size is a multiple of the block
    size. *)
Lemma chunks_cover_last_full blobSize chunkSz msgs m :
  0 < chunkSz -> 0 < blobSize ->
  chunks_cover blobSize chunkSz msgs ->
  blobSize mod chunkSz = 0 ->
  last msgs = Some m -> chunkSize m = chunkSz.
Proof.
  intros Hc Hb [Hlen Hcov] Hmod Hlast.
  rewrite last_lookup in Hlast.
  destruct (Hcov _ _ Hlast) as [E _].
  destruct (ceil_div_bounds blobSize chunkSz Hc ltac:(lia)) as (Hup & Hlow & H0).
  assert (Hpos : (0 < length msgs)%nat).
  { destruct msgs; [discriminate|simpl; lia]. }
  assert (Hq : blobSize = chunkSz * (blobSize / chunkSz)).
  { pose proof (Z.div_mod blobSize chunkSz ltac:(lia)). lia. }
  unfold chunk_at in E. injection E as E1 E2. rewrite E2. clear E1 E2.
  set (q := ceil_div blobSize chunkSz) in *. set (d := blobSize / chunkSz) in *.
  clearbody q d.
  assert (Hqd : q = d) by nia.
  replace (Z.of_nat (Nat.pred (length msgs))) with (d - 1) by lia.
  replace ((d - 1 + 1) * chunkSz) with blobSize by lia.
  rewrite Z.min_id. lia.
Qed.

(** Block size plus one byte: two chunks, a whole block and one byte. *)
Lemma chunks_cover_one_over chunkSz msgs :
  0 < chunkSz ->
  chunks_cover (chunkSz + 1) chunkSz msgs ->
  exists m0 m1, msgs = [m0; m1] /\
    startIndex m0 = 0 /\ chunkSize m0 = chunkSz /\
    startIndex m1 = chunkSz /\ chunkSize m1 = 1.
Proof.
  intros Hc [Hlen Hcov].
  assert (Hq : ceil_div (chunkSz + 1) chunkSz = 2).
  { destruct (ceil_div_bounds (chunkSz + 1) chunkSz Hc ltac:(lia)) as (Hup & Hlow & H0). nia. }
  rewrite Hq in Hlen.
  destruct msgs as [|m0 [|m1 [|m2 msgs]]]; simpl in Hlen; try lia.
  exists m0, m1. split; [reflexivity|].
  destruct (Hcov 0%nat m0 eq_refl) as [E0 _].
  destruct (Hcov 1%nat m1 eq_refl) as [E1 _].
  unfold chunk_at in *. inversion E0. inversion E1. lia.
Qed.

(** C2: when the source is larger than the block size, the prologue
    schedules exactly ceil(size / block size) chunk messages (given fuel for
    that many turns of the loop), in ascending order of start offset, the
    i-th covering [i * block, min ((i+1) * block, size)); when the size is a
    multiple of the block size the last chunk is a whole block; when the size
    is the block size plus one there are two chunks, the second of one byte.
    The earlier prologue runs the same loop.  Sizes are taken in the range in
    which the [int64] sum of an offset and the block size does not wrap. *)
Theorem prologue_schedules_chunks t memoryMappedFile putBlobFails st fuel :
  0 < BlockSize t < SourceSize t ->
  SourceSize t + BlockSize t <= max_int64 ->
  (Z.to_nat (ceil_div (SourceSize t) (BlockSize t)) <= fuel)%nat ->
  (exists msgs,
     prologue fuel t memoryMappedFile putBlobFails st
     = Some (ChunksScheduled msgs
               (set_blockIds (replicate (Z.to_nat (NumChunks t)) EmptyString) st)) /\
     chunks_cover (SourceSize t) (BlockSize t) msgs /\
     ascending msgs /\
     (SourceSize t mod BlockSize t = 0 ->
      forall m, last msgs = Some m -> chunkSize m = BlockSize t) /\
     (SourceSize t = BlockSize t + 1 ->
      exists m0 m1, msgs = [m0; m1] /\
        startIndex m0 = 0 /\ chunkSize m0 = BlockSize t /\
        startIndex m1 = BlockSize t /\ chunkSize m1 = 1)) /\
  (forall computeNumOfChunks, exists msgs st',
     prologueV0 computeNumOfChunks fuel (SourceSize t) (BlockSize t) st
     = Some (ChunksScheduled msgs st') /\
     chunks_cover (SourceSize t) (BlockSize t) msgs /\
     ascending msgs).
Proof.
  intros Hsz Hmax Hfuel.
  assert (Hloop : forall n,
    scheduleChunks fuel (SourceSize t) (BlockSize t) n 0 0
    = Some (chunks_from (SourceSize t) (BlockSize t) n
              (Z.to_nat (ceil_div (SourceSize t) (BlockSize t))) 0 0)).
  { intros n.
    destruct (ceil_div_bounds (SourceSize t) (BlockSize t)) as (Hup & Hlow & H0); try lia.
    change 0 with (0 * BlockSize t) at 1.
    apply scheduleChunks_from; lia. }
  assert (Hcov : forall n, chunks_cover (SourceSize t) (BlockSize t)
            (chunks_from (SourceSize t) (BlockSize t) n
               (Z.to_nat (ceil_div (SourceSize t) (BlockSize t))) 0 0)).
  { intros n. apply chunks_from_cover; lia. }
  split.
  - eexists. split; [|split; [apply (Hcov (NumChunks t))|]].
    + unfold prologue.
      rewrite !to_int64_id by (unfold max_int64 in *; lia).
      destruct (Z.leb_spec (SourceSize t) (BlockSize t)); [lia|].
      rewrite Hloop. reflexivity.
    + split; [eapply chunks_cover_ascending; [| |apply Hcov]; lia|].
      split.
      * intros Hmod m Hlast.
        eapply chunks_cover_last_full; [| |apply Hcov| |]; try eassumption; lia.
      * intros Hone. apply chunks_cover_one_over; [lia|].
        rewrite <- Hone. apply Hcov.
  - intros cnc. eexists _, _. split; [|split; [apply (Hcov (cnc (SourceSize t) (BlockSize t)))|]].
    + unfold prologueV0.
      rewrite !to_int64_id by (unfold max_int64 in *; lia).
      rewrite Hloop. reflexivity.
    + eapply chunks_cover_ascending; [| |apply Hcov]; lia.
Qed.

(** C3: when the source is no larger than the block size, equality
    included, the prologue makes exactly one call on the blob service, a
    put-blob with the whole mapped file, sets the status to Complete or, if
    the call fails, to Failed, marks the transfer done in both cases, unmaps
    the file and schedules no chunk message. *)
Theorem prologue_fast_path t memoryMappedFile putBlobFails st fuel :
  0 <= SourceSize t <= BlockSize t ->
  BlockSize t <= max_int64 ->
  exists st',
    prologue fuel t memoryMappedFile putBlobFails st = Some (PutBlobTriggered st') /\
    scheduled (PutBlobTriggered st') = [] /\
    remote st' = (OpPutBlob memoryMappedFile, putBlobFails) :: remote st /\
    status st' = (if putBlobFails then Common.TransferFailed
                  else Common.TransferComplete) /\
    transfersDone st' = ByPrologue :: transfersDone st /\
    unmaps st' = ByPrologue :: unmaps st /\
    chunksDone st' = chunksDone st /\
    blockIds st' = blockIds st.
Proof.
  intros Hsz Hmax. eexists. split.
  - unfold prologue.
    rewrite !to_int64_id by (unfold max_int64 in *; lia).
    destruct (Z.leb_spec (SourceSize t) (BlockSize t)); [reflexivity|lia].
  - unfold putBlob. destruct putBlobFails; repeat split; reflexivity.
Qed.

End PrologueFacts.

(** Ten MiB in blocks of four MiB: three chunks. *)
Lemma prologue_schedules_chunks_witness :
  exists msgs,
    Ste.prologue 3 Ste.ten_MiB "" false Ste.fresh
    = Some (Ste.ChunksScheduled msgs
              (Ste.set_blockIds (replicate 3 EmptyString) Ste.fresh)) /\
    Ste.chunks_cover (10 * Ste.MiB) (4 * Ste.MiB) msgs.
Proof.
  destruct (prologue_schedules_chunks Ste.ten_MiB "" false Ste.fresh 3)
    as [(msgs & Hrun & Hcover & _) _].
  - vm_compute. split; reflexivity.
  - vm_compute. discriminate.
  - vm_compute. lia.
  - exists msgs. split; [exact Hrun | exact Hcover].
Defined.

(** One KiB with blocks of four MiB: a single put-blob. *)
Lemma prologue_fast_path_witness :
  exists st',
    Ste.prologue 0 Ste.one_KiB "body" false Ste.fresh = Some (Ste.PutBlobTriggered st') /\
    Ste.remote st' = [(Ste.OpPutBlob "body", false)] /\
    Ste.status st' = Common.TransferComplete.
Proof.
  destruct (prologue_fast_path Ste.one_KiB "body" false Ste.fresh 0)
    as (st' & Hrun & _ & Hremote & Hstatus & _).
  - vm_compute. split; discriminate.
  - vm_compute. discriminate.
  - exists st'. split; [exact Hrun|]. split; [exact Hremote | exact Hstatus].
Defined.

(** ** From the prologue to the workers *)

Section PrologueToWorkers.

Import GoInt Ste.

(** The prologue hands the workers a transfer whose chunks are all scheduled,
    provided the plan's number of chunks is the number the loop produces. *)
Lemma prologue_all_scheduled t fuel :
  0 < BlockSize t < SourceSize t ->
  SourceSize t + BlockSize t <= max_int64 ->
  NumChunks t = ceil_div (SourceSize t) (BlockSize t) ->
  NumChunks t < 2 ^ 31 ->
  (Z.to_nat (NumChunks t) <= fuel)%nat ->
  exists s, upload_of fuel t = Some s /\ all_scheduled (Z.to_nat (NumChunks t)) s.
Proof.
  intros Hsz Hmax Hnum Hsmall Hfuel.
  destruct (ceil_div_bounds (SourceSize t) (BlockSize t)) as (Hup & Hlow & H0); try lia.
  assert (Hloop :
    scheduleChunks fuel (SourceSize t) (BlockSize t) (NumChunks t) 0 0
    = Some (chunks_from (SourceSize t) (BlockSize t) (NumChunks t)
              (Z.to_nat (NumChunks t)) 0 0)).
  { change 0 with (0 * BlockSize t) at 1.
    apply scheduleChunks_from; rewrite ?Hnum; lia. }
  unfold upload_of, prologue.
  rewrite !to_int64_id by (unfold max_int64 in *; lia).
  destruct (Z.leb_spec (SourceSize t) (BlockSize t)); [lia|].
  rewrite Hloop. cbn [option_map].
  eexists. split; [reflexivity|].
  unfold all_scheduled, start. cbn [shared workers].
  split; [rewrite length_map, chunks_from_length; reflexivity|].
  split; [cbn; rewrite length_replicate; reflexivity|].
  split; [|cbn; repeat split; reflexivity].
  intros i w Hl. rewrite list_lookup_fmap in Hl.
  destruct (chunks_from _ _ _ _ _ _ !! i) as [m|] eqn:Hm; [|discriminate].
  injection Hl as <-. cbn [invoke w_pc w_observed w_sawCancel w_msg].
  pose proof (lookup_lt_Some _ _ _ Hm) as Hi. rewrite chunks_from_length in Hi.
  apply chunks_from_lookup in Hm as (_ & Hid & Htot); [|reflexivity].
  repeat split; try reflexivity.
  - rewrite Hid. apply to_int32_id. lia.
  - rewrite Htot. rewrite to_uint32_id by (unfold max_uint32; lia). lia.
Qed.

Lemma ten_MiB_scheduled : all_scheduled 3 ten_MiB_upload.
Proof.
  destruct (prologue_all_scheduled ten_MiB 3) as (s & Hs & Hall).
  - split; reflexivity.
  - discriminate.
  - reflexivity.
  - reflexivity.
  - vm_compute. lia.
  - unfold ten_MiB_upload. rewrite Hs. exact Hall.
Qed.

End PrologueToWorkers.

(** ** Workers: counting *)

Section Counting.

Import Ste.

Lemma b2z_range b : 0 <= b2z b <= 1.
Proof. destruct b; simpl; lia. Qed.

Lemma countZ_bounds f ws : 0 <= countZ f ws <= Z.of_nat (length ws).
Proof.
  induction ws as [|w ws IH]; simpl; [lia|].
  pose proof (b2z_range (f w)). lia.
Qed.

(** Replacing worker [i] changes a count by what the old and the new worker
    contribute. *)
Lemma countZ_insert f ws i w w' :
  ws !! i = Some w ->
  countZ f (<[i := w']> ws) = countZ f ws - b2z (f w) + b2z (f w').
Proof.
  revert i. induction ws as [|x ws IH]; intros i Hl; [discriminate|].
  destruct i as [|i]; simpl in *.
  - inversion Hl; subst. lia.
  - rewrite (IH i Hl). lia.
Qed.

Lemma countZ_lookup f ws i w :
  ws !! i = Some w -> f w = true -> 1 <= countZ f ws.
Proof.
  revert i. induction ws as [|x ws IH]; intros i Hl Hf; [discriminate|].
  destruct i as [|i]; simpl in *.
  - inversion Hl; subst. rewrite Hf. pose proof (countZ_bounds f ws). simpl. lia.
  - pose proof (IH i Hl Hf). pose proof (b2z_range (f x)). lia.
Qed.

Lemma countZ_zero f ws i w :
  countZ f ws = 0 -> ws !! i = Some w -> f w = false.
Proof.
  intros H0 Hl. destruct (f w) eqn:Hf; [|reflexivity].
  pose proof (countZ_lookup f ws i w Hl Hf). lia.
Qed.

Lemma countZ_full f ws i w :
  countZ f ws = Z.of_nat (length ws) -> ws !! i = Some w -> f w = true.
Proof.
  revert i. induction ws as [|x ws IH]; intros i Hfull Hl; [discriminate|].
  simpl in Hfull.
  pose proof (countZ_bounds f ws). pose proof (b2z_range (f x)).
  destruct i as [|i]; simpl in Hl.
  - inversion Hl; subst. destruct (f w); simpl in *; [reflexivity|lia].
  - apply (IH i); [lia|assumption].
Qed.

Lemma countZ_unique f ws i j w w' :
  countZ f ws <= 1 ->
  ws !! i = Some w -> ws !! j = Some w' -> f w = true -> f w' = true -> i = j.
Proof.
  revert i j. induction ws as [|x ws IH]; intros i j Hle Hi Hj Hw Hw'; [discriminate|].
  simpl in Hle. pose proof (countZ_bounds f ws).
  destruct i as [|i], j as [|j]; simpl in *.
  - reflexivity.
  - inversion Hi; subst. rewrite Hw in Hle.
    pose proof (countZ_lookup f ws j w' Hj Hw'). simpl in Hle. lia.
  - inversion Hj; subst. rewrite Hw' in Hle.
    pose proof (countZ_lookup f ws i w Hi Hw). simpl in Hle. lia.
  - f_equal. apply (IH i j); try assumption.
    pose proof (b2z_range (f x)). lia.
Qed.

Lemma countZ_le f g ws :
  (forall i w, ws !! i = Some w -> f w = true -> g w = true) ->
  countZ f ws <= countZ g ws.
Proof.
  induction ws as [|x ws IH]; intros Himp; simpl; [lia|].
  assert (Hx : b2z (f x) <= b2z (g x)).
  { destruct (f x) eqn:Hf; simpl.
    - rewrite (Himp 0%nat x eq_refl Hf). simpl. lia.
    - destruct (g x); simpl; lia. }
  assert (countZ f ws <= countZ g ws).
  { apply IH. intros i w Hl. apply (Himp (S i) w Hl). }
  lia.
Qed.

Lemma countZ_map_invoke f msgs :
  (forall m, f (invoke m) = false) -> countZ f (map invoke msgs) = 0.
Proof.
  intros Hf. induction msgs as [|m msgs IH]; simpl; [reflexivity|].
  rewrite Hf, IH. reflexivity.
Qed.

End Counting.

Section MoreCounting.
Import Ste.

Lemma countZ_exists f ws :
  1 <= countZ f ws -> exists i w, ws !! i = Some w /\ f w = true.
Proof.
  induction ws as [|x ws IH]; simpl; intros H; [lia|].
  destruct (f x) eqn:Hf.
  - exists 0%nat, x. split; [reflexivity|assumption].
  - simpl in H. destruct (IH ltac:(lia)) as (i & w & Hl & Hw).
    exists (S i), w. split; assumption.
Qed.

Lemma countZ_none f ws :
  (forall i w, ws !! i = Some w -> f w = false) -> countZ f ws = 0.
Proof.
  intros Hf. pose proof (countZ_bounds f ws) as Hb.
  destruct (Z.eq_dec (countZ f ws) 0) as [|Hne]; [assumption|].
  destruct (countZ_exists f ws ltac:(lia)) as (i & w & Hl & Hw).
  rewrite (Hf i w Hl) in Hw. discriminate.
Qed.

End MoreCounting.

Section StepFacts.

Import GoInt Ste.

Variable tape : nat -> list ascii.

(** What an event does: nothing, the cancel, or one step of a worker that has
    not ended. *)
Lemma sys_step_cases step s e :
  sys_step step tape s e = s \/
  (e = ECancel /\
   sys_step step tape s e
   = {| shared := TransferCancelFunc (shared s); workers := workers s |}) \/
  (exists i fails w st' w',
     e = ERun i fails /\
     panicked (shared s) = false /\
     workers s !! i = Some w /\ w_pc w <> PEnd /\
     step (tape i) fails (shared s) w = (st', w') /\
     sys_step step tape s e = {| shared := st'; workers := <[i := w']> (workers s) |}).
Proof.
  destruct e as [|i fails]; simpl.
  - right. left. split; reflexivity.
  - destruct (panicked (shared s)) eqn:Hp; [left; reflexivity|].
    destruct (workers s !! i) as [w|] eqn:Hl; [|left; reflexivity].
    destruct (decide (w_pc w = PEnd)) as [He|He]; [left; reflexivity|].
    destruct (step (tape i) fails (shared s) w) as [st' w'] eqn:Hs.
    right. right. exists i, fails, w, st', w'. repeat split; assumption.
Qed.

Lemma ChunksDone_small st :
  0 <= chunksDone st < max_uint32 ->
  ChunksDone st = (set_chunksDone (chunksDone st + 1) st, chunksDone st + 1).
Proof.
  intros H. unfold ChunksDone. rewrite to_uint32_id by lia. reflexivity.
Qed.

Lemma store_blockId_in_range i id st :
  (i < length (blockIds st))%nat ->
  store_blockId (Z.of_nat i) id st = set_blockIds (<[i := id]> (blockIds st)) st.
Proof.
  intros H. unfold store_blockId.
  destruct (Z.leb_spec 0 (Z.of_nat i)); [|lia].
  destruct (Z.ltb_spec (Z.of_nat i) (Z.of_nat (length (blockIds st)))); [|lia].
  simpl. rewrite Nat2Z.id. reflexivity.
Qed.

End StepFacts.

Section CountingFacts.

Import GoInt Ste.

Variable tape : nat -> list ascii.
Variable n : nat.
Hypothesis n_fits : Z.of_nat n <= max_uint32.

(** While a worker has not counted, the counter is below the total. *)
Lemma uncounted_below s i w :
  CountOk n s -> workers s !! i = Some w -> uncounted (w_pc w) = true ->
  0 <= chunksDone (shared s) < Z.of_nat n.
Proof.
  intros Hinv Hl Hu. destruct Hinv as [Hlen _ _ _ Hcount _].
  rewrite Hcount.
  pose proof (countZ_bounds (fun w => negb (uncounted (w_pc w))) (workers s)) as Hb.
  split; [lia|].
  destruct (Z.eq_dec (countZ (fun w => negb (uncounted (w_pc w))) (workers s))
              (Z.of_nat (length (workers s)))) as [Hfull|Hne]; [|lia].
  pose proof (countZ_full _ _ _ _ Hfull Hl) as Hc. simpl in Hc.
  rewrite Hu in Hc. discriminate.
Qed.

(** The closure that found the counter equal to the total is the only one. *)
Lemma last_unique s i j w w' :
  CountOk n s -> (0 < n)%nat ->
  workers s !! i = Some w -> workers s !! j = Some w' ->
  w_observed w = Z.of_nat n -> w_observed w' = Z.of_nat n -> i = j.
Proof.
  intros Hinv Hn Hi Hj Hw Hw'.
  apply (countZ_unique (is_last (Z.of_nat n)) (workers s) i j w w'); try assumption.
  - rewrite (co_observed _ _ Hinv) by lia. apply b2z_range.
  - unfold is_last. rewrite Hw. apply Z.eqb_refl.
  - unfold is_last. rewrite Hw'. apply Z.eqb_refl.
Qed.

(** Once a closure found the counter equal to the total, all have counted. *)
Lemma last_all_counted s i w j w' :
  CountOk n s -> (0 < n)%nat ->
  workers s !! i = Some w -> w_observed w = Z.of_nat n ->
  workers s !! j = Some w' -> uncounted (w_pc w') = false.
Proof.
  intros Hinv Hn Hi Hw Hj.
  destruct (uncounted (w_pc w')) eqn:Hu; [|reflexivity].
  pose proof (uncounted_below s j w' Hinv Hj Hu) as Hb.
  pose proof (co_observed _ _ Hinv (Z.of_nat n) ltac:(lia)) as Hobs.
  assert (Hone : 1 <= countZ (is_last (Z.of_nat n)) (workers s)).
  { apply (countZ_lookup _ _ i w Hi). unfold is_last. rewrite Hw. apply Z.eqb_refl. }
  rewrite Hobs in Hone.
  destruct (Z.leb_spec (Z.of_nat n) (chunksDone (shared s))); simpl in Hone; lia.
Qed.


(** A worker step under the invariant: the counter does not wrap and the
    store is in range; this prepares a step for the analysis by place. *)
Lemma step_normal s i w :
  CountOk n s -> workers s !! i = Some w ->
  (uncounted (w_pc w) = true -> 
     ChunksDone (shared s)
     = (set_chunksDone (chunksDone (shared s) + 1) (shared s), chunksDone (shared s) + 1)) /\
  (forall id, store_blockId (chunkId (w_msg w)) id (shared s)
     = set_blockIds (<[i := id]> (blockIds (shared s))) (shared s)) /\
  (i < n)%nat.
Proof.
  intros Hinv Hl.
  assert (Hi : (i < n)%nat).
  { rewrite <- (co_workers _ _ Hinv). eapply lookup_lt_Some. eassumption. }
  split; [|split; [|assumption]].
  - intros Hu. apply ChunksDone_small.
    pose proof (uncounted_below s i w Hinv Hl Hu). lia.
  - intros id. rewrite (wk_id _ _ _ (co_worker _ _ Hinv i w Hl)).
    apply store_blockId_in_range. rewrite (co_slots _ _ Hinv). assumption.
Qed.

End CountingFacts.

(** Case analysis of one step of the later closure, by place and branch. *)
Ltac by_place Hstep Hcount Hstore Hnp :=
  unfold Ste.worker_step, Ste.count_then in Hstep;
  lazymatch type of Hstep with
  | context [Ste.w_pc ?w] =>
      let Hpc := fresh "Hpc" in
      destruct (Ste.w_pc w) eqn:Hpc;
      try (rewrite Hcount in Hstep by reflexivity);
      try (rewrite Hstore in Hstep;
           cbn [Ste.panicked Ste.set_blockIds] in Hstep; rewrite Hnp in Hstep);
      cbv zeta in Hstep;
      repeat lazymatch type of Hstep with
        | context [if ?c then _ else _] =>
            let Hc := fresh "Hc" in destruct c eqn:Hc
        end;
      injection Hstep as <- <-
  end.

(** Case analysis of one step of the earlier closure, by place and branch. *)
Ltac by_placeV0 Hstep Hcount Hstore Hnp :=
  unfold Ste.worker_stepV0, Ste.count_then in Hstep;
  lazymatch type of Hstep with
  | context [Ste.w_pc ?w] =>
      let Hpc := fresh "Hpc" in
      destruct (Ste.w_pc w) eqn:Hpc;
      try (rewrite Hcount in Hstep by reflexivity);
      try (rewrite Hstore in Hstep;
           cbn [Ste.panicked Ste.set_blockIds] in Hstep; rewrite Hnp in Hstep);
      cbv zeta in Hstep;
      repeat lazymatch type of Hstep with
        | context [if ?c then _ else _] =>
            let Hc := fresh "Hc" in destruct c eqn:Hc
        end;
      injection Hstep as <- <-
  end.

Section CountingStep.

Import GoInt Ste.

Variable tape : nat -> list ascii.
Variable n : nat.
Hypothesis n_fits : Z.of_nat n <= max_uint32.

(** Replacing worker [i] and the shared state keeps the invariant if the
    replacement accounts for itself. *)
Lemma CountOk_replace s i w st' w' :
  CountOk n s -> workers s !! i = Some w ->
  panicked st' = false ->
  length (blockIds st') = n ->
  WorkerOk n i w' ->
  chunksDone st'
  = chunksDone (shared s) - b2z (negb (uncounted (w_pc w))) + b2z (negb (uncounted (w_pc w'))) ->
  (forall c, 1 <= c ->
     b2z (c <=? chunksDone st')
     = b2z (c <=? chunksDone (shared s)) - b2z (is_last c w) + b2z (is_last c w')) ->
  CountOk n {| shared := st'; workers := <[i := w']> (workers s) |}.
Proof.
  intros Hinv Hl Hnp Hslots Hw' Hcount Hobs.
  split; cbn [shared workers].
  - rewrite length_insert. apply (co_workers _ _ Hinv).
  - assumption.
  - assumption.
  - intros j x Hj. apply list_lookup_insert_Some in Hj as [(<- & <- & _)|[Hne Hj]].
    + assumption.
    + apply (co_worker _ _ Hinv j x Hj).
  - rewrite (countZ_insert _ _ _ _ _ Hl), Hcount, (co_count _ _ Hinv). reflexivity.
  - intros c Hc. rewrite (countZ_insert _ _ _ _ _ Hl), (Hobs c Hc), (co_observed _ _ Hinv c Hc).
    reflexivity.
Qed.

Lemma CountOk_step s e :
  CountOk n s -> CountOk n (sys_step worker_step tape s e).
Proof.
  intros Hinv.
  destruct (sys_step_cases tape worker_step s e)
    as [-> | [[_ ->] | (i & fails & w & st' & w' & _ & Hnp & Hl & Hend & Hstep & ->)]].
  - assumption.
  - destruct Hinv. split; assumption.
  - destruct (step_normal n n_fits s i w Hinv Hl) as (Hcount & Hstore & Hi).
    pose proof (co_slots _ _ Hinv) as Hslots.
    assert (Hcd : uncounted (w_pc w) = true -> 0 <= chunksDone (shared s) < Z.of_nat n).
    { apply (uncounted_below n s i w Hinv Hl). }
    destruct (co_worker _ _ Hinv i w Hl) as [Hid Htot [Hv1 Hv2] Hunc Hepi Hcnt].
    by_place Hstep Hcount Hstore Hnp; try congruence;
      cbn [uncounted in_epilogue] in Hunc, Hepi, Hcnt, Hcd;
      (apply (CountOk_replace s i w _ _ Hinv Hl);
       [ assumption
       | cbn; rewrite ?length_insert; assumption
       | split; cbn; rewrite ?Hpc; try tauto; try discriminate;
         try (split; discriminate);
         repeat match goal with
           | H : (_ =? _) = true |- _ => apply Z.eqb_eq in H
           | H : (_ =? _) = false |- _ => apply Z.eqb_neq in H
           end; try lia; intros; try lia; try (apply Hunc; reflexivity);
         try (apply Hepi; reflexivity); try (apply Hcnt; reflexivity)
       | cbn; rewrite ?Hpc; cbn; lia
       | intros c Hc1; unfold is_last; cbn; rewrite ?Hpc;
         try (rewrite (Hunc eq_refl));
         repeat match goal with
           | |- context [?a <=? ?b] => destruct (Z.leb_spec a b)
           | |- context [?a =? ?b] => destruct (Z.eqb_spec a b)
           end; cbn; try lia; try (specialize (Hcd eq_refl); lia) ]).
Qed.


Lemma CountOk_start s :
  all_scheduled n s -> CountOk n s.
Proof.
  intros (Hlen & Hslots & Hws & Hcd & Hst & Hdone & Hun & Hrem & Hnp).
  assert (Hzero : forall f, (forall i w, workers s !! i = Some w -> f w = false) ->
                            countZ f (workers s) = 0).
  { intros f Hf. pose proof (countZ_bounds f (workers s)) as Hb.
    destruct (Z.eq_dec (countZ f (workers s)) 0) as [|Hne]; [assumption|].
    exfalso. clear Hb. revert Hf Hne. generalize (workers s) as ws.
    induction ws as [|x ws IH]; intros Hf Hne; simpl in Hne; [lia|].
    rewrite (Hf 0%nat x eq_refl) in Hne. simpl in Hne.
    apply IH; [|assumption]. intros i w Hl. apply (Hf (S i) w Hl). }
  split; try assumption.
  - intros i w Hl. destruct (Hws i w Hl) as (Hpc & Hobs & Hsc & Hid & Htot).
    split; rewrite ?Hpc; try assumption; try discriminate.
    + split; discriminate.
    + intros _. assumption.
  - rewrite Hcd. symmetry. apply Hzero. intros i w Hl.
    destruct (Hws i w Hl) as (Hpc & _). rewrite Hpc. reflexivity.
  - intros c Hc. rewrite Hcd. rewrite Hzero.
    + destruct (Z.leb_spec c 0); [lia|reflexivity].
    + intros i w Hl. destruct (Hws i w Hl) as (_ & Hobs & _).
      unfold is_last. rewrite Hobs. apply Z.eqb_neq. lia.
Qed.

End CountingStep.

(** ** Workers: the done accounting *)

Section DoneFacts.

Import GoInt Ste.

Variable tape : nat -> list ascii.
Variable n : nat.
Hypothesis n_fits : Z.of_nat n <= max_uint32.

Lemma DoneOk_replace s i w st' w' :
  DoneOk n s -> workers s !! i = Some w ->
  Z.of_nat (length (transfersDone st'))
  = Z.of_nat (length (transfersDone (shared s)))
    - b2z (is_last (Z.of_nat n) w && done_called (w_pc w))
    + b2z (is_last (Z.of_nat n) w' && done_called (w_pc w')) ->
  (w_observed w = Z.of_nat n -> w_observed w' = Z.of_nat n) ->
  (forall who, In who (transfersDone st') ->
     In who (transfersDone (shared s)) \/
     (who = ByChunk (Z.of_nat i) /\ w_observed w' = Z.of_nat n)) ->
  DoneOk n {| shared := st'; workers := <[i := w']> (workers s) |}.
Proof.
  intros [Hcount Hby] Hl Hlen Hkeep Hnew. split; cbn [shared workers].
  - rewrite (countZ_insert _ _ _ _ _ Hl), Hlen, Hcount. reflexivity.
  - intros who Hin. destruct (Hnew who Hin) as [Hold|[-> Hobs]].
    + destruct (Hby who Hold) as (j & x & -> & Hj & Hx).
      destruct (decide (j = i)) as [->|Hne].
      * exists i, w'. split; [reflexivity|]. split.
        -- apply list_lookup_insert_eq. eapply lookup_lt_Some. eassumption.
        -- apply Hkeep. congruence.
      * exists j, x. split; [reflexivity|]. split; [|assumption].
        rewrite list_lookup_insert_ne by congruence. assumption.
    + exists i, w'. split; [reflexivity|]. split; [|assumption].
      apply list_lookup_insert_eq. eapply lookup_lt_Some. eassumption.
Qed.

Lemma DoneOk_step s e :
  CountOk n s -> DoneOk n s -> DoneOk n (sys_step worker_step tape s e).
Proof.
  intros Hinv Hdone.
  destruct (sys_step_cases tape worker_step s e)
    as [-> | [[_ ->] | (i & fails & w & st' & w' & _ & Hnp & Hl & Hend & Hstep & ->)]].
  - assumption.
  - destruct Hdone. split; assumption.
  - destruct (step_normal n n_fits s i w Hinv Hl) as (Hcount & Hstore & Hi).
    assert (Hcd : uncounted (w_pc w) = true -> 0 <= chunksDone (shared s) < Z.of_nat n).
    { apply (uncounted_below n s i w Hinv Hl). }
    destruct (co_worker _ _ Hinv i w Hl) as [Hid Htot [Hv1 Hv2] Hunc Hepi Hcnt].
    by_place Hstep Hcount Hstore Hnp; try congruence;
      cbn [uncounted in_epilogue] in Hunc, Hepi, Hcnt, Hcd;
      (apply (DoneOk_replace s i w _ _ Hdone Hl);
       [ unfold is_last; cbn; rewrite ?Hpc; cbn;
         try (rewrite (Hunc eq_refl)); try (rewrite (Hepi eq_refl));
         rewrite ?Z.eqb_refl, ?andb_false_r, ?andb_true_r;
         repeat match goal with
           | H : (_ =? _) = true |- _ => apply Z.eqb_eq in H
           | H : (_ =? _) = false |- _ => apply Z.eqb_neq in H
           | |- context [?a =? ?b] => destruct (Z.eqb_spec a b)
           end; cbn; try lia
       | cbn; try tauto; try (rewrite (Hunc eq_refl); specialize (Hcd eq_refl); lia)
       | cbn; intros who Hin; try (left; assumption);
         try (destruct Hin as [<-|Hin]; [right; split; [congruence|apply Hepi; reflexivity]
                                        |left; assumption]) ]).
Qed.

End DoneFacts.

(** ** Workers: block ids *)

Section IdFacts.

Import GoInt Ste.

Variable tape : nat -> list ascii.
Variable n : nat.
Hypothesis n_fits : Z.of_nat n <= max_uint32.

Lemma IdsOk_replace s i w st' w' :
  IdsOk tape n s -> workers s !! i = Some w ->
  (cancelled (shared s) = true -> cancelled st' = true) ->
  (w_sawCancel w' = true -> cancelled st' = true) ->
  (skipping (w_pc w') = true -> w_sawCancel w' = true) ->
  (drawn w' = true -> w_blockId w' = BlockId.encodedBlockId (tape i)) ->
  (forall j, j <> i -> blockIds st' !! j = blockIds (shared s) !! j) ->
  (stored w' = true -> blockIds st' !! i = Some (w_blockId w')) ->
  (1 <= countZ (fun w => committing (w_pc w)) (workers s)
        - b2z (committing (w_pc w)) + b2z (committing (w_pc w')) ->
   countZ w_sawCancel (workers s) - b2z (w_sawCancel w) + b2z (w_sawCancel w') = 0) ->
  (forall ids f, In (OpPutBlockList ids, f) (remote st') ->
     In (OpPutBlockList ids, f) (remote (shared s)) \/
     ids = map (fun i => BlockId.encodedBlockId (tape i)) (seq 0 n)) ->
  IdsOk tape n {| shared := st'; workers := <[i := w']> (workers s) |}.
Proof.
  intros [Hskip Hskipping Hdrawn Hstored Hcommit Hlogged] Hl Hcan Hsk' Hsg' Hdr' Hother
         Hst' Hcm' Hlog'.
  split; cbn [shared workers].
  - intros j x Hj Hx. apply list_lookup_insert_Some in Hj as [(<- & <- & _)|[Hne Hj]].
    + auto.
    + eauto.
  - intros j x Hj Hx. apply list_lookup_insert_Some in Hj as [(<- & <- & _)|[Hne Hj]].
    + auto.
    + eauto.
  - intros j x Hj Hx. apply list_lookup_insert_Some in Hj as [(<- & <- & _)|[Hne Hj]].
    + auto.
    + eauto.
  - intros j x Hj Hx. apply list_lookup_insert_Some in Hj as [(<- & <- & _)|[Hne Hj]].
    + auto.
    + rewrite Hother by congruence. eauto.
  - rewrite !(countZ_insert _ _ _ _ _ Hl). assumption.
  - intros ids f Hin. destruct (Hlog' ids f Hin) as [Hold|Hnew]; eauto.
Qed.

(** When the last closure commits, every slot holds the id of its chunk. *)
Lemma all_ids_stored s i w :
  CountOk n s -> IdsOk tape n s ->
  workers s !! i = Some w -> w_pc w = PPutBlockList ->
  blockIds (shared s) = map (fun i => BlockId.encodedBlockId (tape i)) (seq 0 n).
Proof.
  intros Hinv Hids Hl Hpc.
  assert (Hn : (0 < n)%nat).
  { rewrite <- (co_workers _ _ Hinv). apply lookup_lt_Some in Hl. lia. }
  assert (Hobs : w_observed w = Z.of_nat n).
  { apply (wk_epilogue _ _ _ (co_worker _ _ Hinv i w Hl)). rewrite Hpc. reflexivity. }
  assert (Hnoskip : countZ w_sawCancel (workers s) = 0).
  { apply (io_commit _ _ _ Hids). apply (countZ_lookup _ _ i w Hl).
    rewrite Hpc. reflexivity. }
  apply list_eq. intros j.
  destruct (decide (j < n)%nat) as [Hj|Hj].
  - rewrite list_lookup_fmap, lookup_seq_lt by assumption. simpl.
    destruct (lookup_lt_is_Some_2 (workers s) j) as [x Hx].
    { rewrite (co_workers _ _ Hinv). assumption. }
    pose proof (countZ_zero _ _ _ _ Hnoskip Hx) as Hsc.
    pose proof (last_all_counted n s i w j x Hinv Hn Hl Hobs Hx) as Hcounted.
    destruct (co_worker _ _ Hinv j x Hx) as [_ _ [Hv1 Hv2] _ Hepi _].
    assert (Hplace : stored x = true /\ drawn x = true).
    { unfold stored, drawn. rewrite Hsc. simpl.
      destruct (w_pc x) eqn:Hpx; try discriminate; try (split; reflexivity).
      exfalso.
      assert (i = j).
      { apply (last_unique n s i j w x Hinv Hn Hl Hx Hobs).
        apply Hepi. reflexivity. }
      subst j. congruence. }
    destruct Hplace as [Hst Hdr].
    rewrite (io_stored _ _ _ Hids j x Hx Hst), (io_drawn _ _ _ Hids j x Hx Hdr).
    reflexivity.
  - rewrite !lookup_ge_None_2; [reflexivity| |].
    + rewrite length_map, length_seq. lia.
    + rewrite (co_slots _ _ Hinv). lia.
Qed.

Lemma IdsOk_step s e :
  CountOk n s -> IdsOk tape n s -> IdsOk tape n (sys_step worker_step tape s e).
Proof.
  intros Hinv Hids.
  destruct (sys_step_cases tape worker_step s e)
    as [-> | [[_ ->] | (i & fails & w & st' & w' & _ & Hnp & Hl & Hend & Hstep & ->)]].
  - assumption.
  - destruct Hids as [Hskip Hskipping Hdrawn Hstored Hcommit Hlogged].
    split; try assumption. intros; reflexivity.
  - destruct (step_normal n n_fits s i w Hinv Hl) as (Hcount & Hstore & Hi).
    pose proof (io_skip _ _ _ Hids i w Hl) as Hskip.
    pose proof (io_skipping _ _ _ Hids i w Hl) as Hskipping.
    pose proof (io_drawn _ _ _ Hids i w Hl) as Hdrawn.
    pose proof (io_stored _ _ _ Hids i w Hl) as Hstored.
    pose proof (io_commit _ _ _ Hids) as Hcommit.
    pose proof (all_ids_stored s i w Hinv Hids Hl) as Hall.
    unfold stored, drawn in Hstored, Hdrawn.
    by_place Hstep Hcount Hstore Hnp; try congruence;
      cbn [andb negb skipping] in Hdrawn, Hstored, Hskipping;
      rewrite ?andb_true_r, ?andb_false_r in Hdrawn;
      rewrite ?andb_true_r, ?andb_false_r in Hstored;
      (apply (IdsOk_replace s i w _ _ Hids Hl);
       [ cbn; try tauto
       | cbn; try tauto; try (rewrite ?Hc; assumption)
       | cbn; try discriminate; try tauto
       | unfold drawn; cbn; rewrite ?Hpc; cbn; rewrite ?andb_false_r, ?andb_true_r;
         try discriminate; try tauto;
         try (rewrite (Hskipping eq_refl); discriminate)
       | intros j Hj; cbn; try reflexivity;
         try (apply list_lookup_insert_ne; congruence)
       | unfold stored; cbn; rewrite ?Hpc; cbn; rewrite ?andb_false_r, ?andb_true_r;
         try discriminate; try tauto;
         try (rewrite (Hskipping eq_refl); discriminate);
         try (intros _; apply list_lookup_insert_eq;
              rewrite (co_slots _ _ Hinv); assumption)
       | cbn; rewrite ?Hpc; cbn; try lia
       | cbn; intros ids f Hin; try (left; assumption);
         try (destruct Hin as [Heq|Hin]; [discriminate|left; assumption]);
         try (destruct Hin as [Heq|Hin];
              [right; injection Heq as <- _; apply Hall; reflexivity
              |left; assumption]) ]).
    + intros Hge. exfalso.
      destruct (countZ_exists (fun w => committing (w_pc w)) (workers s) ltac:(lia))
        as (j & x & Hj & Hx).
      assert (Hobs : w_observed x = Z.of_nat n).
      { apply (wk_epilogue _ _ _ (co_worker _ _ Hinv j x Hj)).
        destruct (w_pc x); try discriminate; reflexivity. }
      pose proof (last_all_counted n s j x i w Hinv ltac:(lia) Hj Hobs Hl) as Hu.
      rewrite Hpc in Hu. discriminate.
    + intros _. rewrite countZ_none; [lia|].
      intros j x Hj. destruct (w_sawCancel x) eqn:E; [|reflexivity].
      pose proof (io_skip _ _ _ Hids j x Hj E). congruence.
Qed.

Lemma IdsOk_start s : all_scheduled n s -> IdsOk tape n s.
Proof.
  intros (Hlen & Hslots & Hws & Hcd & Hst & Hdone & Hun & Hrem & Hnp).
  split.
  - intros i w Hl Hsc. destruct (Hws i w Hl) as (_ & _ & Hf & _). congruence.
  - intros i w Hl Hsk. destruct (Hws i w Hl) as (Hpc & _). rewrite Hpc in Hsk. discriminate.
  - intros i w Hl Hd. destruct (Hws i w Hl) as (Hpc & _). unfold drawn in Hd.
    rewrite Hpc, andb_false_r in Hd. discriminate.
  - intros i w Hl Hd. destruct (Hws i w Hl) as (Hpc & _). unfold stored in Hd.
    rewrite Hpc, andb_false_r in Hd. discriminate.
  - intros _. apply countZ_none. intros i w Hl.
    destruct (Hws i w Hl) as (_ & _ & Hf & _). assumption.
  - intros ids f Hin. rewrite Hrem in Hin. destruct Hin.
Qed.


End IdFacts.

(** ** Workers: the earlier closure *)

Section EarlierFacts.

Import GoInt Ste.

Variable tape : nat -> list ascii.
Variable n : nat.
Hypothesis n_fits : Z.of_nat n <= max_uint32.

Lemma EarlierOk_start s : all_scheduled n s -> EarlierOk tape n s.
Proof.
  intros (Hlen & Hslots & Hws & Hcd & Hst & Hdone & Hun & Hrem & Hnp).
  split; try assumption.
  - intros i w Hl. destruct (Hws i w Hl) as (_ & _ & _ & Hid & Htot). auto.
  - intros i w Hl. destruct (Hws i w Hl) as (_ & Hobs & _). lia.
  - intros i w Hl _. destruct (Hws i w Hl) as (_ & Hobs & _). assumption.
  - intros i w Hl Hpc. destruct (Hws i w Hl) as (Hpc' & _). congruence.
  - rewrite Hcd. symmetry. apply countZ_none. intros i w Hl.
    destruct (Hws i w Hl) as (_ & Hobs & _). unfold has_counted. rewrite Hobs. reflexivity.
  - intros i w Hl Hd. destruct (Hws i w Hl) as (Hpc & _). rewrite Hpc in Hd. discriminate.
  - intros i w Hl Hd. destruct (Hws i w Hl) as (Hpc & _). rewrite Hpc in Hd. discriminate.
  - intros ids f Hin. rewrite Hrem in Hin. destruct Hin.
Qed.

(** While a closure has not counted, the counter is below the total. *)
Lemma uncountedV0_below s i w :
  EarlierOk tape n s -> workers s !! i = Some w -> w_observed w = 0 ->
  0 <= chunksDone (shared s) < Z.of_nat n.
Proof.
  intros Hinv Hl Hobs. rewrite (eo_count _ _ _ Hinv).
  pose proof (countZ_bounds has_counted (workers s)) as Hb.
  rewrite (eo_workers _ _ _ Hinv) in Hb. split; [lia|].
  destruct (Z.eq_dec (countZ has_counted (workers s)) (Z.of_nat (length (workers s))))
    as [Hfull|Hne]; [|rewrite (eo_workers _ _ _ Hinv) in Hne; lia].
  pose proof (countZ_full _ _ _ _ Hfull Hl) as Hc. unfold has_counted in Hc.
  rewrite Hobs in Hc. discriminate.
Qed.

(** When the last closure commits, every slot holds the id of its chunk. *)
Lemma all_ids_storedV0 s i w :
  EarlierOk tape n s -> workers s !! i = Some w -> w_pc w = PPutBlockList ->
  blockIds (shared s) = map (fun i => BlockId.encodedBlockId (tape i)) (seq 0 n).
Proof.
  intros Hinv Hl Hpc.
  pose proof (eo_commit _ _ _ Hinv i w Hl Hpc) as Hobs.
  pose proof (eo_observed _ _ _ Hinv i w Hl) as Hle.
  pose proof (countZ_bounds has_counted (workers s)) as Hb.
  assert (Hfull : countZ has_counted (workers s) = Z.of_nat (length (workers s))).
  { rewrite <- (eo_count _ _ _ Hinv) in *. rewrite (eo_workers _ _ _ Hinv) in *. lia. }
  apply list_eq. intros j.
  destruct (decide (j < n)%nat) as [Hj|Hj].
  - rewrite list_lookup_fmap, lookup_seq_lt by assumption. simpl.
    destruct (lookup_lt_is_Some_2 (workers s) j) as [x Hx].
    { rewrite (eo_workers _ _ _ Hinv). assumption. }
    pose proof (countZ_full _ _ _ _ Hfull Hx) as Hc. unfold has_counted in Hc.
    assert (Hplace : uncountedV0 (w_pc x) = false).
    { destruct (uncountedV0 (w_pc x)) eqn:Hu; [|reflexivity].
      rewrite (eo_uncounted _ _ _ Hinv j x Hx Hu) in Hc. discriminate. }
    assert (Hst : storedV0 (w_pc x) = true /\ drawnV0 (w_pc x) = true).
    { destruct (w_pc x); try discriminate; split; reflexivity. }
    rewrite (eo_stored _ _ _ Hinv j x Hx (proj1 Hst)),
            (eo_drawn _ _ _ Hinv j x Hx (proj2 Hst)).
    reflexivity.
  - rewrite !lookup_ge_None_2; [reflexivity| |].
    + rewrite length_map, length_seq. lia.
    + rewrite (eo_slots _ _ _ Hinv). lia.
Qed.

Lemma EarlierOk_replace s i w st' w' :
  EarlierOk tape n s -> workers s !! i = Some w ->
  panicked st' = false ->
  length (blockIds st') = n ->
  w_msg w' = w_msg w ->
  chunksDone (shared s) <= chunksDone st' ->
  0 <= w_observed w' <= chunksDone st' ->
  (uncountedV0 (w_pc w') = true -> w_observed w' = 0) ->
  (w_pc w' = PPutBlockList -> w_observed w' = Z.of_nat n) ->
  chunksDone st' = chunksDone (shared s) - b2z (has_counted w) + b2z (has_counted w') ->
  (drawnV0 (w_pc w') = true -> w_blockId w' = BlockId.encodedBlockId (tape i)) ->
  (forall j, j <> i -> blockIds st' !! j = blockIds (shared s) !! j) ->
  (storedV0 (w_pc w') = true -> blockIds st' !! i = Some (w_blockId w')) ->
  (forall ids f, In (OpPutBlockList ids, f) (remote st') ->
     In (OpPutBlockList ids, f) (remote (shared s)) \/
     ids = map (fun i => BlockId.encodedBlockId (tape i)) (seq 0 n)) ->
  EarlierOk tape n {| shared := st'; workers := <[i := w']> (workers s) |}.
Proof.
  intros Hinv Hl Hnp Hslots Hmsg Hmono Hobs Hunc Hcom Hcount Hdr Hother Hst Hlog.
  split; cbn [shared workers].
  - rewrite length_insert. apply (eo_workers _ _ _ Hinv).
  - assumption.
  - assumption.
  - intros j x Hj. apply list_lookup_insert_Some in Hj as [(<- & <- & _)|[Hne Hj]].
    + rewrite Hmsg. apply (eo_id _ _ _ Hinv i w Hl).
    + apply (eo_id _ _ _ Hinv j x Hj).
  - intros j x Hj. apply list_lookup_insert_Some in Hj as [(<- & <- & _)|[Hne Hj]].
    + assumption.
    + pose proof (eo_observed _ _ _ Hinv j x Hj). lia.
  - intros j x Hj. apply list_lookup_insert_Some in Hj as [(<- & <- & _)|[Hne Hj]].
    + assumption.
    + apply (eo_uncounted _ _ _ Hinv j x Hj).
  - intros j x Hj. apply list_lookup_insert_Some in Hj as [(<- & <- & _)|[Hne Hj]].
    + assumption.
    + apply (eo_commit _ _ _ Hinv j x Hj).
  - rewrite (countZ_insert _ _ _ _ _ Hl), Hcount, (eo_count _ _ _ Hinv). reflexivity.
  - intros j x Hj. apply list_lookup_insert_Some in Hj as [(<- & <- & _)|[Hne Hj]].
    + assumption.
    + apply (eo_drawn _ _ _ Hinv j x Hj).
  - intros j x Hj Hx. apply list_lookup_insert_Some in Hj as [(<- & <- & _)|[Hne Hj]].
    + auto.
    + rewrite Hother by congruence. apply (eo_stored _ _ _ Hinv j x Hj Hx).
  - intros ids f Hin. destruct (Hlog ids f Hin) as [Hold|Hnew];
      [apply (eo_logged _ _ _ Hinv ids f Hold)|assumption].
Qed.

Lemma EarlierOk_step s e :
  EarlierOk tape n s -> EarlierOk tape n (sys_step worker_stepV0 tape s e).
Proof.
  intros Hinv.
  destruct (sys_step_cases tape worker_stepV0 s e)
    as [-> | [[_ ->] | (i & fails & w & st' & w' & _ & Hnp & Hl & Hend & Hstep & ->)]].
  - assumption.
  - destruct Hinv. split; assumption.
  - assert (Hi : (i < n)%nat).
    { rewrite <- (eo_workers _ _ _ Hinv). eapply lookup_lt_Some. eassumption. }
    destruct (eo_id _ _ _ Hinv i w Hl) as [Hid Htot].
    pose proof (eo_observed _ _ _ Hinv i w Hl) as Hobs.
    pose proof (eo_uncounted _ _ _ Hinv i w Hl) as Hunc.
    pose proof (eo_commit _ _ _ Hinv i w Hl) as Hcom.
    pose proof (eo_drawn _ _ _ Hinv i w Hl) as Hdrawn.
    pose proof (eo_stored _ _ _ Hinv i w Hl) as Hstored.
    pose proof (all_ids_storedV0 s i w Hinv Hl) as Hall.
    pose proof (eo_slots _ _ _ Hinv) as Hslots.
    assert (Hcount : uncountedV0 (w_pc w) = true ->
      ChunksDone (shared s)
      = (set_chunksDone (chunksDone (shared s) + 1) (shared s), chunksDone (shared s) + 1)).
    { intros Hu. apply ChunksDone_small.
      pose proof (uncountedV0_below s i w Hinv Hl (Hunc Hu)). lia. }
    assert (Hcd : uncountedV0 (w_pc w) = true -> 0 <= chunksDone (shared s) < Z.of_nat n).
    { intros Hu. apply (uncountedV0_below s i w Hinv Hl (Hunc Hu)). }
    assert (Hstore : forall id, store_blockId (chunkId (w_msg w)) id (shared s)
                       = set_blockIds (<[i := id]> (blockIds (shared s))) (shared s)).
    { intros id. rewrite Hid. apply store_blockId_in_range. lia. }
    by_placeV0 Hstep Hcount Hstore Hnp; try congruence;
      cbn [uncountedV0 drawnV0 storedV0] in Hunc, Hdrawn, Hstored, Hcd;
      (apply (EarlierOk_replace s i w _ _ Hinv Hl);
       [ assumption
       | cbn; rewrite ?length_insert; assumption
       | reflexivity
       | cbn; lia
       | cbn; try lia; try (specialize (Hcd eq_refl); lia)
       | cbn; rewrite ?Hpc; try tauto; try discriminate; try (intros _; lia)
       | cbn; rewrite ?Hpc; try discriminate; try tauto;
         repeat match goal with
           | H : (_ =? _) = true |- _ => apply Z.eqb_eq in H
           end; try (intros _; lia)
       | unfold has_counted; cbn; rewrite ?(Hunc eq_refl);
         repeat match goal with
           | |- context [?a <=? ?b] => destruct (Z.leb_spec a b)
           end; cbn; try lia; try (specialize (Hcd eq_refl); lia)
       | cbn; rewrite ?Hpc; try discriminate; try tauto
       | intros j Hj; cbn; try reflexivity;
         try (apply list_lookup_insert_ne; congruence)
       | cbn; rewrite ?Hpc; try discriminate; try tauto;
         try (intros _; apply list_lookup_insert_eq; lia)
       | cbn; intros ids f Hin; try (left; assumption);
         try (destruct Hin as [Heq|Hin]; [discriminate|left; assumption]);
         try (destruct Hin as [Heq|Hin];
              [right; injection Heq as <- _; apply Hall; reflexivity
              |left; assumption]) ]).
Qed.

Lemma EarlierOk_run sch : forall s,
  EarlierOk tape n s -> EarlierOk tape n (run worker_stepV0 tape sch s).
Proof.
  induction sch as [|e sch IH]; intros s Hinv; simpl; [assumption|].
  apply IH, EarlierOk_step, Hinv.
Qed.

End EarlierFacts.

(** ** Workers: the status *)

Section StatusFacts.

Import GoInt Ste.

Variable tape : nat -> list ascii.
Variable n : nat.
Hypothesis n_fits : Z.of_nat n <= max_uint32.

Lemma StatusOk_replace s i w st' w' :
  StatusOk n s -> workers s !! i = Some w ->
  (status st' = 0 \/ status st' = 1 \/ status st' = 2) ->
  (forall p, fail_logged p (shared s) = true -> fail_logged p st' = true) ->
  (failing (w_pc w') = true -> fail_logged is_PutBlock st' = true) ->
  (list_failing (w_pc w') = true -> fail_logged is_PutBlockList st' = true) ->
  (status st' = 1 ->
   1 <= countZ (fun w => is_last (Z.of_nat n) w && wrote_complete (w_pc w)) (workers s)
        - b2z (is_last (Z.of_nat n) w && wrote_complete (w_pc w))
        + b2z (is_last (Z.of_nat n) w' && wrote_complete (w_pc w'))) ->
  (fail_logged is_PutBlock st' = true ->
   cancelled st' = true \/
   1 <= countZ (fun w => about_to_cancel (w_pc w)) (workers s)
        - b2z (about_to_cancel (w_pc w)) + b2z (about_to_cancel (w_pc w'))) ->
  (fail_logged is_PutBlockList st' = true ->
   1 <= countZ (fun w => is_last (Z.of_nat n) w && list_failed (w_pc w)) (workers s)
        - b2z (is_last (Z.of_nat n) w && list_failed (w_pc w))
        + b2z (is_last (Z.of_nat n) w' && list_failed (w_pc w'))) ->
  (1 <= countZ (fun w => clean_commit (w_pc w)) (workers s)
        - b2z (clean_commit (w_pc w)) + b2z (clean_commit (w_pc w')) ->
   fail_logged is_PutBlock st' = false /\ fail_logged is_PutBlockList st' = false) ->
  (status st' = 2 ->
   fail_logged is_PutBlock st' = true \/ fail_logged is_PutBlockList st' = true) ->
  (fail_logged is_PutBlockList st' = true ->
   status st' = 2 \/
   1 <= countZ (fun w => list_failing (w_pc w)) (workers s)
        - b2z (list_failing (w_pc w)) + b2z (list_failing (w_pc w'))) ->
  (logged is_PutBlockList st' = true ->
   1 <= countZ (fun w => is_last (Z.of_nat n) w && past_commit (w_pc w)) (workers s)
        - b2z (is_last (Z.of_nat n) w && past_commit (w_pc w))
        + b2z (is_last (Z.of_nat n) w' && past_commit (w_pc w'))) ->
  StatusOk n {| shared := st'; workers := <[i := w']> (workers s) |}.
Proof.
  intros Hs Hl H1 Hmono H2 H3 H4 H5 H6 H7 H8 H9 H10.
  split; cbn [shared workers]; rewrite ?(countZ_insert _ _ _ _ _ Hl); try assumption.
  - intros j x Hj Hx. apply list_lookup_insert_Some in Hj as [(<- & <- & _)|[Hne Hj]].
    + auto.
    + apply Hmono. apply (so_failing _ _ Hs j x Hj Hx).
  - intros j x Hj Hx. apply list_lookup_insert_Some in Hj as [(<- & <- & _)|[Hne Hj]].
    + auto.
    + apply Hmono. apply (so_list_failing _ _ Hs j x Hj Hx).
Qed.


(** Counts of closures in the epilogue, seen from a closure that has not yet
    counted: there is none. *)
Lemma counts_uncounted s i w (g : Worker -> bool) :
  CountOk n s -> workers s !! i = Some w -> uncounted (w_pc w) = true ->
  (forall j x, workers s !! j = Some x -> g x = true -> w_observed x = Z.of_nat n) ->
  countZ g (workers s) = 0.
Proof.
  intros Hinv Hl Hu Hg. apply countZ_none. intros j x Hj.
  destruct (g x) eqn:Hx; [|reflexivity]. exfalso.
  assert (Hn : (0 < n)%nat).
  { rewrite <- (co_workers _ _ Hinv). apply lookup_lt_Some in Hl. lia. }
  pose proof (last_all_counted n s j x i w Hinv Hn Hj (Hg j x Hj Hx) Hl). congruence.
Qed.

(** Seen from the closure that found the counter equal to the total: it is
    the only one, and all others have counted. *)
Lemma counts_last s i w (g : Worker -> bool) :
  CountOk n s -> workers s !! i = Some w -> w_observed w = Z.of_nat n ->
  (forall j x, workers s !! j = Some x -> g x = true -> w_observed x = Z.of_nat n) ->
  countZ g (workers s) = b2z (g w).
Proof.
  intros Hinv Hl Hobs Hg.
  assert (Hn : (0 < n)%nat).
  { rewrite <- (co_workers _ _ Hinv). apply lookup_lt_Some in Hl. lia. }
  pose proof (countZ_bounds g (workers s)) as Hb.
  destruct (g w) eqn:Hw; simpl.
  - pose proof (countZ_lookup g _ i w Hl Hw).
    assert (countZ g (workers s) <= countZ (is_last (Z.of_nat n)) (workers s)).
    { apply countZ_le. intros j x Hj Hx. unfold is_last.
      rewrite (Hg j x Hj Hx). apply Z.eqb_refl. }
    rewrite (co_observed _ _ Hinv) in * by lia.
    pose proof (b2z_range (Z.of_nat n <=? chunksDone (shared s))). lia.
  - apply countZ_none. intros j x Hj. destruct (g x) eqn:Hx; [|reflexivity].
    assert (j = i) by (eapply (last_unique n s j i x w); eauto).
    subst j. congruence.
Qed.

Lemma counts_all_counted s i w (g : Worker -> bool) :
  CountOk n s -> workers s !! i = Some w -> w_observed w = Z.of_nat n ->
  (forall j x, workers s !! j = Some x -> g x = true -> uncounted (w_pc x) = true) ->
  countZ g (workers s) = 0.
Proof.
  intros Hinv Hl Hobs Hg. apply countZ_none. intros j x Hj.
  destruct (g x) eqn:Hx; [|reflexivity]. exfalso.
  assert (Hn : (0 < n)%nat).
  { rewrite <- (co_workers _ _ Hinv). apply lookup_lt_Some in Hl. lia. }
  pose proof (last_all_counted n s i w j x Hinv Hn Hl Hobs Hj).
  pose proof (Hg j x Hj Hx). congruence.
Qed.

(** The counts the status invariant speaks of, seen from worker [i]. *)
Lemma status_counts s i w :
  CountOk n s -> workers s !! i = Some w ->
  let N := Z.of_nat n in
  let ws := workers s in
  (uncounted (w_pc w) = true ->
   countZ (fun w => is_last N w && wrote_complete (w_pc w)) ws = 0 /\
   countZ (fun w => is_last N w && list_failed (w_pc w)) ws = 0 /\
   countZ (fun w => clean_commit (w_pc w)) ws = 0 /\
   countZ (fun w => list_failing (w_pc w)) ws = 0 /\
   countZ (fun w => is_last N w && past_commit (w_pc w)) ws = 0) /\
  (in_epilogue (w_pc w) = true ->
   is_last N w = true /\
   countZ (fun w => is_last N w && wrote_complete (w_pc w)) ws
     = b2z (wrote_complete (w_pc w)) /\
   countZ (fun w => about_to_cancel (w_pc w)) ws = 0 /\
   countZ (fun w => is_last N w && list_failed (w_pc w)) ws
     = b2z (list_failed (w_pc w)) /\
   countZ (fun w => clean_commit (w_pc w)) ws = b2z (clean_commit (w_pc w)) /\
   countZ (fun w => list_failing (w_pc w)) ws = b2z (list_failing (w_pc w)) /\
   countZ (fun w => is_last N w && past_commit (w_pc w)) ws
     = b2z (past_commit (w_pc w))).
Proof.
  intros Hinv Hl N ws.
  assert (Hlast : forall P j x, workers s !! j = Some x ->
            is_last N x && P (w_pc x) = true -> w_observed x = N).
  { intros P j x _ Hx. apply andb_true_iff in Hx as [Hx _]. apply Z.eqb_eq. exact Hx. }
  assert (Hep : forall P, (forall p, P p = true -> in_epilogue p = true) ->
            forall j x, workers s !! j = Some x -> P (w_pc x) = true -> w_observed x = N).
  { intros P HP j x Hj Hx.
    apply (wk_epilogue _ _ _ (co_worker _ _ Hinv j x Hj)), HP, Hx. }
  assert (Hcc : forall p, clean_commit p = true -> in_epilogue p = true)
    by (intros []; simpl; congruence).
  assert (Hlf : forall p, list_failing p = true -> in_epilogue p = true)
    by (intros []; simpl; congruence).
  split.
  - intros Hu. repeat split.
    + apply (counts_uncounted s i w _ Hinv Hl Hu), Hlast.
    + apply (counts_uncounted s i w _ Hinv Hl Hu), Hlast.
    + apply (counts_uncounted s i w _ Hinv Hl Hu), (Hep _ Hcc).
    + apply (counts_uncounted s i w _ Hinv Hl Hu), (Hep _ Hlf).
    + apply (counts_uncounted s i w _ Hinv Hl Hu), Hlast.
  - intros He.
    assert (Hobs : w_observed w = N).
    { apply (wk_epilogue _ _ _ (co_worker _ _ Hinv i w Hl)), He. }
    assert (Hil : is_last N w = true) by (unfold is_last; rewrite Hobs; apply Z.eqb_refl).
    split; [assumption|]. repeat split.
    + rewrite (counts_last s i w _ Hinv Hl Hobs (Hlast _)), Hil. reflexivity.
    + apply (counts_all_counted s i w _ Hinv Hl Hobs).
      intros j x _. destruct (w_pc x); simpl; congruence.
    + rewrite (counts_last s i w _ Hinv Hl Hobs (Hlast _)), Hil. reflexivity.
    + apply (counts_last s i w _ Hinv Hl Hobs (Hep _ Hcc)).
    + apply (counts_last s i w _ Hinv Hl Hobs (Hep _ Hlf)).
    + rewrite (counts_last s i w _ Hinv Hl Hobs (Hlast _)), Hil. reflexivity.
Qed.


Lemma StatusOk_step s e :
  CountOk n s -> StatusOk n s -> StatusOk n (sys_step worker_step tape s e).
Proof.
  intros Hinv Hs.
  destruct (sys_step_cases tape worker_step s e)
    as [-> | [[_ ->] | (i & fails & w & st' & w' & _ & Hnp & Hl & Hend & Hstep & ->)]].
  - assumption.
  - destruct Hs. split; try assumption. intros; left; reflexivity.
  - destruct (step_normal n n_fits s i w Hinv Hl) as (Hcount & Hstore & Hi).
    destruct (status_counts s i w Hinv Hl) as [Hcu Hcl].
    destruct (co_worker _ _ Hinv i w Hl) as [Hid Htot [Hv1 Hv2] Hunc Hepi Hcnt].
    pose proof (so_failing _ _ Hs i w Hl) as Hfailing.
    pose proof (so_list_failing _ _ Hs i w Hl) as Hlisting.
    pose proof Hs as Hs0.
    destruct Hs as [Hrange _ _ Hcomplete Hbf Hlfd Hclean Hfailed Hlfs Hll].
    assert (Hcd : uncounted (w_pc w) = true -> 0 <= chunksDone (shared s) < Z.of_nat n).
    { apply (uncounted_below n s i w Hinv Hl). }
    pose proof (countZ_bounds (fun w => about_to_cancel (w_pc w)) (workers s)) as Hatc.
    by_place Hstep Hcount Hstore Hnp; try congruence;
      rewrite ?Htot in *;
      cbn [uncounted in_epilogue failing list_failing] in *;
      first [ destruct (Hcu eq_refl) as (E1 & E3 & E4 & E5 & E6)
            | destruct (Hcl eq_refl) as (Hil & E1 & E2 & E3 & E4 & E5 & E6) ];
      clear Hcu Hcl;
      apply (StatusOk_replace s i w _ _ Hs0 Hl); clear Hs0;
      try (intros p Hp; unfold fail_logged in *; cbn; rewrite Hp; apply orb_true_r);
      unfold is_last, fail_logged, logged, Common.TransferFailed,
        Common.TransferComplete in *;
      cbn [status cancelled remote chunksDone existsb fst snd call set_remote
           set_status set_cancelled set_chunksDone set_transfersDone set_unmaps
           set_blockIds set_currentBytes TransferStatus TransferDone Unmap
           TransferCancelFunc updateCurrentBytes is_PutBlock is_PutBlockList
           w_pc w_observed at_pc with_observed with_blockId with_sawCancel
           andb orb b2z wrote_complete about_to_cancel list_failed clean_commit
           list_failing past_commit failing] in *;
      rewrite ?Hpc in *;
      rewrite ?E1, ?E2, ?E3, ?E4, ?E5, ?E6 in *;
      cbn [andb orb b2z wrote_complete about_to_cancel list_failed clean_commit
           list_failing past_commit failing] in *;
      rewrite ?andb_false_r, ?andb_true_r, ?orb_false_r, ?orb_true_r in *;
      repeat match goal with
        | H : (_ =? _) = true |- _ => rewrite H in *
        | H : (_ =? _) = false |- _ => rewrite H in *
        end;
      cbn [andb orb b2z] in *;
      try (specialize (Hunc eq_refl); rewrite Hunc in * );
      try (intuition (try lia; try congruence); fail).
    intros _. split; apply not_true_is_false; intros HX.
    + destruct (Hbf HX); [discriminate|lia].
    + specialize (Hlfd HX). lia.
Qed.

Lemma StatusOk_start s : all_scheduled n s -> StatusOk n s.
Proof.
  intros (Hlen & Hslots & Hws & Hcd & Hst & Hdone & Hun & Hrem & Hnp).
  unfold Common.TransferInProgress in Hst.
  split; unfold fail_logged, logged; rewrite ?Hrem, ?Hst; simpl; try discriminate;
    try lia; try tauto.
  - intros i w Hl Hf. destruct (Hws i w Hl) as (Hpc & _). rewrite Hpc in Hf. discriminate.
  - intros i w Hl Hf. destruct (Hws i w Hl) as (Hpc & _). rewrite Hpc in Hf. discriminate.
Qed.


End StatusFacts.

(** ** Workers: every reachable state *)

Section Reaching.

Import GoInt Ste.

Variable tape : nat -> list ascii.
Variable n : nat.
Hypothesis n_fits : Z.of_nat n <= max_uint32.

Lemma Reachable_start s : all_scheduled n s -> Reachable tape n s.
Proof.
  intros H. split.
  - apply CountOk_start, H.
  - destruct H as (Hlen & Hslots & Hws & Hcd & Hst & Hdone & Hun & Hrem & Hnp).
    split.
    + rewrite Hdone. simpl. symmetry. apply countZ_none. intros i w Hl.
      destruct (Hws i w Hl) as (Hpc & _). rewrite Hpc. apply andb_false_r.
    + intros who Hin. rewrite Hdone in Hin. destruct Hin.
  - apply IdsOk_start, H.
  - apply StatusOk_start, H.
Qed.

Lemma Reachable_step s e :
  Reachable tape n s -> Reachable tape n (sys_step worker_step tape s e).
Proof.
  intros [Hc Hd Hi Hs]. split.
  - apply CountOk_step; assumption.
  - apply DoneOk_step; assumption.
  - apply IdsOk_step; assumption.
  - apply StatusOk_step; assumption.
Qed.

Lemma Reachable_run sch : forall s,
  Reachable tape n s -> Reachable tape n (run worker_step tape sch s).
Proof.
  induction sch as [|e sch IH]; intros s Hr; simpl; [assumption|].
  apply IH, Reachable_step, Hr.
Qed.

Lemma run_snoc step sch e s :
  run step tape (sch ++ [e]) s = sys_step step tape (run step tape sch s) e.
Proof. unfold run. rewrite fold_left_app. reflexivity. Qed.

Lemma run_app step sch1 sch2 s :
  run step tape (sch1 ++ sch2) s = run step tape sch2 (run step tape sch1 s).
Proof. unfold run. apply fold_left_app. Qed.






(** When all closures have returned: the counter is the total, exactly one
    closure found it equal to the total, and that closure, no other, called
    [TransferDone], once. *)
Lemma finished_once s :
  Reachable tape n s -> (0 < n)%nat -> finished s ->
  chunksDone (shared s) = Z.of_nat n /\
  exists i w,
    workers s !! i = Some w /\ w_observed w = Z.of_nat n /\
    transfersDone (shared s) = [ByChunk (Z.of_nat i)] /\
    (forall j w', workers s !! j = Some w' -> w_observed w' = Z.of_nat n -> j = i).
Proof.
  intros [Hc Hd _ _] Hn Hfin.
  assert (Hcd : chunksDone (shared s) = Z.of_nat n).
  { rewrite (co_count _ _ Hc). rewrite <- (co_workers _ _ Hc).
    pose proof (countZ_bounds (fun w => negb (uncounted (w_pc w))) (workers s)) as Hb.
    assert (Hle : countZ (fun _ => true) (workers s)
                  <= countZ (fun w => negb (uncounted (w_pc w))) (workers s)).
    { apply countZ_le. intros i w Hl _. rewrite (Hfin i w Hl). reflexivity. }
    assert (Hall : countZ (fun _ => true) (workers s) = Z.of_nat (length (workers s))).
    { clear. induction (workers s) as [|x l IH]; simpl; [reflexivity|].
      rewrite IH. simpl. lia. }
    lia. }
  split; [assumption|].
  pose proof (co_observed _ _ Hc (Z.of_nat n) ltac:(lia)) as Hobs.
  rewrite Hcd, Z.leb_refl in Hobs. simpl in Hobs.
  destruct (countZ_exists (is_last (Z.of_nat n)) (workers s) ltac:(lia))
    as (i & w & Hl & Hw).
  apply Z.eqb_eq in Hw.
  exists i, w. split; [assumption|]. split; [assumption|].
  assert (Huniq : forall j w', workers s !! j = Some w' ->
                    w_observed w' = Z.of_nat n -> j = i).
  { intros j w' Hj Hw'. apply (last_unique n s j i w' w Hc Hn Hj Hl Hw' Hw). }
  split; [|assumption].
  assert (Hlen : length (transfersDone (shared s)) = 1%nat).
  { apply Nat2Z.inj. rewrite (do_count _ _ Hd).
    assert (Heq : countZ (fun w => is_last (Z.of_nat n) w && done_called (w_pc w)) (workers s)
                  = countZ (is_last (Z.of_nat n)) (workers s)).
    { apply Z.le_antisymm; apply countZ_le; intros j x Hj Hx.
      - apply andb_true_iff in Hx. tauto.
      - rewrite Hx, (Hfin j x Hj). reflexivity. }
    rewrite Heq, Hobs. reflexivity. }
  destruct (transfersDone (shared s)) as [|who [|? ?]] eqn:Htd; simpl in Hlen; try lia.
  destruct (do_by _ _ Hd who ltac:(rewrite Htd; left; reflexivity)) as (j & x & -> & Hj & Hx).
  rewrite (Huniq j x Hj Hx). reflexivity.
Qed.

(** At no time has [TransferDone] been called more than once. *)
Lemma done_at_most_once s :
  Reachable tape n s -> (length (transfersDone (shared s)) <= 1)%nat.
Proof.
  intros [Hc Hd _ _].
  destruct (Nat.eq_dec n 0%nat) as [->|Hn].
  - apply Nat2Z.inj_le. rewrite (do_count _ _ Hd).
    pose proof (countZ_bounds (fun w => is_last (Z.of_nat 0) w && done_called (w_pc w))
                  (workers s)) as Hb.
    rewrite (co_workers _ _ Hc) in Hb. lia.
  - apply Nat2Z.inj_le. rewrite (do_count _ _ Hd).
    assert (countZ (fun w => is_last (Z.of_nat n) w && done_called (w_pc w)) (workers s)
            <= countZ (is_last (Z.of_nat n)) (workers s)).
    { apply countZ_le. intros j x Hj Hx. apply andb_true_iff in Hx. tauto. }
    rewrite (co_observed _ _ Hc) in * by lia.
    pose proof (b2z_range (Z.of_nat n <=? chunksDone (shared s))). lia.
Qed.

End Reaching.

(** ** Workers: status and cancellation *)

Section StatusTheorems.

Import GoInt Ste.

Variable tape : nat -> list ascii.
Variable n : nat.
Hypothesis n_fits : Z.of_nat n <= max_uint32.

(** In the later closure a terminal status is never changed. *)
Lemma status_terminal_stable s e :
  Reachable tape n s ->
  Common.is_terminal (status (shared s)) = true ->
  status (shared (sys_step worker_step tape s e)) = status (shared s).
Proof.
  intros [Hinv _ _ Hs] Hterm.
  destruct (sys_step_cases tape worker_step s e)
    as [-> | [[_ ->] | (i & fails & w & st' & w' & _ & Hnp & Hl & Hend & Hstep & ->)]];
    try reflexivity.
  destruct (step_normal n n_fits s i w Hinv Hl) as (Hcount & Hstore & Hi).
  destruct (status_counts n s i w Hinv Hl) as [Hcu Hcl].
  pose proof (so_complete _ _ Hs) as Hcomplete.
  pose proof (so_failed _ _ Hs) as Hfailed.
  pose proof (so_clean _ _ Hs) as Hclean.
  unfold Common.is_terminal, Common.TransferComplete, Common.TransferFailed in Hterm.
  apply orb_true_iff in Hterm. rewrite !Z.eqb_eq in Hterm.
  by_place Hstep Hcount Hstore Hnp; try reflexivity; cbn [shared status set_status TransferStatus];
    unfold Common.TransferFailed, Common.TransferComplete;
    cbn [uncounted in_epilogue] in Hcu, Hcl.
  - (* a failed put-block writes Failed *)
    destruct (Hcu eq_refl) as (E1 & _). rewrite E1 in Hcomplete. lia.
  - (* a failed commit writes Failed *)
    destruct (Hcl eq_refl) as (_ & E1 & _). rewrite E1 in Hcomplete. simpl in Hcomplete. lia.
  - (* the commit went through: Complete is written *)
    destruct (Hcl eq_refl) as (_ & _ & _ & _ & E4 & _). rewrite E4 in Hclean.
    destruct (Hclean ltac:(simpl; lia)) as [Hb Hlst].
    destruct Hterm as [Ht|Ht]; [lia|]. destruct (Hfailed Ht); congruence.
Qed.

(** In the later closure a failed commit leaves the transfer Failed. *)
Lemma list_failure_fails_transfer s :
  Reachable tape n s -> finished s ->
  fail_logged is_PutBlockList (shared s) = true ->
  status (shared s) = Common.TransferFailed.
Proof.
  intros [Hinv _ _ Hs] Hfin Hlog.
  destruct (so_list_failed_status _ _ Hs Hlog) as [H|H]; [exact H|].
  rewrite countZ_none in H; [lia|].
  intros i w Hl. rewrite (Hfin i w Hl). reflexivity.
Qed.

End StatusTheorems.

Section CancelTheorems.

Import GoInt Ste.

Variable tape : nat -> list ascii.
Variable n : nat.
Hypothesis n_fits : Z.of_nat n <= max_uint32.





End CancelTheorems.

(** ** Block ids *)

Section BlockIdFacts.

Import BlockId.

(** Induction on strings three characters at a time. *)
Lemma string_ind3 (P : string -> Prop) :
  P EmptyString ->
  (forall a, P (String a EmptyString)) ->
  (forall a b, P (String a (String b EmptyString))) ->
  (forall a b c s, P s -> P (String a (String b (String c s)))) ->
  forall s, P s.
Proof.
  intros H0 H1 H2 H3.
  assert (H : forall s, P s /\ (forall a, P (String a s)) /\
                        (forall a b, P (String a (String b s)))).
  { induction s as [|c s (IH0 & IH1 & IH2)].
    - auto.
    - split; [apply IH1|]. split; [intros a; apply IH2|].
      intros a b. apply H3. assumption. }
  intros s. apply H.
Qed.

Lemma b64_val_char x : b64_val (b64_char x) = Some x.
Proof. destruct x as [[] [] [] [] [] []]; reflexivity. Qed.

Lemma b64_char_not_pad x : Ascii.eqb (b64_char x) pad = false.
Proof. destruct x as [[] [] [] [] [] []]; reflexivity. Qed.

Lemma pad_is_pad : Ascii.eqb pad pad = true.
Proof. reflexivity. Qed.

(** Decoding undoes encoding, so the encoding loses nothing. *)
Lemma DecodeString_EncodeToString src :
  DecodeString (EncodeToString src) = Some src.
Proof.
  induction src as [|a|a b|a b c s IH] using string_ind3.
  - reflexivity.
  - destruct a as [a0 a1 a2 a3 a4 a5 a6 a7].
    cbn [EncodeToString encode1 DecodeString].
    rewrite !b64_val_char, pad_is_pad. reflexivity.
  - destruct a as [a0 a1 a2 a3 a4 a5 a6 a7], b as [b0 b1 b2 b3 b4 b5 b6 b7].
    cbn [EncodeToString encode2 DecodeString].
    rewrite !b64_val_char, b64_char_not_pad, pad_is_pad. reflexivity.
  - destruct a as [a0 a1 a2 a3 a4 a5 a6 a7], b as [b0 b1 b2 b3 b4 b5 b6 b7],
             c as [c0 c1 c2 c3 c4 c5 c6 c7].
    change (EncodeToString (String (Ascii a0 a1 a2 a3 a4 a5 a6 a7)
              (String (Ascii b0 b1 b2 b3 b4 b5 b6 b7)
                (String (Ascii c0 c1 c2 c3 c4 c5 c6 c7) s))))
      with (encode3 (Ascii a0 a1 a2 a3 a4 a5 a6 a7) (Ascii b0 b1 b2 b3 b4 b5 b6 b7)
              (Ascii c0 c1 c2 c3 c4 c5 c6 c7) (EncodeToString s)).
    cbn [encode3 DecodeString].
    rewrite !b64_val_char, !b64_char_not_pad, IH. reflexivity.
Qed.

Lemma EncodeToString_inj a b : EncodeToString a = EncodeToString b -> a = b.
Proof.
  intros H. apply (f_equal DecodeString) in H.
  rewrite !DecodeString_EncodeToString in H. congruence.
Qed.

(** Four characters for every three bytes, the last group padded. *)
Lemma EncodeToString_length src :
  String.length (EncodeToString src) = (4 * ((String.length src + 2) / 3))%nat.
Proof.
  induction src as [|a|a b|a b c s IH] using string_ind3.
  - reflexivity.
  - destruct a. reflexivity.
  - destruct a, b. reflexivity.
  - destruct a as [a0 a1 a2 a3 a4 a5 a6 a7], b as [b0 b1 b2 b3 b4 b5 b6 b7],
             c as [c0 c1 c2 c3 c4 c5 c6 c7].
    change (EncodeToString (String (Ascii a0 a1 a2 a3 a4 a5 a6 a7)
              (String (Ascii b0 b1 b2 b3 b4 b5 b6 b7)
                (String (Ascii c0 c1 c2 c3 c4 c5 c6 c7) s))))
      with (encode3 (Ascii a0 a1 a2 a3 a4 a5 a6 a7) (Ascii b0 b1 b2 b3 b4 b5 b6 b7)
              (Ascii c0 c1 c2 c3 c4 c5 c6 c7) (EncodeToString s)).
    cbn [encode3 String.length]. rewrite IH.
    replace (S (S (S (String.length s))) + 2)%nat
      with (1 * 3 + (String.length s + 2))%nat by lia.
    rewrite Nat.div_add_l by lia. lia.
Qed.

Lemma unhex_hex_byte a rest bs :
  unhex_string rest = Some bs ->
  unhex_string (String (hex_digit (N_of_ascii a / 16))
                  (String (hex_digit (N_of_ascii a mod 16)) rest))
  = Some (a :: bs).
Proof.
  intros H. cbn [unhex_string]. rewrite H.
  destruct a as [[] [] [] [] [] [] [] []]; reflexivity.
Qed.

Lemma unhex_hex_string bs : unhex_string (hex_string bs) = Some bs.
Proof.
  induction bs as [|b bs IH]; [reflexivity|].
  cbn [hex_string]. apply unhex_hex_byte, IH.
Qed.

Lemma hex_string_inj a b : hex_string a = hex_string b -> a = b.
Proof.
  intros H. apply (f_equal unhex_string) in H.
  rewrite !unhex_hex_string in H. congruence.
Qed.

Lemma hex_string_length bs :
  String.length (hex_string bs) = (2 * length bs)%nat.
Proof. induction bs as [|b bs IH]; simpl; [reflexivity|]. rewrite IH. lia. Qed.

Lemma uuid_bytes_length rnd : length (uuid_bytes rnd) = length rnd.
Proof. unfold uuid_bytes. rewrite !length_insert. reflexivity. Qed.

(** The block id of a closure that read its sixteen random bytes: the base64
    text, 44 characters, of the 32 hexadecimal digits of its UUID. *)
Lemma encodedBlockId_full rnd :
  length rnd = 16%nat ->
  encodedBlockId rnd = EncodeToString (hex_string (uuid_bytes rnd)) /\
  String.length (hex_string (uuid_bytes rnd)) = 32%nat /\
  String.length (encodedBlockId rnd) = 44%nat.
Proof.
  intros H. unfold encodedBlockId, newUUID. rewrite H. simpl negb. cbn [fst].
  rewrite EncodeToString_length, hex_string_length, uuid_bytes_length, H.
  repeat split; reflexivity.
Qed.

(** Different UUIDs give different block ids. *)
Lemma encodedBlockId_inj r1 r2 :
  length r1 = 16%nat -> length r2 = 16%nat ->
  encodedBlockId r1 = encodedBlockId r2 -> uuid_bytes r1 = uuid_bytes r2.
Proof.
  intros H1 H2 H.
  rewrite (proj1 (encodedBlockId_full r1 H1)), (proj1 (encodedBlockId_full r2 H2)) in H.
  apply hex_string_inj, EncodeToString_inj, H.
Qed.

(** The base64 text of sixteen bytes has 24 characters. *)
Lemma base64_of_16_bytes v :
  String.length v = 16%nat -> String.length (EncodeToString v) = 24%nat.
Proof. intros H. rewrite EncodeToString_length, H. reflexivity. Qed.

End BlockIdFacts.

(** ** The chunk closures *)

Section SlotFacts.

Import GoInt Ste.

Variable tape : nat -> list ascii.
Variable n : nat.
Hypothesis n_fits : Z.of_nat n <= max_uint32.

(** A step of the closure of chunk [i] leaves the other slots alone. *)
Lemma own_slot_only s i fails j :
  CountOk n s -> j <> i ->
  blockIds (shared (sys_step worker_step tape s (ERun i fails))) !! j
  = blockIds (shared s) !! j.
Proof.
  intros Hc Hne.
  destruct (sys_step_cases tape worker_step s (ERun i fails))
    as [-> | [[Habs _] | (i' & fails' & w & st' & w' & Heq & Hnp & Hl & Hend & Hstep & ->)]];
    [reflexivity|discriminate|].
  injection Heq as <- <-.
  destruct (step_normal n n_fits s i w Hc Hl) as (Hcount & Hstore & Hi).
  by_place Hstep Hcount Hstore Hnp; cbn; try reflexivity.
  apply list_lookup_insert_ne. congruence.
Qed.

Lemma own_slot_onlyV0 s i fails j :
  EarlierOk tape n s -> j <> i ->
  blockIds (shared (sys_step worker_stepV0 tape s (ERun i fails))) !! j
  = blockIds (shared s) !! j.
Proof.
  intros Hinv Hne.
  destruct (sys_step_cases tape worker_stepV0 s (ERun i fails))
    as [-> | [[Habs _] | (i' & fails' & w & st' & w' & Heq & Hnp & Hl & Hend & Hstep & ->)]];
    [reflexivity|discriminate|].
  injection Heq as <- <-.
  assert (Hi : (i < n)%nat).
  { rewrite <- (eo_workers _ _ _ Hinv). eapply lookup_lt_Some. eassumption. }
  destruct (eo_id _ _ _ Hinv i w Hl) as [Hid _].
  pose proof (eo_slots _ _ _ Hinv) as Hslots.
  pose proof (eo_uncounted _ _ _ Hinv i w Hl) as Hunc.
  assert (Hcount : uncountedV0 (w_pc w) = true ->
    ChunksDone (shared s)
    = (set_chunksDone (chunksDone (shared s) + 1) (shared s), chunksDone (shared s) + 1)).
  { intros Hu. apply ChunksDone_small.
    pose proof (uncountedV0_below tape n s i w Hinv Hl (Hunc Hu)). lia. }
  assert (Hstore : forall id, store_blockId (chunkId (w_msg w)) id (shared s)
                     = set_blockIds (<[i := id]> (blockIds (shared s))) (shared s)).
  { intros id. rewrite Hid. apply store_blockId_in_range. lia. }
  by_placeV0 Hstep Hcount Hstore Hnp; cbn; try reflexivity.
  apply list_lookup_insert_ne. congruence.
Qed.

End SlotFacts.

Section ClosureTheorems.

Import GoInt Ste.

Variable tape : nat -> list ascii.
Variable n : nat.




(** C6, as the closures have it, the later and the earlier one alike: a
    block list put by the last closure holds [n] ids, the i-th being the id
    that the closure of chunk [i] computed; if that closure read its sixteen
    random bytes, the id is the base64 text (44 characters) of the 32
    hexadecimal digits of its UUID; the ids are pairwise distinct if the
    UUIDs are; and a step of the closure of chunk [i] changes no slot of the
    block id slice but slot [i]. *)
Theorem block_list_holds_all_ids step s0 sch ids failed :
  step = worker_step \/ step = worker_stepV0 ->
  Z.of_nat n <= max_uint32 ->
  all_scheduled n s0 ->
  In (OpPutBlockList ids, failed) (remote (shared (run step tape sch s0))) ->
  length ids = n /\
  (forall i, (i < n)%nat -> ids !! i = Some (BlockId.encodedBlockId (tape i))) /\
  (forall i, (i < n)%nat -> length (tape i) = 16%nat ->
     BlockId.encodedBlockId (tape i)
     = BlockId.EncodeToString (BlockId.hex_string (BlockId.uuid_bytes (tape i))) /\
     String.length (BlockId.hex_string (BlockId.uuid_bytes (tape i))) = 32%nat /\
     String.length (BlockId.encodedBlockId (tape i)) = 44%nat) /\
  ((forall i, (i < n)%nat -> length (tape i) = 16%nat) ->
   (forall i j, (i < n)%nat -> (j < n)%nat -> i <> j ->
      BlockId.uuid_bytes (tape i) <> BlockId.uuid_bytes (tape j)) ->
   NoDup ids) /\
  (forall i fails j, j <> i ->
     blockIds (shared (sys_step step tape (run step tape sch s0) (ERun i fails))) !! j
     = blockIds (shared (run step tape sch s0)) !! j).
Proof.
  intros Hwhich n_fits Hstart Hin.
  assert (Hboth :
    ids = map (fun i => BlockId.encodedBlockId (tape i)) (seq 0 n) /\
    forall i fails j, j <> i ->
      blockIds (shared (sys_step step tape (run step tape sch s0) (ERun i fails))) !! j
      = blockIds (shared (run step tape sch s0)) !! j).
  { destruct Hwhich as [-> | ->].
    - pose proof (Reachable_run tape n n_fits sch s0 (Reachable_start tape n s0 Hstart)) as Hr.
      split; [apply (io_logged _ _ _ (r_ids _ _ _ Hr) ids failed Hin)|].
      intros i fails j Hne. apply (own_slot_only tape n n_fits); [|assumption].
      apply (r_count _ _ _ Hr).
    - pose proof (EarlierOk_run tape n n_fits sch s0 (EarlierOk_start tape n s0 Hstart)) as Hr.
      split; [apply (eo_logged _ _ _ Hr ids failed Hin)|].
      intros i fails j Hne. apply (own_slot_onlyV0 tape n n_fits); assumption. }
  destruct Hboth as [Hids Hslot].
  split; [rewrite Hids, length_map, length_seq; reflexivity|].
  split.
  { intros i Hi. rewrite Hids, list_lookup_fmap, lookup_seq_lt by assumption. reflexivity. }
  split; [intros i _ Hlen; apply encodedBlockId_full, Hlen|].
  split; [|exact Hslot].
  intros Hlen Hdiff. rewrite Hids.
  apply NoDup_fmap_2_strong; [|apply NoDup_seq].
  intros i j Hi Hj Heq.
  apply elem_of_seq in Hi. apply elem_of_seq in Hj.
  destruct (decide (i = j)) as [|Hne]; [assumption|]. exfalso.
  apply (Hdiff i j); try lia.
  apply encodedBlockId_inj; try apply Hlen; try lia. assumption.
Qed.

End ClosureTheorems.

Section ClosureExamples.

Import GoInt Ste.

Lemma two_chunks_scheduled : all_scheduled 2 (start two_chunks two_slots).
Proof.
  repeat split; try reflexivity.
  all: destruct i as [|[|i]]; simpl in H; inversion H; reflexivity.
Qed.

Lemma in_turn_turns f0 f1 i : (i < 2)%nat -> (11 <= turns i (in_turn f0 f1))%nat.
Proof. intros Hi. destruct i as [|[|i]]; [vm_compute; lia|vm_compute; lia|lia]. Qed.


End ClosureExamples.




(** C6 at two chunks, uploaded without failure: the block list holds two
    ids of 44 characters; the base64 text of a 16-byte value has 24. *)
Lemma block_id_is_not_base64_of_16_bytes :
  let s := Ste.run Ste.worker_step Ste.sample_tape (Ste.in_turn false false)
             (Ste.start Ste.two_chunks Ste.two_slots) in
  Ste.status (Ste.shared s) = Common.TransferComplete /\
  exists ids id,
    In (Ste.OpPutBlockList ids, false) (Ste.remote (Ste.shared s)) /\
    ids !! 0%nat = Some id /\
    id = BlockId.EncodeToString "00000000000040008000000000000000" /\
    String.length id = 44%nat /\
    ~ (exists v : string, String.length v = 16%nat /\ id = BlockId.EncodeToString v).
Proof.
  cbv zeta. split; [vm_compute; reflexivity|].
  eexists _, _. split; [vm_compute; left; reflexivity|].
  split; [reflexivity|]. split; [vm_compute; reflexivity|].
  split; [vm_compute; reflexivity|].
  intros (v & Hv & Heq). apply (f_equal String.length) in Heq.
  rewrite (base64_of_16_bytes v Hv) in Heq. vm_compute in Heq. discriminate.
Qed.

(** The same upload: the block list put at the end holds the three ids, all
    different. *)
Lemma block_list_holds_all_ids_witness :
  exists ids,
    In (Ste.OpPutBlockList ids, false)
       (Ste.remote (Ste.shared (Ste.run Ste.worker_step Ste.sample_tape Ste.three_in_turn
                                  Ste.ten_MiB_upload))) /\
    length ids = 3%nat /\ NoDup ids.
Proof.
  eexists. split; [vm_compute; left; reflexivity|].
  edestruct (block_list_holds_all_ids Ste.sample_tape 3 Ste.worker_step
              Ste.ten_MiB_upload Ste.three_in_turn)
    as (Hlen & _ & _ & Hnodup & _).
  - left. reflexivity.
  - vm_compute. discriminate.
  - exact ten_MiB_scheduled.
  - vm_compute. left. reflexivity.
  - split; [exact Hlen|]. apply Hnodup.
    + intros i Hi. destruct i as [|[|[|i]]]; [reflexivity|reflexivity|reflexivity|lia].
    + intros i j Hi Hj Hne.
      destruct i as [|[|[|i]]], j as [|[|[|j]]]; try lia; vm_compute; discriminate.
Defined.

(** C4 at one chunk whose put-block succeeds and whose commit fails, in the
    earlier closure: the failure sets the status to Failed, which is terminal,
    and the next step of the same closure overwrites it with Complete, the
    status the transfer ends with.  The later closure, on the same input,
    returns after it has recorded Failed. *)
Theorem epilogue_failure_overwritten_by_complete :
  let failed := Ste.run Ste.worker_stepV0 Ste.sample_tape (Ste.commit_fails 6 1)
                  (Ste.start Ste.one_chunk Ste.one_slot) in
  let ended := Ste.run Ste.worker_stepV0 Ste.sample_tape (Ste.commit_fails 6 5)
                 (Ste.start Ste.one_chunk Ste.one_slot) in
  let later := Ste.run Ste.worker_step Ste.sample_tape (Ste.commit_fails 7 5)
                 (Ste.start Ste.one_chunk Ste.one_slot) in
  Ste.fail_logged Ste.is_PutBlockList (Ste.shared failed) = true /\
  Ste.status (Ste.shared failed) = Common.TransferStatusFailed /\
  Ste.status
    (Ste.shared (Ste.sys_step Ste.worker_stepV0 Ste.sample_tape failed (Ste.ERun 0 false)))
  = Common.TransferStatusComplete /\
  Ste.finishedb ended = true /\
  Ste.fail_logged Ste.is_PutBlockList (Ste.shared ended) = true /\
  Ste.status (Ste.shared ended) = Common.TransferStatusComplete /\
  Ste.finishedb later = true /\
  Ste.fail_logged Ste.is_PutBlockList (Ste.shared later) = true /\
  Ste.status (Ste.shared later) = Common.TransferFailed.
Proof. cbv zeta. repeat split; vm_compute; reflexivity. Qed.

(** The earlier closure returns from a failed put-block before it counts: the
    counter then stays below the total and no closure runs the epilogue. *)
Lemma earlier_closure_failure_not_counted :
  let s := Ste.run Ste.worker_stepV0 Ste.sample_tape (Ste.in_turn true false)
             (Ste.start Ste.two_chunks Ste.two_slots) in
  Ste.finishedb s = true /\
  Ste.chunksDone (Ste.shared s) = 1 /\
  Ste.logged Ste.is_PutBlockList (Ste.shared s) = false /\
  Ste.unmaps (Ste.shared s) = [].
Proof. cbv zeta. repeat split; vm_compute; reflexivity. Qed.

(** ** anyToRemote on an empty file *)

Section SenderFacts.

Import GoInt Sender.

(** The chunk loop on an empty source: one turn, one chunk of no bytes. *)
Lemma schedule_loop_empty fuel e j :
  0 < ChunkSize e <= max_uint32 ->
  schedule_loop (S fuel) e 0 0 0 j
  = Some (ScheduleChunks
            {| OffsetInFile := 0; index := 0; chunkLength := 0;
               isWholeFile := (NumChunks e =? 1); fromLocal := IsLocal e |}
            (Prologue j), 1).
Proof.
  intros Hcs. unfold max_uint32 in Hcs.
  cbn [schedule_loop]. change (0 <? 0) with false.
  change (isDummyChunkInEmptyFile 0 0) with true. cbn [orb].
  change (0 + ChunkSize e) with (ChunkSize e).
  rewrite (to_int64_id (ChunkSize e)) by (unfold max_int64; lia).
  destruct (Z.gtb_spec (ChunkSize e) 0) as [_|]; [|lia].
  change (0 =? 0) with true. cbv iota.
  change (to_int64 (0 - 0)) with 0. change (to_int32 (0 + 1)) with 1.
  destruct fuel; cbn [schedule_loop];
    (destruct (Z.ltb_spec (ChunkSize e) 0); [lia|]);
    unfold isDummyChunkInEmptyFile;
    (destruct (Z.eqb_spec (ChunkSize e) 0); [lia|]); reflexivity.
Qed.

(** C7: for an empty source, with a sender that reports a positive chunk
    size and one chunk, [anyToRemote] never panics; if nothing ends the
    transfer before the chunks are scheduled, it schedules exactly one chunk,
    the dummy chunk of no bytes at offset 0, marked as the whole file, after
    one run of the sender's prologue, so the count of scheduled chunks is the
    sender's [NumChunks]; the chunk function then puts the empty blob in one
    call and the action after the last chunk, the epilogue, runs once and
    reports the transfer done. *)
Theorem empty_file_one_dummy_chunk e j fuel :
  0 < ChunkSize e <= max_uint32 ->
  NumChunks e = getNumChunks 0 (ChunkSize e) ->
  (1 <= fuel)%nat ->
  (exists r, anyToRemote fuel 0 e j = Some (Ret r)) /\
  (WasCanceled e = false -> sipfFails e = false -> senderFactoryFails e = false ->
   IsForceWriteTrue e = true \/ (existenceErr e = false /\ remoteExists e = false) ->
   IsLocal e = false \/ openFails e = false ->
   exists r,
     anyToRemote fuel 0 e j = Some (Ret r) /\
     j_scheduled r = j_scheduled j ++ [dummy_chunk (IsLocal e)] /\
     j_numberOfChunks r = Some (NumChunks e) /\
     NumChunks e = 1 /\
     j_prologues r = S (j_prologues j) /\
     j_actionAfterLastChunk r = true /\
     (j = started ->
      exists sent,
        run_chunks r = Ret sent /\
        ops sent = [SPutBlob 0] /\
        Sender.chunksDone sent = 1 /\
        epilogues sent = 1%nat /\
        j_status (after sent) = ESuccess /\
        j_reportedDone (after sent) = 1%nat)).
Proof.
  intros Hcs Hnum Hfuel.
  change (getNumChunks 0 (ChunkSize e)) with 1 in Hnum.
  destruct fuel as [|fuel]; [lia|].
  assert (Hrun : forall j0,
    match schedule_loop (S fuel) e 0 0 0 j0 with
    | Some (j', chunkIDCount) =>
        if negb (chunkIDCount =? to_int32 (NumChunks e))
        then Some (Panic "difference in the number of chunk calculated and actual chunks scheduled")
        else Some (Ret j')
    | None => None
    end
    = Some (Ret (ScheduleChunks (dummy_chunk (IsLocal e)) (Prologue j0)))).
  { intros j0. rewrite (schedule_loop_empty fuel e j0 Hcs), Hnum. reflexivity. }
  split.
  - unfold anyToRemote, fail_transfer. rewrite Hnum. change (1 =? 0) with false.
    cbv iota. rewrite <- Hnum. rewrite Hrun.
    repeat (match goal with |- context [if ?c then _ else _] => destruct c end;
            try (eexists; reflexivity)).
  - intros H1 H2 H3 H4 H5.
    eexists. split.
    + unfold anyToRemote. rewrite H1, H2, H3, Hnum. change (1 =? 0) with false.
      cbv iota.
      assert (Hf : negb (IsForceWriteTrue e) && existenceErr e = false)
        by (destruct H4 as [->|[-> _]]; [reflexivity|apply andb_false_r]).
      assert (Hx : negb (IsForceWriteTrue e) && remoteExists e = false)
        by (destruct H4 as [->|[_ ->]]; [reflexivity|apply andb_false_r]).
      assert (Ho : IsLocal e && openFails e = false)
        by (destruct H5 as [->| ->]; [reflexivity|apply andb_false_r]).
      rewrite Hf, Hx, Ho. rewrite <- Hnum. apply Hrun.
    + cbn. rewrite Hnum. repeat split; try reflexivity.
      intros ->. eexists. split; [reflexivity|]. repeat split; reflexivity.
Qed.

End SenderFacts.

(** An empty local file with chunks of four MiB. *)
Lemma empty_file_one_dummy_chunk_witness :
  exists r,
    Sender.anyToRemote 1 0 Sender.empty_upload Sender.started = Some (Ret r) /\
    Sender.j_scheduled r = [Sender.dummy_chunk true].
Proof.
  destruct (empty_file_one_dummy_chunk Sender.empty_upload Sender.started 1)
    as [_ Hone].
  - vm_compute. split; [reflexivity|discriminate].
  - reflexivity.
  - lia.
  - destruct Hone as (r & Hrun & Hsched & _); try reflexivity.
    + left. reflexivity.
    + right. reflexivity.
    + exists r. split; [exact Hrun | exact Hsched].
Defined.

(** ** The later transfer status and its names *)

Section TransferStatusNames.

Import Common TransferStatus.

(** X1: the name of a status is read back as that status exactly for Complete,
    Failed and Any: the name of InProgress is "InProgress", which the way back
    does not know (it knows "TransferInProgress"), and every other code is
    named "InvalidStatusCode"; for these the way back panics.  In the other
    direction every accepted string but "TransferInProgress" is the name of
    its code. *)
Theorem status_name_round_trip :
  (forall c,
     TransferStatusStringToCode (String_ c) = Ret c <->
     c = TransferComplete \/ c = TransferFailed \/ c = TransferAny) /\
  (forall c,
     ~ (c = TransferComplete \/ c = TransferFailed \/ c = TransferAny) ->
     panics (TransferStatusStringToCode (String_ c)) = true) /\
  (forall s c,
     TransferStatusStringToCode s = Ret c ->
     (s <> "TransferInProgress"%string -> String_ c = s) /\
     (s = "TransferInProgress"%string -> c = TransferInProgress /\
                                         String_ c = "InProgress"%string)).
Proof.
  assert (Hcases : forall c,
    (c = 0 /\ String_ c = "InProgress"%string) \/
    (c = 1 /\ String_ c = "TransferComplete"%string) \/
    (c = 2 /\ String_ c = "TransferFailed"%string) \/
    (c = 254 /\ String_ c = "TransferAny"%string) \/
    (c <> 0 /\ c <> 1 /\ c <> 2 /\ c <> 254 /\ String_ c = "InvalidStatusCode"%string)).
  { intros c. unfold String_, TransferInProgress, TransferComplete, TransferFailed,
      TransferAny.
    destruct (Z.eqb_spec c 0); [auto|].
    destruct (Z.eqb_spec c 1); [auto|].
    destruct (Z.eqb_spec c 2); [auto|].
    destruct (Z.eqb_spec c 254); [auto 6|]. auto 10. }
  unfold TransferComplete, TransferFailed, TransferAny, TransferInProgress.
  split; [|split].
  - intros c.
    destruct (Hcases c) as [[-> E]|[[-> E]|[[-> E]|[[-> E]|(H0 & H1 & H2 & H3 & E)]]]];
      rewrite E; cbn; split; intros H; try reflexivity; try discriminate; try lia; auto.
  - intros c Hn.
    destruct (Hcases c) as [[-> E]|[[-> E]|[[-> E]|[[-> E]|(H0 & H1 & H2 & H3 & E)]]]];
      rewrite E; try reflexivity; exfalso; apply Hn; auto.
  - intros s c. unfold TransferStatusStringToCode,
      TransferComplete, TransferFailed, TransferAny, TransferInProgress.
    destruct (String.eqb_spec s "TransferInProgress") as [->|H0].
    { intros [= <-]. split; [congruence|]. intros _. split; reflexivity. }
    destruct (String.eqb_spec s "TransferComplete") as [->|H1].
    { intros [= <-]. split; [reflexivity|discriminate]. }
    destruct (String.eqb_spec s "TransferFailed") as [->|H2].
    { intros [= <-]. split; [reflexivity|discriminate]. }
    destruct (String.eqb_spec s "TransferAny") as [->|H3].
    { intros [= <-]. split; [reflexivity|discriminate]. }
    discriminate.
Qed.

End TransferStatusNames.

(** ** The text of a UUID *)

Section UuidText.

Import BlockId.

Lemma hex_digit_in (n : N) : (n < 16)%N -> In (hex_digit n) hex_digits.
Proof.
  intros H. unfold hex_digit. apply nth_In.
  change (length hex_digits) with 16%nat. lia.
Qed.

Lemma hex_string_digits bs c :
  In c (list_ascii_of_string (hex_string bs)) -> In c hex_digits.
Proof.
  induction bs as [|b bs IH]; simpl; [tauto|].
  intros [<-|[<-|H]].
  - apply hex_digit_in. apply N.Div0.div_lt_upper_bound.
    pose proof (N_ascii_bounded b). lia.
  - apply hex_digit_in. apply N.mod_lt. discriminate.
  - apply IH, H.
Qed.

(** The version nibble: whatever the byte, its high digit becomes 4. *)
Lemma version_digit b :
  hex_digit (N_of_ascii (and_not_or b 0xf0 0x40) / 16) = "4"%char.
Proof. destruct b as [[] [] [] [] [] [] [] []]; reflexivity. Qed.

(** The variant bits: the high digit becomes 8, 9, a or b. *)
Lemma variant_digit b :
  In (hex_digit (N_of_ascii (and_not_or b 0xc0 0x80) / 16))
     ["8"%char; "9"%char; "a"%char; "b"%char].
Proof. destruct b as [[] [] [] [] [] [] [] []]; simpl; auto. Qed.

(** The low digit of both bytes is the one drawn. *)
Lemma version_low_digit b :
  (N_of_ascii (and_not_or b 0xf0 0x40) mod 16 = N_of_ascii b mod 16)%N.
Proof. destruct b as [[] [] [] [] [] [] [] []]; reflexivity. Qed.

Lemma variant_low_digit b :
  (N_of_ascii (and_not_or b 0xc0 0x80) mod 16 = N_of_ascii b mod 16)%N.
Proof. destruct b as [[] [] [] [] [] [] [] []]; reflexivity. Qed.

(** X2: [newUUID] on sixteen random bytes returns no error and a text of 32
    lower-case hexadecimal digits whose digit 12 is the version, 4, and whose
    digit 16 is the variant, one of 8, 9, a, b; all other digits are those of
    the random bytes.  On a short read it returns the empty text and an
    error. *)
Theorem newUUID_text rnd :
  (length rnd = 16%nat ->
   snd (newUUID rnd) = false /\
   String.length (fst (newUUID rnd)) = 32%nat /\
   (forall c, In c (list_ascii_of_string (fst (newUUID rnd))) -> In c hex_digits) /\
   String.get 12 (fst (newUUID rnd)) = Some "4"%char /\
   (exists v, String.get 16 (fst (newUUID rnd)) = Some v /\
              In v ["8"%char; "9"%char; "a"%char; "b"%char]) /\
   (forall i, (i < 32)%nat -> i <> 12%nat -> i <> 16%nat ->
      String.get i (fst (newUUID rnd)) = String.get i (hex_string rnd))) /\
  (length rnd <> 16%nat -> newUUID rnd = (EmptyString, true)).
Proof.
  split.
  - intros Hlen.
    destruct (encodedBlockId_full rnd Hlen) as (_ & H32 & _).
    unfold newUUID. rewrite Hlen. cbn [negb Nat.eqb fst snd].
    split; [reflexivity|]. split; [assumption|].
    split; [intros c; apply hex_string_digits|].
    do 16 (destruct rnd as [|? rnd]; [discriminate|]).
    destruct rnd; [|discriminate].
    unfold uuid_bytes. cbn [nth list_insert insert hex_string String.get].
    split; [|split].
    + cbn. f_equal. apply version_digit.
    + eexists. split; [cbn; reflexivity|]. apply variant_digit.
    + intros i Hi H12 H16.
      do 32 (destruct i as [|i];
               [cbn; rewrite ?version_low_digit, ?variant_low_digit;
                first [reflexivity | congruence]|]).
      lia.
  - intros Hlen. unfold newUUID.
    destruct (Nat.eqb_spec (length rnd) 16); [contradiction|reflexivity].
Qed.

End UuidText.

Lemma newUUID_text_witness :
  String.get 12 (fst (BlockId.newUUID (Ste.sample_tape 7))) = Some "4"%char.
Proof.
  destruct (newUUID_text (Ste.sample_tape 7)) as [H _].
  destruct H as (_ & _ & _ & H12 & _); [reflexivity|exact H12].
Defined.

(** ** anyToRemote: what it schedules and what it reports *)

Ltac early H :=
  injection H as <-; left; cbn;
  repeat split;
  first [reflexivity | discriminate | (left; reflexivity) | (right; reflexivity)].

Section AnyToRemoteFacts.

Import GoInt Sender SenderChunks.

(** The chunk loop touches nothing of the transfer but the chunks scheduled
    and the count of prologues run. *)
Lemma schedule_loop_frame fuel e srcSize : forall startIndex c j j' c',
  schedule_loop fuel e srcSize startIndex c j = Some (j', c') ->
  j_status j' = j_status j /\
  j_reportedDone j' = j_reportedDone j /\
  j_numberOfChunks j' = j_numberOfChunks j /\
  j_actionAfterLastChunk j' = j_actionAfterLastChunk j /\
  exists new, j_scheduled j' = j_scheduled j ++ new /\
              (new = [] -> c' = c).
Proof.
  induction fuel as [|fuel IH]; intros startIndex c j j' c' H; cbn [schedule_loop] in H.
  - destruct (_ || _); [discriminate|]. injection H as <- <-.
    repeat split; try reflexivity. exists []. rewrite app_nil_r. auto.
  - destruct (_ || _).
    + apply IH in H as (H1 & H2 & H3 & H4 & new & H5 & _).
      destruct (startIndex =? 0); cbn in *;
        (repeat split; try assumption;
         eexists; split; [rewrite H5, <- app_assoc; reflexivity|];
         intros Habs; destruct new; discriminate).
    + injection H as <- <-.
      repeat split; try reflexivity. exists []. rewrite app_nil_r. auto.
Qed.

(** X3: [anyToRemote] either ends the transfer before the chunk loop, and then
    it reports the transfer done exactly once, with the status as it was (a
    cancelled transfer) or a failure, nothing scheduled and nothing told to
    the transfer manager; or it schedules chunks, at least one, and then it
    leaves the status and the done report alone: the report is left to the
    action after the last chunk, which it has set together with the number of
    chunks. *)
Theorem anyToRemote_reports_or_schedules fuel srcSize e j r :
  0 <= NumChunks e <= max_uint32 ->
  anyToRemote fuel srcSize e j = Some (Ret r) ->
  (passes_checks e = false /\
   j_reportedDone r = S (j_reportedDone j) /\
   (j_status r = j_status j \/ j_status r < 0) /\
   (WasCanceled e = true -> j_status r = j_status j) /\
   j_scheduled r = j_scheduled j /\
   j_prologues r = j_prologues j /\
   j_numberOfChunks r = j_numberOfChunks j /\
   j_actionAfterLastChunk r = j_actionAfterLastChunk j) \/
  (passes_checks e = true /\
   j_reportedDone r = j_reportedDone j /\
   j_status r = j_status j /\
   j_numberOfChunks r = Some (NumChunks e) /\
   j_actionAfterLastChunk r = true /\
   exists c new, j_scheduled r = j_scheduled j ++ c :: new).
Proof.
  intros Hn H. unfold anyToRemote, fail_transfer, passes_checks in *.
  unfold max_uint32 in Hn.
  destruct (WasCanceled e).
  { early H. }
  destruct (sipfFails e).
  { early H. }
  destruct (senderFactoryFails e).
  { early H. }
  destruct (Z.eqb_spec (NumChunks e) 0) as [H0|H0]; [discriminate|].
  destruct (IsForceWriteTrue e); cbn [negb andb orb] in *.
  - destruct (IsLocal e && openFails e) eqn:Ho.
    { early H. }
    right. revert H.
    destruct (schedule_loop _ _ _ _ _ _) as [[j' c']|] eqn:Hloop; [|discriminate].
    destruct (Z.eqb_spec c' (to_int32 (NumChunks e))) as [Hc|Hc]; [|discriminate].
    cbn [negb]. intros [= <-].
    apply schedule_loop_frame in Hloop as (H1 & H2 & H3 & H4 & new & H5 & H6).
    cbn in *.
    split; [reflexivity|]. split; [assumption|]. split; [assumption|].
    split; [assumption|]. split; [assumption|].
    destruct new as [|x new]; [|eauto].
    exfalso. specialize (H6 eq_refl). subst c'.
    unfold to_int32, wrap_signed in Hc.
    assert (Hm : (NumChunks e + 2 ^ (32 - 1)) mod 2 ^ 32 = 2 ^ (32 - 1)) by lia.
    destruct (Z.lt_ge_cases (NumChunks e) (2 ^ 31)).
    + rewrite Z.mod_small in Hm by lia. lia.
    + replace (NumChunks e + 2 ^ (32 - 1)) with (NumChunks e - 2 ^ 31 + 1 * 2 ^ 32) in Hm by lia.
      rewrite Z.mod_add in Hm by lia. rewrite Z.mod_small in Hm by lia. lia.
  - destruct (existenceErr e).
    { early H. }
    destruct (remoteExists e).
    { early H. }
    cbn [negb andb orb] in *.
    destruct (IsLocal e && openFails e) eqn:Ho.
    { early H. }
    right. revert H.
    destruct (schedule_loop _ _ _ _ _ _) as [[j' c']|] eqn:Hloop; [|discriminate].
    destruct (Z.eqb_spec c' (to_int32 (NumChunks e))) as [Hc|Hc]; [|discriminate].
    cbn [negb]. intros [= <-].
    apply schedule_loop_frame in Hloop as (H1 & H2 & H3 & H4 & new & H5 & H6).
    cbn in *.
    split; [reflexivity|]. split; [assumption|]. split; [assumption|].
    split; [assumption|]. split; [assumption|].
    destruct new as [|x new]; [|eauto].
    exfalso. specialize (H6 eq_refl). subst c'.
    unfold to_int32, wrap_signed in Hc.
    assert (Hm : (NumChunks e + 2 ^ (32 - 1)) mod 2 ^ 32 = 2 ^ (32 - 1)) by lia.
    destruct (Z.lt_ge_cases (NumChunks e) (2 ^ 31)).
    + rewrite Z.mod_small in Hm by lia. lia.
    + replace (NumChunks e + 2 ^ (32 - 1)) with (NumChunks e - 2 ^ 31 + 1 * 2 ^ 32) in Hm by lia.
      rewrite Z.mod_add in Hm by lia. rewrite Z.mod_small in Hm by lia. lia.
Qed.

End AnyToRemoteFacts.

Section AnyToRemoteChunks.

Import GoInt Sender SenderChunks.

Variable e : Env.
Variable srcSize : Z.
Hypothesis chunk_size : 0 < ChunkSize e <= max_uint32.
Hypothesis src_size : 0 <= srcSize.
Hypothesis no_wrap : srcSize + ChunkSize e <= max_int64.

(** The chunk loop from chunk [k] on, with [r] chunks to go. *)
Lemma schedule_loop_from (r : nat) : forall fuel (k : nat) j,
  Z.of_nat (k + r) = turns_of srcSize (ChunkSize e) ->
  Z.of_nat (k + r) < 2 ^ 31 ->
  (r <= fuel)%nat ->
  exists j',
    schedule_loop fuel e srcSize (Z.of_nat k * ChunkSize e) (Z.of_nat k) j
    = Some (j', Z.of_nat (k + r)) /\
    j_scheduled j' = j_scheduled j ++ map (send_chunk e srcSize) (seq k r) /\
    j_prologues j'
    = (j_prologues j + (if (k =? 0)%nat && negb (r =? 0)%nat then 1 else 0))%nat.
Proof.
  unfold max_uint32, max_int64 in *.
  assert (Hturns : srcSize <= turns_of srcSize (ChunkSize e) * ChunkSize e /\
                   ((turns_of srcSize (ChunkSize e) - 1) * ChunkSize e < srcSize \/
                    (srcSize = 0 /\ turns_of srcSize (ChunkSize e) = 1)) /\
                   1 <= turns_of srcSize (ChunkSize e)).
  { unfold turns_of. destruct (Z.eqb_spec srcSize 0) as [->|Hne].
    - split; [lia|]. split; [|lia]. right. split; reflexivity.
    - destruct (ceil_div_bounds srcSize (ChunkSize e)) as (Hup & Hlow & _);
        [lia|lia|].
      split; [assumption|]. split; [left; assumption|]. nia. }
  destruct Hturns as (Hup & Hlow & Hpos).
  induction r as [|r IH]; intros fuel k j Hk Hsmall Hfuel.
  - exists j. rewrite Nat.add_0_r in *.
    assert (Hstop : (Z.of_nat k * ChunkSize e <? srcSize)
                    || isDummyChunkInEmptyFile (Z.of_nat k * ChunkSize e) srcSize = false).
    { apply orb_false_iff. split.
      - apply Z.ltb_ge. rewrite Hk. assumption.
      - unfold isDummyChunkInEmptyFile. apply andb_false_iff.
        left. apply Z.eqb_neq. nia. }
    split; [|split].
    + destruct fuel; cbn [schedule_loop]; rewrite Hstop; reflexivity.
    + cbn. rewrite app_nil_r. reflexivity.
    + rewrite andb_false_r. lia.
  - destruct fuel as [|fuel]; [lia|].
    assert (Hgo : (Z.of_nat k * ChunkSize e <? srcSize)
                  || isDummyChunkInEmptyFile (Z.of_nat k * ChunkSize e) srcSize = true).
    { destruct Hlow as [Hlow|[H0 H1]].
      - apply orb_true_iff. left. apply Z.ltb_lt. rewrite <- Hk in Hlow. nia.
      - apply orb_true_iff. right. unfold isDummyChunkInEmptyFile.
        assert (k = 0%nat) by lia. subst. reflexivity. }
    cbn [schedule_loop]. rewrite Hgo.
    assert (Hnext : to_int64 (Z.of_nat k * ChunkSize e + ChunkSize e)
                    = Z.of_nat (S k) * ChunkSize e).
    { rewrite to_int64_id; [lia|]. unfold max_int64.
      split; [nia|].
      destruct Hlow as [Hlow|[H0 H1]]; [rewrite <- Hk in Hlow; nia|].
      assert (k = 0%nat) by lia. subst. lia. }
    assert (Hidx : to_int32 (Z.of_nat k + 1) = Z.of_nat (S k)).
    { rewrite to_int32_id; lia. }
    rewrite Hnext, Hidx. cbv zeta.
    assert (Hzero : (Z.of_nat k * ChunkSize e =? 0) = (k =? 0)%nat).
    { destruct k as [|k]; [reflexivity|]. cbn [Nat.eqb]. apply Z.eqb_neq. nia. }
    rewrite Hzero.
    assert (Hlen : (if Z.of_nat (S k) * ChunkSize e >? srcSize
                    then to_int64 (srcSize - Z.of_nat k * ChunkSize e)
                    else ChunkSize e)
                   = Z.min ((Z.of_nat k + 1) * ChunkSize e) srcSize
                     - Z.of_nat k * ChunkSize e).
    { destruct (Z.gtb_spec (Z.of_nat (S k) * ChunkSize e) srcSize).
      - rewrite to_int64_id by (unfold max_int64; nia). lia.
      - lia. }
    rewrite Hlen.
    match goal with
    | |- context [schedule_loop fuel e srcSize _ _ ?j1] =>
        destruct (IH fuel (S k) j1) as (j' & Hrun & Hsched & Hpro); try lia
    end.
    exists j'. split; [|split].
    + rewrite Hrun. do 2 f_equal. lia.
    + rewrite Hsched. cbn [j_scheduled ScheduleChunks seq map].
      rewrite <- app_assoc. cbn [app]. f_equal.
      destruct (k =? 0)%nat; reflexivity.
    + rewrite Hpro. cbn [Nat.eqb andb negb j_prologues ScheduleChunks].
      destruct k as [|k]; cbn; lia.
Qed.

(** X4: when no check ends the transfer, [anyToRemote] schedules the chunks of
    the source in order, chunk [i] at offset [i] times the chunk size, with
    the length that is left and index [i], and runs the sender's prologue
    once, before the first; it needs the sender's number of chunks to be the
    number of turns of its loop (one for an empty source) and otherwise
    panics, having scheduled the chunks all the same. *)
Theorem anyToRemote_schedules_all j fuel :
  passes_checks e = true ->
  0 < NumChunks e <= max_uint32 ->
  turns_of srcSize (ChunkSize e) < 2 ^ 31 ->
  (Z.to_nat (turns_of srcSize (ChunkSize e)) <= fuel)%nat ->
  (NumChunks e = turns_of srcSize (ChunkSize e) ->
   exists r,
     anyToRemote fuel srcSize e j = Some (Ret r) /\
     j_scheduled r
     = j_scheduled j ++ map (send_chunk e srcSize)
                            (seq 0 (Z.to_nat (turns_of srcSize (ChunkSize e)))) /\
     j_prologues r = S (j_prologues j) /\
     (forall i c, j_scheduled r !! (length (j_scheduled j) + i)%nat = Some c ->
        0 <= chunkLength c <= ChunkSize e /\
        OffsetInFile c + chunkLength c <= srcSize /\
        (srcSize = 0 \/ 0 < chunkLength c))) /\
  (NumChunks e <> turns_of srcSize (ChunkSize e) ->
   exists msg, anyToRemote fuel srcSize e j = Some (Panic msg)).
Proof.
  intros Hpass Hn Hsmall Hfuel.
  assert (Hpos : 1 <= turns_of srcSize (ChunkSize e)).
  { unfold turns_of. destruct (Z.eqb_spec srcSize 0); [lia|].
    destruct (ceil_div_bounds srcSize (ChunkSize e)) as (Hup & Hlow & H0);
      [lia|lia|].
    nia. }
  unfold passes_checks in Hpass.
  repeat (apply andb_true_iff in Hpass as [Hpass ?]).
  repeat match goal with H : negb _ = true |- _ => apply negb_true_iff in H end.
  assert (Hhead : anyToRemote fuel srcSize e j
    = match schedule_loop fuel e srcSize 0 0
              (SetActionAfterLastChunk (SetNumberOfChunks (NumChunks e) j)) with
      | None => None
      | Some (j', chunkIDCount) =>
          if negb (chunkIDCount =? to_int32 (NumChunks e)) then
            Some (Panic "difference in the number of chunk calculated and actual chunks scheduled")
          else Some (Ret j')
      end).
  { unfold anyToRemote. rewrite Hpass, H2, H1.
    destruct (Z.eqb_spec (NumChunks e) 0); [lia|].
    assert (Hf : negb (IsForceWriteTrue e) && existenceErr e = false).
    { destruct (IsForceWriteTrue e), (existenceErr e); try reflexivity.
      cbn in H0. discriminate. }
    assert (Hx : negb (IsForceWriteTrue e) && remoteExists e = false).
    { destruct (IsForceWriteTrue e), (remoteExists e), (existenceErr e);
        try reflexivity; cbn in H0; discriminate. }
    rewrite Hf, Hx, H. reflexivity. }
  destruct (schedule_loop_from (Z.to_nat (turns_of srcSize (ChunkSize e))) fuel 0%nat
              (SetActionAfterLastChunk (SetNumberOfChunks (NumChunks e) j)))
    as (j' & Hrun & Hsched & Hpro); try lia.
  change (Z.of_nat 0 * ChunkSize e) with 0 in Hrun. change (Z.of_nat 0) with 0 in Hrun.
  rewrite Hhead, Hrun.
  replace (Z.of_nat (0 + Z.to_nat (turns_of srcSize (ChunkSize e))))
    with (turns_of srcSize (ChunkSize e)) by lia.
  split.
  - intros Heq. exists j'. rewrite Heq.
    rewrite to_int32_id by lia. rewrite Z.eqb_refl. cbn [negb].
    split; [reflexivity|]. split; [exact Hsched|]. split.
    + rewrite Hpro. cbn.
      destruct (Z.to_nat (turns_of srcSize (ChunkSize e))) eqn:E; [lia|]. cbn. lia.
    + intros i c Hl. rewrite Hsched in Hl. cbn [j_scheduled SetActionAfterLastChunk SetNumberOfChunks] in Hl.
      rewrite lookup_app_r in Hl by lia.
      replace (length (j_scheduled j) + i - length (j_scheduled j))%nat with i in Hl by lia.
      rewrite list_lookup_fmap in Hl.
      destruct (seq 0 _ !! i) as [x|] eqn:Hx; [|discriminate].
      apply lookup_seq in Hx as [-> Hi]. injection Hl as <-.
      cbn [send_chunk chunkLength OffsetInFile].
      unfold max_uint32 in *.
      assert (Hk : Z.of_nat i < turns_of srcSize (ChunkSize e)) by lia.
      unfold turns_of in *. destruct (Z.eqb_spec srcSize 0) as [->|Hne].
      * assert (i = 0%nat) by lia. subst. cbn. lia.
      * destruct (ceil_div_bounds srcSize (ChunkSize e)) as (Hup & Hlow & H0'); try lia.
        assert (Z.of_nat i * ChunkSize e < srcSize) by nia.
        split; [lia|]. split; [lia|]. right. lia.
  - intros Hne.
    destruct (Z.eqb_spec (turns_of srcSize (ChunkSize e)) (to_int32 (NumChunks e))) as [Heq|Hd].
    + exfalso. apply Hne. unfold max_uint32 in *.
      destruct (Z.lt_ge_cases (NumChunks e) (2 ^ 31)).
      * rewrite to_int32_id in Heq by lia. lia.
      * unfold to_int32, wrap_signed in Heq.
        replace (NumChunks e + 2 ^ (32 - 1)) with (NumChunks e - 2 ^ 31 + 1 * 2 ^ 32) in Heq by lia.
        rewrite Z.mod_add in Heq by lia. rewrite Z.mod_small in Heq by lia. lia.
    + cbn [negb]. eexists. reflexivity.
Qed.

End AnyToRemoteChunks.

(** Ten bytes in chunks of four: three chunks, of 4, 4 and 2 bytes. *)
Lemma anyToRemote_schedules_all_witness :
  exists r,
    Sender.anyToRemote 3 10 SenderChunks.ten_bytes Sender.started = Some (Ret r) /\
    map Sender.chunkLength (Sender.j_scheduled r) = [4; 4; 2].
Proof.
  destruct (anyToRemote_schedules_all SenderChunks.ten_bytes 10) with
    (j := Sender.started) (fuel := 3%nat) as [Hok _];
    try (vm_compute; first [reflexivity | discriminate | split; [reflexivity|discriminate] | lia]).
  destruct Hok as (r & Hrun & Hsched & _); [reflexivity|].
  exists r. split; [exact Hrun|]. rewrite Hsched. reflexivity.
Defined.

(** An empty upload, cancelled or not. *)
Lemma anyToRemote_reports_or_schedules_witness :
  exists r,
    Sender.anyToRemote 1 0 Sender.empty_upload Sender.started = Some (Ret r) /\
    Sender.j_reportedDone r = 0%nat.
Proof.
  eexists. split; [reflexivity|].
  destruct (anyToRemote_reports_or_schedules 1 0 Sender.empty_upload Sender.started _
              ltac:(vm_compute; split; discriminate) eq_refl)
    as [(Habs & _)|(_ & Hdone & _)]; [discriminate Habs|exact Hdone].
Defined.

(** ** Workers: the unmapping *)

Section UnmapFacts.

Import GoInt Ste SteCalls.

Variable tape : nat -> list ascii.
Variable n : nat.
Hypothesis n_fits : Z.of_nat n <= max_uint32.

Lemma UnmapOk_start s : all_scheduled n s -> UnmapOk n s.
Proof.
  intros (Hlen & Hslots & Hws & Hcd & Hst & Hdone & Hun & Hrem & Hnp).
  split.
  - rewrite Hun. cbn. apply countZ_bounds.
  - intros who Hin. rewrite Hun in Hin. destruct Hin.
  - intros i w Hl Hu. destruct (Hws i w Hl) as (Hpc & _). rewrite Hpc in Hu. discriminate.
Qed.

Lemma UnmapOk_step s e :
  CountOk n s -> UnmapOk n s -> UnmapOk n (sys_step worker_step tape s e).
Proof.
  intros Hinv Hum.
  destruct (sys_step_cases tape worker_step s e)
    as [-> | [[_ ->] | (i & fails & w & st' & w' & _ & Hnp & Hl & Hend & Hstep & ->)]].
  - assumption.
  - destruct Hum. split; assumption.
  - destruct (step_normal n n_fits s i w Hinv Hl) as (Hcount & Hstore & Hi).
    destruct (co_worker _ _ Hinv i w Hl) as [Hid Htot [Hv1 Hv2] Hunc Hepi Hcnt].
    destruct Hum as [Hc Hd Hp].
    pose proof (Hp i w Hl) as Hpw.
    assert (Hothers : forall st'' x',
      (forall who, In who (transfersDone (shared s)) -> In who (transfersDone st'')) ->
      (unmapping (w_pc x') = true -> In (ByChunk (chunkId (w_msg x'))) (transfersDone st'')) ->
      forall j x, <[i := x']> (workers s) !! j = Some x -> unmapping (w_pc x) = true ->
        In (ByChunk (chunkId (w_msg x))) (transfersDone st'')).
    { intros st'' x' Hmono Hx' j x Hj Hx.
      apply list_lookup_insert_Some in Hj as [(<- & <- & _)|[Hne Hj]]; [auto|].
      apply Hmono, (Hp j x Hj Hx). }
    by_place Hstep Hcount Hstore Hnp; try congruence;
      cbn [uncounted in_epilogue unmapping] in *;
      (split; cbn [shared workers];
       [ rewrite (countZ_insert _ _ _ _ _ Hl); unfold is_last in Hc |- *; cbn;
         rewrite ?Hpc; cbn;
         try (rewrite (Hepi eq_refl), Z.eqb_refl); cbn;
         rewrite ?andb_false_r, ?andb_true_r;
         repeat match goal with
           | |- context [?a =? ?b] => destruct (Z.eqb_spec a b)
           end; cbn; lia
       | cbn; intros who Hin; try (right; auto; fail); auto;
         try (destruct Hin as [<-|Hin]; [apply Hpw; reflexivity|auto])
       | apply Hothers; cbn; try discriminate; auto ]).
Qed.

Lemma UnmapOk_run sch : forall s,
  CountOk n s -> UnmapOk n s -> UnmapOk n (run worker_step tape sch s).
Proof.
  induction sch as [|e sch IH]; intros s Hinv Hum; simpl; [assumption|].
  apply IH; [apply CountOk_step|apply UnmapOk_step]; assumption.
Qed.

End UnmapFacts.

(** ** Workers: the put-block calls *)

Section CallLog.

Import Ste SteCalls.

Lemma countOps_bounds p l : 0 <= countOps p l <= Z.of_nat (length l).
Proof.
  induction l as [|e l IH]; simpl; [lia|].
  pose proof (b2z_range (p e)). lia.
Qed.

Lemma existsb_In {A} (p : A -> bool) l x : In x l -> p x = true -> existsb p l = true.
Proof. intros Hin Hp. apply existsb_exists. exists x. auto. Qed.

Lemma not_fail_logged p st op f :
  fail_logged p st = false -> In (op, f) (remote st) -> p (op, f) = true -> f = false.
Proof.
  intros Hno Hin Hp. destruct f; [|reflexivity].
  unfold fail_logged in Hno.
  rewrite (existsb_In _ _ (op, true) Hin) in Hno; [discriminate|].
  rewrite Hp. reflexivity.
Qed.

Lemma ok_logged_logged p st : ok_logged p st = true -> logged p st = true.
Proof.
  unfold ok_logged, logged. intros H. apply existsb_exists in H as (x & Hin & Hx).
  apply andb_true_iff in Hx as [Hx _]. apply (existsb_In _ _ x Hin Hx).
Qed.

Lemma fail_logged_logged p st : fail_logged p st = true -> logged p st = true.
Proof.
  unfold fail_logged, logged. intros H. apply existsb_exists in H as (x & Hin & Hx).
  apply andb_true_iff in Hx as [Hx _]. apply (existsb_In _ _ x Hin Hx).
Qed.

Lemma countOps_one p (q : RemoteOp * bool -> bool) l :
  existsb (fun e => p e && q e) l = true -> 1 <= countOps p l.
Proof.
  induction l as [|x l IH]; simpl; [discriminate|].
  pose proof (countOps_bounds p l).
  destruct (p x); simpl; [lia|]. auto.
Qed.

(** A call that failed and one that did not are two calls. *)
Lemma countOps_two p l :
  existsb (fun e => p e && snd e) l = true ->
  existsb (fun e => p e && negb (snd e)) l = true ->
  2 <= countOps p l.
Proof.
  induction l as [|e l IH]; simpl; [discriminate|].
  intros Hf Ho.
  pose proof (countOps_bounds p l) as Hb.
  destruct (p e) eqn:Hp; simpl in *.
  - destruct (snd e); simpl in *.
    + pose proof (countOps_one _ _ _ Ho). lia.
    + pose proof (countOps_one _ _ _ Hf). lia.
  - auto.
Qed.

Lemma countOps_logged p st : logged p st = true -> 1 <= countOps p (remote st).
Proof.
  unfold logged. generalize (remote st) as l.
  induction l as [|x l IH]; simpl; [discriminate|].
  pose proof (countOps_bounds p l).
  destruct (p x); simpl; [lia|]. auto.
Qed.

End CallLog.

Section PutFacts.

Import GoInt Ste SteCalls.

Variable tape : nat -> list ascii.
Variable n : nat.
Hypothesis n_fits : Z.of_nat n <= max_uint32.

Lemma PutOk_start s : all_scheduled n s -> PutOk s.
Proof.
  intros (Hlen & Hslots & Hws & Hcd & Hst & Hdone & Hun & Hrem & Hnp).
  split.
  - intros i w Hl Hsc. destruct (Hws i w Hl) as (_ & _ & Hf & _). congruence.
  - rewrite Hrem. cbn. symmetry. apply countZ_none. intros i w Hl.
    destruct (Hws i w Hl) as (Hpc & _). unfold put_done. rewrite Hpc. apply andb_false_r.
  - intros i w Hl Hp. destruct (Hws i w Hl) as (Hpc & _). unfold put_done in Hp.
    rewrite Hpc, andb_false_r in Hp. discriminate.
  - intros id off sz f Hin. rewrite Hrem in Hin. destruct Hin.
Qed.

Lemma PutOk_replace s i w st' w' :
  PutOk s -> workers s !! i = Some w ->
  (w_sawCancel w' = true -> skip_place (w_pc w') = true /\ w_pc w' <> PStart) ->
  countOps is_PutBlock (remote st')
  = countOps is_PutBlock (remote (shared s)) - b2z (put_done w) + b2z (put_done w') ->
  (forall e, In e (remote (shared s)) -> In e (remote st')) ->
  (put_done w' = true -> exists f, In (put_of w', f) (remote st')) ->
  (put_done w = true -> put_done w' = true /\ put_of w' = put_of w) ->
  (forall id off sz f, In (OpPutBlock id off sz, f) (remote st') ->
     In (OpPutBlock id off sz, f) (remote (shared s)) \/
     (put_done w' = true /\ OpPutBlock id off sz = put_of w')) ->
  PutOk {| shared := st'; workers := <[i := w']> (workers s) |}.
Proof.
  intros [Hsaw Hcount Hput Hwhose] Hl H1 H2 Hmono H3 H4 H5.
  split; cbn [shared workers].
  - intros j x Hj Hx. apply list_lookup_insert_Some in Hj as [(<- & <- & _)|[Hne Hj]].
    + auto.
    + eauto.
  - rewrite (countZ_insert _ _ _ _ _ Hl), H2, Hcount. reflexivity.
  - intros j x Hj Hx. apply list_lookup_insert_Some in Hj as [(<- & <- & _)|[Hne Hj]].
    + auto.
    + destruct (Hput j x Hj Hx) as [f Hf]. exists f. auto.
  - intros id off sz f Hin. destruct (H5 id off sz f Hin) as [Hold|[Hnew Heq]].
    + destruct (Hwhose id off sz f Hold) as (j & x & Hj & Hx & Heq).
      destruct (decide (j = i)) as [->|Hne].
      * assert (x = w) by congruence. subst x.
        destruct (H4 Hx) as [Hp' Heq']. exists i, w'.
        split; [apply list_lookup_insert_eq; eapply lookup_lt_Some; eassumption|].
        split; [assumption|congruence].
      * exists j, x. rewrite list_lookup_insert_ne by congruence. auto.
    + exists i, w'.
      split; [apply list_lookup_insert_eq; eapply lookup_lt_Some; eassumption|].
      split; assumption.
Qed.

Lemma PutOk_step s e :
  CountOk n s -> IdsOk tape n s -> PutOk s -> PutOk (sys_step worker_step tape s e).
Proof.
  intros Hinv Hids Hpk.
  destruct (sys_step_cases tape worker_step s e)
    as [-> | [[_ ->] | (i & fails & w & st' & w' & _ & Hnp & Hl & Hend & Hstep & ->)]].
  - assumption.
  - destruct Hpk. split; assumption.
  - destruct (step_normal n n_fits s i w Hinv Hl) as (Hcount & Hstore & Hi).
    pose proof (pk_saw _ Hpk i w Hl) as Hsaw.
    pose proof (pk_put _ Hpk i w Hl) as Hput.
    pose proof (io_skipping _ _ _ Hids i w Hl) as Hskipping.
    unfold put_done in Hput.
    by_place Hstep Hcount Hstore Hnp; try congruence;
      cbn [skipping skip_place] in *;
      (apply (PutOk_replace s i w _ _ Hpk Hl);
       [ cbn; try tauto; try (intros _; split; [reflexivity|discriminate]);
         try (intros Hx; destruct (Hsaw Hx) as [Hy _]; discriminate)
       | unfold put_done; cbn; rewrite ?Hpc; cbn;
         try (rewrite (Hskipping eq_refl)); cbn;
         rewrite ?andb_false_r, ?andb_true_r;
         try (destruct (w_sawCancel w) eqn:Hsc;
              [destruct (Hsaw eq_refl) as [Hy _]; discriminate|]);
         cbn; lia
       | cbn; intros x Hx; auto
       | unfold put_done, put_of; cbn; rewrite ?Hpc; cbn;
         rewrite ?andb_false_r, ?andb_true_r;
         try discriminate;
         try (intros Hx; eexists; left; reflexivity);
         try (intros Hx; destruct Hput as [f Hf]; [rewrite ?Hx; reflexivity|];
              exists f; first [exact Hf | right; exact Hf]);
         try (rewrite (Hskipping eq_refl); discriminate)
       | unfold put_done, put_of; cbn; rewrite ?Hpc; cbn;
         rewrite ?andb_false_r, ?andb_true_r; try discriminate;
         try (intros Hx; split; [assumption|reflexivity]);
         try (rewrite (Hskipping eq_refl); discriminate)
       | cbn; intros id off sz f Hin; try (left; assumption);
         try (destruct Hin as [Heq|Hin]; [discriminate|left; assumption]);
         try (destruct Hin as [Heq|Hin];
              [right; injection Heq as <- <- <- <-; split; [|reflexivity];
               unfold put_done; cbn;
               destruct (w_sawCancel w) eqn:Hsc;
               [destruct (Hsaw eq_refl) as [Hy _]; discriminate|reflexivity]
              |left; assumption]) ]).
Qed.

Lemma PutOk_run sch : forall s,
  Reachable tape n s -> PutOk s -> PutOk (run worker_step tape sch s).
Proof.
  induction sch as [|e sch IH]; intros s Hr Hpk; simpl; [assumption|].
  apply IH; [apply Reachable_step; assumption|].
  apply PutOk_step; [apply (r_count _ _ _ Hr)|apply (r_ids _ _ _ Hr)|assumption].
Qed.

End PutFacts.

(** ** Workers: the commit *)

Section CommitFacts.

Import GoInt Ste SteCalls.

Variable tape : nat -> list ascii.
Variable n : nat.
Hypothesis n_fits : Z.of_nat n <= max_uint32.

(** When the last closure is about to commit, every closure has put its
    block, under the id of its chunk, and no put-block failed. *)
Lemma all_blocks_put s i w :
  Reachable tape n s -> PutOk s ->
  workers s !! i = Some w -> w_pc w = PPutBlockList ->
  forall j x, workers s !! j = Some x ->
    In (OpPutBlock (BlockId.encodedBlockId (tape j)) (startIndex (w_msg x))
          (chunkSize (w_msg x)), false) (remote (shared s)).
Proof.
  intros [Hinv _ Hids Hs] Hpk Hl Hpc j x Hx.
  assert (Hn : (0 < n)%nat).
  { rewrite <- (co_workers _ _ Hinv). apply lookup_lt_Some in Hl. lia. }
  assert (Hobs : w_observed w = Z.of_nat n).
  { apply (wk_epilogue _ _ _ (co_worker _ _ Hinv i w Hl)). rewrite Hpc. reflexivity. }
  assert (Hnoskip : countZ w_sawCancel (workers s) = 0).
  { apply (io_commit _ _ _ Hids). apply (countZ_lookup _ _ i w Hl).
    rewrite Hpc. reflexivity. }
  pose proof (countZ_zero _ _ _ _ Hnoskip Hx) as Hsc.
  pose proof (last_all_counted n s i w j x Hinv Hn Hl Hobs Hx) as Hcounted.
  destruct (co_worker _ _ Hinv j x Hx) as [_ _ [Hv1 Hv2] _ Hepi _].
  assert (Hplace : put_done x = true /\ drawn x = true).
  { unfold put_done, drawn. rewrite Hsc. simpl.
    destruct (w_pc x) eqn:Hpx; try discriminate; try (split; reflexivity).
    - exfalso.
      assert (i = j).
      { apply (last_unique n s i j w x Hinv Hn Hl Hx Hobs). apply Hepi. reflexivity. }
      subst j. congruence. }
  destruct Hplace as [Hput Hdr].
  destruct (pk_put _ Hpk j x Hx Hput) as [f Hf].
  assert (Hclean : fail_logged is_PutBlock (shared s) = false).
  { apply (so_clean _ _ Hs). apply (countZ_lookup _ _ i w Hl). rewrite Hpc. reflexivity. }
  rewrite (not_fail_logged _ _ _ _ Hclean Hf eq_refl) in Hf.
  unfold put_of in Hf. rewrite (io_drawn _ _ _ Hids j x Hx Hdr) in Hf. exact Hf.
Qed.

Lemma CommitOk_start s : all_scheduled n s -> CommitOk tape n s.
Proof.
  intros (Hlen & Hslots & Hws & Hcd & Hst & Hdone & Hun & Hrem & Hnp).
  unfold Common.TransferInProgress in Hst.
  split; unfold logged, fail_logged, ok_logged, Common.TransferComplete;
    rewrite ?Hrem, ?Hst; cbn; try discriminate.
  - apply countZ_bounds.
  - intros ids f [].
  - intros i w Hl Hc. destruct (Hws i w Hl) as (Hpc & _). rewrite Hpc in Hc. discriminate.
Qed.

Lemma CommitOk_replace s i w st' w' :
  CommitOk tape n s -> workers s !! i = Some w ->
  w_msg w' = w_msg w ->
  (forall e, In e (remote (shared s)) -> In e (remote st')) ->
  countOps is_PutBlockList (remote st')
  <= countZ (fun w => is_last (Z.of_nat n) w && past_commit (w_pc w)) (workers s)
     - b2z (is_last (Z.of_nat n) w && past_commit (w_pc w))
     + b2z (is_last (Z.of_nat n) w' && past_commit (w_pc w')) ->
  (forall ids f, In (OpPutBlockList ids, f) (remote st') ->
     In (OpPutBlockList ids, f) (remote (shared s)) \/
     forall j x, workers s !! j = Some x ->
       In (OpPutBlock (BlockId.encodedBlockId (tape j)) (startIndex (w_msg x))
             (chunkSize (w_msg x)), false) (remote st')) ->
  (logged is_PutBlockList st' = true -> fail_logged is_PutBlock st' = false) ->
  (status st' = Common.TransferComplete -> ok_logged is_PutBlockList st' = true) ->
  (completing (w_pc w') = true -> ok_logged is_PutBlockList st' = true) ->
  (fail_logged is_PutBlock st' = true ->
   status st' = Common.TransferFailed \/
   1 <= countZ (fun w => failing (w_pc w)) (workers s)
        - b2z (failing (w_pc w)) + b2z (failing (w_pc w'))) ->
  (ok_logged is_PutBlockList st' = true ->
   status st' = Common.TransferComplete \/
   1 <= countZ (fun w => completing (w_pc w)) (workers s)
        - b2z (completing (w_pc w)) + b2z (completing (w_pc w'))) ->
  CommitOk tape n {| shared := st'; workers := <[i := w']> (workers s) |}.
Proof.
  intros Hcm Hl Hmsg Hmono H1 H2 H3 H4 H5 H6 H7.
  split; cbn [shared workers]; rewrite ?(countZ_insert _ _ _ _ _ Hl); try assumption.
  - intros ids f Hin j x Hj.
    assert (Hold : forall j0 x0, workers s !! j0 = Some x0 ->
              In (OpPutBlock (BlockId.encodedBlockId (tape j0)) (startIndex (w_msg x0))
                    (chunkSize (w_msg x0)), false) (remote st')).
    { destruct (H2 ids f Hin) as [Ho|Hn]; [|exact Hn].
      intros j0 x0 Hj0. apply Hmono. apply (cm_blocks _ _ _ Hcm ids f Ho j0 x0 Hj0). }
    apply list_lookup_insert_Some in Hj as [(<- & <- & _)|[Hne Hj]].
    + rewrite Hmsg. apply Hold, Hl.
    + apply Hold, Hj.
  - intros j x Hj Hx. apply list_lookup_insert_Some in Hj as [(<- & <- & _)|[Hne Hj]].
    + auto.
    + pose proof (cm_completing _ _ _ Hcm j x Hj Hx) as Hok.
      unfold ok_logged in *. apply existsb_exists in Hok as (y & Hin & Hy).
      apply (existsb_In _ _ y (Hmono y Hin) Hy).
Qed.

End CommitFacts.

Section CommitStep.

Import GoInt Ste SteCalls.

Variable tape : nat -> list ascii.
Variable n : nat.
Hypothesis n_fits : Z.of_nat n <= max_uint32.

Lemma CommitOk_step s e :
  Reachable tape n s -> PutOk s -> CommitOk tape n s ->
  CommitOk tape n (sys_step worker_step tape s e).
Proof.
  intros Hr Hpk Hcm. pose proof Hr as [Hinv _ Hids Hs].
  destruct (sys_step_cases tape worker_step s e)
    as [-> | [[_ ->] | (i & fails & w & st' & w' & _ & Hnp & Hl & Hend & Hstep & ->)]].
  - assumption.
  - destruct Hcm. split; assumption.
  - destruct (step_normal n n_fits s i w Hinv Hl) as (Hcount & Hstore & Hi).
    destruct (status_counts n s i w Hinv Hl) as [Hcu Hcl].
    destruct (co_worker _ _ Hinv i w Hl) as [Hid Htot [Hv1 Hv2] Hunc Hepi Hcnt].
    pose proof (so_failing _ _ Hs i w Hl) as Hfailing.
    pose proof (so_list_failing _ _ Hs i w Hl) as Hlisting.
    pose proof (so_clean _ _ Hs) as Hclean.
    pose proof (so_list_logged _ _ Hs) as Hll.
    pose proof (cm_completing _ _ _ Hcm i w Hl) as Hcompleting.
    pose proof (all_blocks_put tape n s i w Hr Hpk Hl) as Hall.
    pose proof (countOps_two is_PutBlockList (remote (shared s))) as Htwo.
    pose proof (@ok_logged_logged is_PutBlockList (shared s)) as Hokl.
    pose proof (@fail_logged_logged is_PutBlockList (shared s)) as Hfll.
    pose proof Hcm as Hcm0.
    destruct Hcm as [Hcc Hcb Hce Hcp _ Hcf Hck].
    assert (Hcd : uncounted (w_pc w) = true -> 0 <= chunksDone (shared s) < Z.of_nat n).
    { apply (uncounted_below n s i w Hinv Hl). }
    pose proof (countZ_bounds (fun w => failing (w_pc w)) (workers s)) as Hbf.
    pose proof (countZ_bounds (fun w => completing (w_pc w)) (workers s)) as Hbc.
    by_place Hstep Hcount Hstore Hnp; try congruence;
      rewrite ?Htot in *;
      cbn [uncounted in_epilogue failing list_failing completing] in *;
      first [ destruct (Hcu eq_refl) as (E1 & E3 & E4 & E5 & E6)
            | destruct (Hcl eq_refl) as (Hil & E1 & E2 & E3 & E4 & E5 & E6) ];
      clear Hcu Hcl;
      apply (CommitOk_replace tape n s i w _ _ Hcm0 Hl); clear Hcm0;
      try reflexivity;
      try (intros x Hx; cbn; auto; fail);
      try (cbn; intros ids f Hin; try (left; assumption);
           try (destruct Hin as [Heq|Hin]; [discriminate|left; assumption]);
           try (destruct Hin as [Heq|Hin];
                [right; intros j x Hj; right; apply (Hall eq_refl j x Hj)
                |left; assumption]); fail);
      unfold is_last, fail_logged, logged, ok_logged, Common.TransferFailed,
        Common.TransferComplete in *;
      cbn [status cancelled remote chunksDone existsb fst snd call set_remote
           set_status set_cancelled set_chunksDone set_transfersDone set_unmaps
           set_blockIds set_currentBytes TransferStatus TransferDone Unmap
           TransferCancelFunc updateCurrentBytes is_PutBlock is_PutBlockList
           w_pc w_observed at_pc with_observed with_blockId with_sawCancel
           andb orb negb b2z wrote_complete about_to_cancel list_failed clean_commit
           list_failing past_commit failing completing countOps] in *;
      rewrite ?Hpc in *;
      rewrite ?E1, ?E2, ?E3, ?E4, ?E5, ?E6 in *;
      cbn [andb orb negb b2z wrote_complete about_to_cancel list_failed clean_commit
           list_failing past_commit failing completing] in *;
      rewrite ?andb_false_r, ?andb_true_r, ?orb_false_r, ?orb_true_r in *;
      repeat match goal with
        | H : (_ =? _) = true |- _ => rewrite H in *
        | H : (_ =? _) = false |- _ => rewrite H in *
        end;
      cbn [andb orb b2z] in *;
      try (specialize (Hunc eq_refl); rewrite Hunc in * );
      try (destruct Hclean as [Hk1 Hk2]; [lia|]);
      try (intuition (try lia; try congruence); fail).

Qed.

End CommitStep.

(** ** Workers: the decision of the last closure *)

Section DecisionFacts.

Import GoInt Ste SteCalls.

Variable tape : nat -> list ascii.
Variable n : nat.
Hypothesis n_fits : Z.of_nat n <= max_uint32.

Lemma DecisionOk_start s : all_scheduled n s -> DecisionOk n s.
Proof.
  intros (Hlen & Hslots & Hws & Hcd & Hst & Hdone & Hun & Hrem & Hnp).
  split.
  - intros i w Hl Ht. destruct (Hws i w Hl) as (Hpc & _). rewrite Hpc in Ht. discriminate.
  - intros i w Hl Ht. destruct (Hws i w Hl) as (Hpc & _).
    rewrite Hpc, andb_false_r in Ht. discriminate.
Qed.

Lemma DecisionOk_replace s i w st' w' :
  DecisionOk n s -> workers s !! i = Some w ->
  (cancelled (shared s) = true -> cancelled st' = true) ->
  (logged is_PutBlockList (shared s) = true -> logged is_PutBlockList st' = true) ->
  (tripped (w_pc w') = true -> cancelled st' = true) ->
  (is_last (Z.of_nat n) w' && decided (w_pc w') = true ->
   logged is_PutBlockList st' = true \/ cancelled st' = true) ->
  DecisionOk n {| shared := st'; workers := <[i := w']> (workers s) |}.
Proof.
  intros [Ht Hd] Hl Hc Hlog H1 H2. split; cbn [shared workers].
  - intros j x Hj Hx. apply list_lookup_insert_Some in Hj as [(<- & <- & _)|[Hne Hj]].
    + auto.
    + eauto.
  - intros j x Hj Hx. apply list_lookup_insert_Some in Hj as [(<- & <- & _)|[Hne Hj]].
    + auto.
    + destruct (Hd j x Hj Hx); auto.
Qed.

Lemma DecisionOk_step s e :
  CountOk n s -> IdsOk tape n s -> DecisionOk n s ->
  DecisionOk n (sys_step worker_step tape s e).
Proof.
  intros Hinv Hids Hdc.
  destruct (sys_step_cases tape worker_step s e)
    as [-> | [[_ ->] | (i & fails & w & st' & w' & _ & Hnp & Hl & Hend & Hstep & ->)]].
  - assumption.
  - destruct Hdc as [Ht Hd]. split; cbn; [reflexivity|]. intros; right; reflexivity.
  - destruct (step_normal n n_fits s i w Hinv Hl) as (Hcount & Hstore & Hi).
    destruct (co_worker _ _ Hinv i w Hl) as [Hid Htot [Hv1 Hv2] Hunc Hepi Hcnt].
    pose proof (dc_tripped _ _ Hdc i w Hl) as Htr.
    pose proof (dc_decided _ _ Hdc i w Hl) as Hde.
    pose proof (io_skipping _ _ _ Hids i w Hl) as Hskipping.
    pose proof (io_skip _ _ _ Hids i w Hl) as Hskip.
    by_place Hstep Hcount Hstore Hnp; try congruence;
      rewrite ?Htot in *;
      cbn [uncounted in_epilogue skipping tripped] in *;
      (apply (DecisionOk_replace s i w _ _ Hdc Hl);
       [ cbn; auto
       | unfold logged; cbn; auto using orb_true_r
       | cbn; try discriminate; auto
       | unfold is_last, logged in *; cbn in *; rewrite ?Hpc in *; cbn in *;
         rewrite ?andb_false_r, ?andb_true_r in *;
         repeat match goal with
           | H : (_ =? _) = true |- _ => rewrite H in *
           | H : (_ =? _) = false |- _ => rewrite H in *
           end;
         try discriminate; auto;
         try (intros _; right; auto; fail);
         try (intros _; left; reflexivity) ]).
Qed.

End DecisionFacts.

(** ** Workers: the earlier closure after a failure *)

Section EarlierFailFacts.

Import GoInt Ste SteCalls.

Variable tape : nat -> list ascii.
Variable n : nat.
Hypothesis n_fits : Z.of_nat n <= max_uint32.

Lemma EarlierFailOk_start s : all_scheduled n s -> EarlierFailOk n s.
Proof.
  intros (Hlen & Hslots & Hws & Hcd & Hst & Hdone & Hun & Hrem & Hnp).
  unfold Common.TransferInProgress in Hst.
  split; unfold logged, fail_logged, Common.TransferStatusComplete;
    rewrite ?Hrem, ?Hst, ?Hun; cbn; try discriminate; try congruence.
  - intros i w Hl Hc. destruct (Hws i w Hl) as (Hpc & _). rewrite Hpc in Hc. discriminate.
  - intros i w Hl Hc. destruct (Hws i w Hl) as (Hpc & _). rewrite Hpc in Hc. discriminate.
Qed.

Lemma EarlierFailOk_replace s i w st' w' :
  EarlierFailOk n s -> workers s !! i = Some w ->
  (forall p, fail_logged p (shared s) = true -> fail_logged p st' = true) ->
  (forall p, logged p (shared s) = true -> logged p st' = true) ->
  (fail_logged is_PutBlock st' = true ->
   1 <= countZ failedV0 (workers s) - b2z (failedV0 w) + b2z (failedV0 w')) ->
  (failingV0 (w_pc w') = true ->
   w_observed w' = 0 /\ fail_logged is_PutBlock st' = true) ->
  (logged is_PutBlockList st' = true -> chunksDone st' = Z.of_nat n) ->
  (committedV0 (w_pc w') = true -> logged is_PutBlockList st' = true) ->
  (unmaps st' <> [] -> logged is_PutBlockList st' = true) ->
  (status st' = Common.TransferStatusComplete -> logged is_PutBlockList st' = true) ->
  (fail_logged is_PutBlock st' = true ->
   status st' = Common.TransferStatusFailed \/
   1 <= countZ (fun w => failingV0 (w_pc w)) (workers s)
        - b2z (failingV0 (w_pc w)) + b2z (failingV0 (w_pc w'))) ->
  EarlierFailOk n {| shared := st'; workers := <[i := w']> (workers s) |}.
Proof.
  intros Hef Hl Hmf Hml H1 H2 H3 H4 H5 H6 H7.
  split; cbn [shared workers]; rewrite ?(countZ_insert _ _ _ _ _ Hl); try assumption.
  - intros j x Hj Hx. apply list_lookup_insert_Some in Hj as [(<- & <- & _)|[Hne Hj]].
    + auto.
    + destruct (ef_failing _ _ Hef j x Hj Hx). auto.
  - intros j x Hj Hx. apply list_lookup_insert_Some in Hj as [(<- & <- & _)|[Hne Hj]].
    + auto.
    + apply Hml. apply (ef_place _ _ Hef j x Hj Hx).
Qed.

(** Once the earlier closure has attempted the commit, no put-block has
    failed: a closure whose put-block failed never counts. *)
Lemma earlier_commit_excludes_failure s :
  EarlierOk tape n s -> EarlierFailOk n s ->
  logged is_PutBlockList (shared s) = true ->
  fail_logged is_PutBlock (shared s) = false.
Proof.
  intros Hinv Hef Hlog.
  destruct (fail_logged is_PutBlock (shared s)) eqn:Hf; [|reflexivity]. exfalso.
  pose proof (ef_failed _ _ Hef Hf) as Hone.
  destruct (countZ_exists _ _ Hone) as (j & x & Hj & Hx).
  unfold failedV0 in Hx. apply andb_true_iff in Hx as [Hx _]. apply Z.eqb_eq in Hx.
  pose proof (uncountedV0_below tape n s j x Hinv Hj Hx) as Hb.
  rewrite (ef_listed _ _ Hef Hlog) in Hb. lia.
Qed.

Lemma EarlierFailOk_step s e :
  EarlierOk tape n s -> EarlierFailOk n s ->
  EarlierFailOk n (sys_step worker_stepV0 tape s e).
Proof.
  intros Hinv Hef.
  destruct (sys_step_cases tape worker_stepV0 s e)
    as [-> | [[_ ->] | (i & fails & w & st' & w' & _ & Hnp & Hl & Hend & Hstep & ->)]].
  - assumption.
  - destruct Hef. split; assumption.
  - assert (Hi : (i < n)%nat).
    { rewrite <- (eo_workers _ _ _ Hinv). eapply lookup_lt_Some. eassumption. }
    destruct (eo_id _ _ _ Hinv i w Hl) as [Hid Htot].
    pose proof (eo_observed _ _ _ Hinv i w Hl) as Hobs.
    pose proof (eo_uncounted _ _ _ Hinv i w Hl) as Hunc.
    pose proof (eo_commit _ _ _ Hinv i w Hl) as Hcom.
    pose proof (eo_slots _ _ _ Hinv) as Hslots.
    pose proof (ef_failing _ _ Hef i w Hl) as Hfailing.
    pose proof (ef_place _ _ Hef i w Hl) as Hplace.
    assert (Hcd : w_observed w = 0 -> 0 <= chunksDone (shared s) < Z.of_nat n).
    { apply (uncountedV0_below tape n s i w Hinv Hl). }
    assert (Hcount : uncountedV0 (w_pc w) = true ->
      ChunksDone (shared s)
      = (set_chunksDone (chunksDone (shared s) + 1) (shared s), chunksDone (shared s) + 1)).
    { intros Hu. apply ChunksDone_small. specialize (Hcd (Hunc Hu)). lia. }
    assert (Hstore : forall id, store_blockId (chunkId (w_msg w)) id (shared s)
                       = set_blockIds (<[i := id]> (blockIds (shared s))) (shared s)).
    { intros id. rewrite Hid. apply store_blockId_in_range. lia. }
    pose proof (countZ_bounds failedV0 (workers s)) as Hbf.
    pose proof (countZ_bounds (fun w => failingV0 (w_pc w)) (workers s)) as Hbg.
    pose proof (earlier_commit_excludes_failure s Hinv Hef) as Hexcl.
    assert (Hmax : chunksDone (shared s) <= Z.of_nat n).
    { rewrite (eo_count _ _ _ Hinv), <- (eo_workers _ _ _ Hinv). apply countZ_bounds. }
    pose proof Hef as Hef0.
    destruct Hef as [Hfd _ Hls _ Hum Hcp Hst].
    by_placeV0 Hstep Hcount Hstore Hnp; try congruence;
      rewrite ?Htot in *;
      cbn [uncountedV0 failingV0 committedV0] in *;
      apply (EarlierFailOk_replace s i w _ _ Hef0 Hl); clear Hef0;
      try (intros p Hp; unfold fail_logged, logged in *; cbn; rewrite Hp;
           apply orb_true_r);
      unfold failedV0, fail_logged, logged, Common.TransferStatusFailed,
        Common.TransferStatusComplete in *;
      cbn [status cancelled remote chunksDone unmaps existsb fst snd call set_remote
           set_status set_cancelled set_chunksDone set_transfersDone set_unmaps
           set_blockIds set_currentBytes set_chunkInfo TransferStatus TransferDone
           Unmap TransferCancelFunc updateCurrentBytes updateChunkInfo
           is_PutBlock is_PutBlockList
           w_pc w_observed at_pc with_observed with_blockId with_sawCancel
           andb orb negb b2z failingV0 committedV0] in *;
      rewrite ?Hpc in *;
      cbn [andb orb negb b2z failingV0 committedV0] in *;
      rewrite ?andb_false_r, ?andb_true_r, ?orb_false_r, ?orb_true_r in *;
      try (specialize (Hunc eq_refl); rewrite Hunc in * );
      repeat match goal with
        | H : (_ =? _) = true |- _ => apply Z.eqb_eq in H
        | H : (_ =? _) = false |- _ => apply Z.eqb_neq in H
        | |- context [?a =? ?b] => destruct (Z.eqb_spec a b)
        end;
      cbn [andb orb b2z] in *;
      try (specialize (Hcom eq_refl));
      try (specialize (Hplace eq_refl); specialize (Hexcl Hplace));
      try (intuition (try lia; try congruence); fail).

Qed.

End EarlierFailFacts.

(** ** The later closure: its calls, its commit and the final status *)

Section LaterClosure.

Import GoInt Ste SteCalls.

Variable tape : nat -> list ascii.
Variable n : nat.

(** All the invariants of the later closure hold of every state the workers
    reach. *)
Lemma calls_run sch : forall s,
  Z.of_nat n <= max_uint32 ->
  Reachable tape n s /\ UnmapOk n s /\ PutOk s /\ CommitOk tape n s /\ DecisionOk n s ->
  Reachable tape n (run worker_step tape sch s) /\
  UnmapOk n (run worker_step tape sch s) /\
  PutOk (run worker_step tape sch s) /\
  CommitOk tape n (run worker_step tape sch s) /\
  DecisionOk n (run worker_step tape sch s).
Proof.
  induction sch as [|e sch IH]; intros s n_fits H; [exact H|].
  destruct H as (Hr & Hu & Hp & Hc & Hd). cbn [run fold_left].
  apply IH; [assumption|].
  split; [apply Reachable_step; assumption|].
  split; [apply UnmapOk_step; [assumption|apply (r_count _ _ _ Hr)|assumption]|].
  split; [apply (PutOk_step tape n); [assumption|apply (r_count _ _ _ Hr)
                                     |apply (r_ids _ _ _ Hr)|assumption]|].
  split; [apply CommitOk_step; assumption|].
  apply (DecisionOk_step tape n); [assumption|apply (r_count _ _ _ Hr)
                                  |apply (r_ids _ _ _ Hr)|assumption].
Qed.

Lemma calls_from_start s0 sch :
  Z.of_nat n <= max_uint32 -> all_scheduled n s0 ->
  Reachable tape n (run worker_step tape sch s0) /\
  UnmapOk n (run worker_step tape sch s0) /\
  PutOk (run worker_step tape sch s0) /\
  CommitOk tape n (run worker_step tape sch s0) /\
  DecisionOk n (run worker_step tape sch s0).
Proof.
  intros n_fits H. apply calls_run; [assumption|].
  split; [apply Reachable_start; assumption|].
  split; [apply UnmapOk_start; assumption|].
  split; [apply (PutOk_start n); assumption|].
  split; [apply CommitOk_start; assumption|].
  apply DecisionOk_start; assumption.
Qed.

Lemma countZ_split f ws :
  countZ f ws + countZ (fun w => negb (f w)) ws = Z.of_nat (length ws).
Proof.
  induction ws as [|w ws IH]; [reflexivity|].
  cbn [countZ length]. destruct (f w); cbn [negb b2z]; lia.
Qed.

Lemma countZ_ext f g ws :
  (forall i w, ws !! i = Some w -> f w = g w) -> countZ f ws = countZ g ws.
Proof.
  induction ws as [|w ws IH]; intros H; [reflexivity|].
  cbn [countZ]. rewrite (H 0%nat w eq_refl), IH; [reflexivity|].
  intros i x Hx. apply (H (S i) x Hx).
Qed.

(** At most one closure found the counter equal to the total. *)
Lemma last_at_most_one s (g : Worker -> bool) :
  Z.of_nat n <= max_uint32 -> CountOk n s ->
  countZ (fun w => is_last (Z.of_nat n) w && g w) (workers s) <= 1.
Proof.
  intros n_fits Hc.
  destruct (Nat.eq_dec n 0%nat) as [->|Hn].
  - pose proof (countZ_bounds (fun w => is_last (Z.of_nat 0) w && g w) (workers s)) as Hb.
    rewrite (co_workers _ _ Hc) in Hb. lia.
  - assert (countZ (fun w => is_last (Z.of_nat n) w && g w) (workers s)
            <= countZ (is_last (Z.of_nat n)) (workers s)).
    { apply countZ_le. intros j x Hj Hx. apply andb_true_iff in Hx. tauto. }
    rewrite (co_observed _ _ Hc) in * by lia.
    pose proof (b2z_range (Z.of_nat n <=? chunksDone (shared s))). lia.
Qed.

(** The calls that put a block list, counted. *)
Lemma block_lists_at_most_one s :
  Z.of_nat n <= max_uint32 -> Reachable tape n s -> CommitOk tape n s ->
  countOps is_PutBlockList (remote (shared s)) <= 1.
Proof.
  intros n_fits Hr Hc.
  eapply Z.le_trans; [apply (cm_count _ _ _ Hc)|].
  apply last_at_most_one; [assumption|]. apply (r_count _ _ _ Hr).
Qed.

(** When all closures have returned, each has skipped its chunk or put its
    block. *)
Lemma puts_and_skips s :
  Reachable tape n s -> PutOk s -> finished s ->
  countOps is_PutBlock (remote (shared s)) + countZ w_sawCancel (workers s) = Z.of_nat n.
Proof.
  intros Hr Hp Hfin. pose proof (r_count _ _ _ Hr) as Hco.
  rewrite (pk_count _ Hp), <- (co_workers _ _ Hco).
  rewrite <- (countZ_split w_sawCancel (workers s)).
  rewrite Z.add_comm. f_equal.
  apply countZ_ext. intros i w Hl. unfold put_done. rewrite (Hfin i w Hl).
  apply andb_true_r.
Qed.

(** X5: the commit is attempted at most once; the file is unmapped at most once,
    and only by the closure that marked the transfer done, after it did; and
    every closure makes at most one put-block call: when all have returned,
    each has either skipped its chunk or put its block. *)
Theorem commit_and_unmap_at_most_once s0 sch :
  Z.of_nat n <= max_uint32 ->
  all_scheduled n s0 ->
  countOps is_PutBlockList (remote (shared (run worker_step tape sch s0))) <= 1 /\
  (length (unmaps (shared (run worker_step tape sch s0)))
   <= length (transfersDone (shared (run worker_step tape sch s0))))%nat /\
  (length (transfersDone (shared (run worker_step tape sch s0))) <= 1)%nat /\
  (forall who, In who (unmaps (shared (run worker_step tape sch s0))) ->
               In who (transfersDone (shared (run worker_step tape sch s0)))) /\
  countOps is_PutBlock (remote (shared (run worker_step tape sch s0))) <= Z.of_nat n /\
  (finished (run worker_step tape sch s0) ->
   countOps is_PutBlock (remote (shared (run worker_step tape sch s0)))
   + countZ w_sawCancel (workers (run worker_step tape sch s0)) = Z.of_nat n).
Proof.
  intros n_fits Hstart.
  destruct (calls_from_start s0 sch n_fits Hstart) as (Hr & Hu & Hp & Hc & Hd).
  set (s := run worker_step tape sch s0) in *.
  pose proof (r_count _ _ _ Hr) as Hco.
  split; [apply block_lists_at_most_one; assumption|].
  split.
  { apply Nat2Z.inj_le. eapply Z.le_trans; [apply (um_count _ _ Hu)|].
    rewrite (do_count _ _ (r_done _ _ _ Hr)).
    apply countZ_le. intros j x Hj Hx. apply andb_true_iff in Hx as [H1 H2].
    rewrite H1. destruct (w_pc x); try discriminate. reflexivity. }
  split; [eapply done_at_most_once; eassumption|].
  split; [apply (um_done _ _ Hu)|].
  split.
  { rewrite (pk_count _ Hp), <- (co_workers _ _ Hco). apply countZ_bounds. }
  intros Hfin. apply puts_and_skips; assumption.
Qed.

(** X6: the status is Complete only after a commit that did not fail, of the
    ids of all chunks in their order, when no call on the service has failed;
    and when all closures have returned after such a commit the status is
    Complete. *)
Theorem complete_means_committed s0 sch :
  Z.of_nat n <= max_uint32 ->
  all_scheduled n s0 ->
  (status (shared (run worker_step tape sch s0)) = Common.TransferComplete ->
   In (OpPutBlockList (map (fun i => BlockId.encodedBlockId (tape i)) (seq 0 n)), false)
      (remote (shared (run worker_step tape sch s0))) /\
   fail_logged is_PutBlock (shared (run worker_step tape sch s0)) = false /\
   fail_logged is_PutBlockList (shared (run worker_step tape sch s0)) = false) /\
  (finished (run worker_step tape sch s0) ->
   ok_logged is_PutBlockList (shared (run worker_step tape sch s0)) = true ->
   status (shared (run worker_step tape sch s0)) = Common.TransferComplete).
Proof.
  intros n_fits Hstart.
  destruct (calls_from_start s0 sch n_fits Hstart) as (Hr & Hu & Hp & Hc & Hd).
  set (s := run worker_step tape sch s0) in *.
  split.
  - intros Hst. pose proof (cm_complete _ _ _ Hc Hst) as Hok.
    pose proof Hok as Hok'.
    unfold ok_logged in Hok'. apply existsb_exists in Hok' as ([op f] & Hin & Hx).
    apply andb_true_iff in Hx as [Hop Hf]. cbn in Hf. destruct f; [discriminate|].
    destruct op as [| ids |]; try discriminate.
    rewrite (io_logged _ _ _ (r_ids _ _ _ Hr) ids false Hin) in Hin.
    split; [exact Hin|]. split.
    + apply (cm_exclusive _ _ _ Hc). apply ok_logged_logged, Hok.
    + destruct (fail_logged is_PutBlockList (shared s)) eqn:Hfl; [|reflexivity]. exfalso.
      pose proof (countOps_two is_PutBlockList (remote (shared s)) Hfl Hok) as H2.
      pose proof (cm_count _ _ _ Hc) as Hle.
      pose proof (last_at_most_one s (fun w => past_commit (w_pc w)) n_fits (r_count _ _ _ Hr)).
      lia.
  - intros Hfin Hok. destruct (cm_committed _ _ _ Hc Hok) as [H|H]; [exact H|].
    rewrite countZ_none in H; [lia|].
    intros i w Hl. rewrite (Hfin i w Hl). reflexivity.
Qed.

(** X7: every id of a block list that is put is the id under which the closure
    of that chunk has put its block, with the range of that chunk and without
    failure; and every put-block in the log is the call of the closure of
    some chunk, under the id of that chunk. *)
Theorem committed_blocks_were_put s0 sch :
  Z.of_nat n <= max_uint32 ->
  all_scheduled n s0 ->
  (forall ids f,
     In (OpPutBlockList ids, f) (remote (shared (run worker_step tape sch s0))) ->
     forall i, (i < n)%nat ->
     exists w,
       workers (run worker_step tape sch s0) !! i = Some w /\
       ids !! i = Some (BlockId.encodedBlockId (tape i)) /\
       In (OpPutBlock (BlockId.encodedBlockId (tape i)) (startIndex (w_msg w))
             (chunkSize (w_msg w)), false)
          (remote (shared (run worker_step tape sch s0)))) /\
  (forall id off sz f,
     In (OpPutBlock id off sz, f) (remote (shared (run worker_step tape sch s0))) ->
     exists i w,
       workers (run worker_step tape sch s0) !! i = Some w /\
       id = BlockId.encodedBlockId (tape i) /\
       off = startIndex (w_msg w) /\ sz = chunkSize (w_msg w)).
Proof.
  intros n_fits Hstart.
  destruct (calls_from_start s0 sch n_fits Hstart) as (Hr & Hu & Hp & Hc & Hd).
  set (s := run worker_step tape sch s0) in *.
  split.
  - intros ids f Hin i Hi.
    destruct (lookup_lt_is_Some_2 (workers s) i) as [w Hl].
    { rewrite (co_workers _ _ (r_count _ _ _ Hr)). assumption. }
    exists w. split; [assumption|]. split.
    + rewrite (io_logged _ _ _ (r_ids _ _ _ Hr) ids f Hin).
      rewrite list_lookup_fmap, lookup_seq_lt by assumption. reflexivity.
    + apply (cm_blocks _ _ _ Hc ids f Hin i w Hl).
  - intros id off sz f Hin.
    destruct (pk_whose _ Hp id off sz f Hin) as (i & w & Hl & Hput & Heq).
    exists i, w. split; [assumption|].
    unfold put_of in Heq. injection Heq as -> -> ->.
    split; [|split; reflexivity].
    apply (io_drawn _ _ _ (r_ids _ _ _ Hr) i w Hl).
    unfold put_done in Hput. unfold drawn.
    apply andb_true_iff in Hput as [-> Hplace]. cbn.
    destruct (w_pc w); try discriminate; reflexivity.
Qed.

(** X8: after a put-block has failed no block list is ever put and the status
    is never Complete; when all closures have returned the token is tripped
    and the status is Failed. *)
Theorem failed_block_never_commits s0 sch :
  Z.of_nat n <= max_uint32 ->
  all_scheduled n s0 ->
  fail_logged is_PutBlock (shared (run worker_step tape sch s0)) = true ->
  logged is_PutBlockList (shared (run worker_step tape sch s0)) = false /\
  status (shared (run worker_step tape sch s0)) <> Common.TransferComplete /\
  (finished (run worker_step tape sch s0) ->
   status (shared (run worker_step tape sch s0)) = Common.TransferFailed /\
   cancelled (shared (run worker_step tape sch s0)) = true).
Proof.
  intros n_fits Hstart Hfail.
  destruct (calls_from_start s0 sch n_fits Hstart) as (Hr & Hu & Hp & Hc & Hd).
  set (s := run worker_step tape sch s0) in *.
  assert (Hno : logged is_PutBlockList (shared s) = false).
  { destruct (logged is_PutBlockList (shared s)) eqn:Hl; [|reflexivity].
    rewrite (cm_exclusive _ _ _ Hc Hl) in Hfail. discriminate. }
  split; [assumption|]. split.
  - intros Hst. pose proof (cm_complete _ _ _ Hc Hst) as Hok.
    apply ok_logged_logged in Hok. congruence.
  - intros Hfin. split.
    + destruct (cm_block_failed _ _ _ Hc Hfail) as [H|H]; [exact H|].
      rewrite countZ_none in H; [lia|].
      intros i w Hl. rewrite (Hfin i w Hl). reflexivity.
    + destruct (so_block_failed _ _ (r_status _ _ _ Hr) Hfail) as [H|H]; [exact H|].
      rewrite countZ_none in H; [lia|].
      intros i w Hl. rewrite (Hfin i w Hl). reflexivity.
Qed.

(** X9: the status is InProgress, Complete or Failed; once it is Complete or
    Failed no step changes it; and when all closures have returned after a
    commit that failed it is Failed. *)
Theorem later_status_is_final s0 sch :
  Z.of_nat n <= max_uint32 ->
  all_scheduled n s0 ->
  (status (shared (run worker_step tape sch s0)) = Common.TransferInProgress \/
   status (shared (run worker_step tape sch s0)) = Common.TransferComplete \/
   status (shared (run worker_step tape sch s0)) = Common.TransferFailed) /\
  (forall e,
     Common.is_terminal (status (shared (run worker_step tape sch s0))) = true ->
     status (shared (sys_step worker_step tape (run worker_step tape sch s0) e))
     = status (shared (run worker_step tape sch s0))) /\
  (forall sch',
     Common.is_terminal (status (shared (run worker_step tape sch s0))) = true ->
     status (shared (run worker_step tape (sch ++ sch') s0))
     = status (shared (run worker_step tape sch s0))) /\
  (finished (run worker_step tape sch s0) ->
   fail_logged is_PutBlockList (shared (run worker_step tape sch s0)) = true ->
   status (shared (run worker_step tape sch s0)) = Common.TransferFailed).
Proof.
  intros n_fits Hstart.
  pose proof (Reachable_run tape n n_fits sch s0 (Reachable_start tape n s0 Hstart)) as Hr.
  split; [apply (so_range _ _ (r_status _ _ _ Hr))|].
  split; [intros e; apply (status_terminal_stable tape n n_fits); assumption|].
  split.
  - intros sch'. induction sch' as [|e sch' IH] using rev_ind; intros Hterm.
    + rewrite app_nil_r. reflexivity.
    + rewrite app_assoc, run_snoc.
      rewrite <- (IH Hterm) in Hterm |- *.
      apply (status_terminal_stable tape n n_fits); [|assumption].
      rewrite run_app. apply Reachable_run; assumption.
  - intros Hfin Hfl. eapply list_failure_fails_transfer; eassumption.
Qed.

(** X10: when all closures have returned and the token was never tripped, every
    closure has put its block and the block list was put: the status is
    Complete if that call did not fail and Failed if it did. *)
Theorem uncancelled_upload_commits s0 sch :
  Z.of_nat n <= max_uint32 -> (0 < n)%nat ->
  all_scheduled n s0 ->
  finished (run worker_step tape sch s0) ->
  cancelled (shared (run worker_step tape sch s0)) = false ->
  countOps is_PutBlock (remote (shared (run worker_step tape sch s0))) = Z.of_nat n /\
  fail_logged is_PutBlock (shared (run worker_step tape sch s0)) = false /\
  countOps is_PutBlockList (remote (shared (run worker_step tape sch s0))) = 1 /\
  ((ok_logged is_PutBlockList (shared (run worker_step tape sch s0)) = true /\
    status (shared (run worker_step tape sch s0)) = Common.TransferComplete) \/
   (fail_logged is_PutBlockList (shared (run worker_step tape sch s0)) = true /\
    status (shared (run worker_step tape sch s0)) = Common.TransferFailed)).
Proof.
  intros n_fits Hn Hstart Hfin Hcan.
  destruct (calls_from_start s0 sch n_fits Hstart) as (Hr & Hu & Hp & Hc & Hd).
  set (s := run worker_step tape sch s0) in *.
  pose proof (block_lists_at_most_one s n_fits Hr Hc) as Hone.
  pose proof (puts_and_skips s Hr Hp) as Hputs.
  assert (Hnoskip : countZ w_sawCancel (workers s) = 0).
  { apply countZ_none. intros i w Hl. destruct (w_sawCancel w) eqn:E; [|reflexivity].
    pose proof (io_skip _ _ _ (r_ids _ _ _ Hr) i w Hl E). congruence. }
  split; [specialize (Hputs Hfin); lia|].
  assert (Hnofail : fail_logged is_PutBlock (shared s) = false).
  { destruct (fail_logged is_PutBlock (shared s)) eqn:Hf; [|reflexivity].
    destruct (so_block_failed _ _ (r_status _ _ _ Hr) Hf) as [H|H]; [congruence|].
    rewrite countZ_none in H; [lia|].
    intros i w Hl. rewrite (Hfin i w Hl). reflexivity. }
  split; [assumption|].
  destruct (finished_once tape n s Hr Hn Hfin) as (_ & i & w & Hl & Hobs & _).
  assert (Hlog : logged is_PutBlockList (shared s) = true).
  { destruct (dc_decided _ _ Hd i w Hl) as [H|H]; [|exact H|congruence].
    unfold is_last. rewrite Hobs, Z.eqb_refl, (Hfin i w Hl). reflexivity. }
  split; [pose proof (countOps_logged _ _ Hlog); lia|].
  pose proof Hlog as Hlog'. unfold logged in Hlog'.
  apply existsb_exists in Hlog' as ([op f] & Hin & Hop).
  destruct f.
  - right.
    assert (Hfl : fail_logged is_PutBlockList (shared s) = true).
    { unfold fail_logged. apply (existsb_In _ _ _ Hin). rewrite Hop. reflexivity. }
    split; [assumption|]. eapply list_failure_fails_transfer; eassumption.
  - left.
    assert (Hok : ok_logged is_PutBlockList (shared s) = true).
    { unfold ok_logged. apply (existsb_In _ _ _ Hin). rewrite Hop. reflexivity. }
    split; [assumption|].
    destruct (cm_committed _ _ _ Hc Hok) as [H|H]; [exact H|].
    rewrite countZ_none in H; [lia|].
    intros j x Hj. rewrite (Hfin j x Hj). reflexivity.
Qed.

(** X11: in the earlier closure a failed put-block ends the transfer for good: the
    closure returns without counting, so the counter stays below the total,
    no block list is ever put, the file is never unmapped and the status is
    never Complete; when all closures have returned it is Failed. *)
Theorem earlier_failure_never_commits s0 sch :
  Z.of_nat n <= max_uint32 ->
  all_scheduled n s0 ->
  fail_logged is_PutBlock (shared (run worker_stepV0 tape sch s0)) = true ->
  chunksDone (shared (run worker_stepV0 tape sch s0)) < Z.of_nat n /\
  logged is_PutBlockList (shared (run worker_stepV0 tape sch s0)) = false /\
  unmaps (shared (run worker_stepV0 tape sch s0)) = [] /\
  status (shared (run worker_stepV0 tape sch s0)) <> Common.TransferStatusComplete /\
  (finished (run worker_stepV0 tape sch s0) ->
   status (shared (run worker_stepV0 tape sch s0)) = Common.TransferStatusFailed).
Proof.
  intros n_fits Hstart Hfail.
  assert (Hinv : EarlierOk tape n (run worker_stepV0 tape sch s0) /\
                 EarlierFailOk n (run worker_stepV0 tape sch s0)).
  { assert (H0 : EarlierOk tape n s0 /\ EarlierFailOk n s0).
    { split; [apply EarlierOk_start|apply EarlierFailOk_start]; assumption. }
    clear Hstart Hfail. revert s0 H0.
    induction sch as [|e sch IH]; intros s0 [H1 H2]; [split; assumption|].
    cbn [run fold_left]. apply IH. split.
    - apply EarlierOk_step; assumption.
    - apply (EarlierFailOk_step tape); assumption. }
  destruct Hinv as [Hinv Hef].
  set (s := run worker_stepV0 tape sch s0) in *.
  assert (Hno : logged is_PutBlockList (shared s) = false).
  { destruct (logged is_PutBlockList (shared s)) eqn:Hl; [|reflexivity].
    rewrite (earlier_commit_excludes_failure tape n s Hinv Hef Hl) in Hfail.
    discriminate. }
  split.
  { pose proof (ef_failed _ _ Hef Hfail) as Hone.
    destruct (countZ_exists _ _ Hone) as (j & x & Hj & Hx).
    unfold failedV0 in Hx. apply andb_true_iff in Hx as [Hx _]. apply Z.eqb_eq in Hx.
    apply (uncountedV0_below tape n s j x Hinv Hj Hx). }
  split; [assumption|]. split.
  { destruct (unmaps (shared s)) eqn:Hu; [reflexivity|].
    assert (Hne : unmaps (shared s) <> []) by (rewrite Hu; discriminate).
    pose proof (ef_unmapped _ _ Hef Hne). congruence. }
  split.
  { intros Hst. pose proof (ef_complete _ _ Hef Hst). congruence. }
  intros Hfin. destruct (ef_status _ _ Hef Hfail) as [H|H]; [exact H|].
  rewrite countZ_none in H; [lia|].
  intros i w Hl. rewrite (Hfin i w Hl). reflexivity.
Qed.

End LaterClosure.

(** The upload of ten MiB, and two chunks of which the first fails. *)
Lemma commit_and_unmap_at_most_once_witness :
  SteCalls.countOps Ste.is_PutBlockList
    (Ste.remote (Ste.shared (Ste.run Ste.worker_step Ste.sample_tape Ste.three_in_turn
                               Ste.ten_MiB_upload))) <= 1.
Proof.
  destruct (commit_and_unmap_at_most_once Ste.sample_tape 3 Ste.ten_MiB_upload
              Ste.three_in_turn) as (H & _).
  - vm_compute. discriminate.
  - exact ten_MiB_scheduled.
  - exact H.
Defined.

Lemma complete_means_committed_witness :
  Ste.fail_logged Ste.is_PutBlock
    (Ste.shared (Ste.run Ste.worker_step Ste.sample_tape Ste.three_in_turn
                   Ste.ten_MiB_upload)) = false.
Proof.
  destruct (complete_means_committed Ste.sample_tape 3 Ste.ten_MiB_upload
              Ste.three_in_turn) as (H & _).
  - vm_compute. discriminate.
  - exact ten_MiB_scheduled.
  - destruct H as (_ & Hno & _); [reflexivity|exact Hno].
Defined.

Lemma committed_blocks_were_put_witness :
  exists w,
    Ste.workers (Ste.run Ste.worker_step Ste.sample_tape Ste.three_in_turn
                   Ste.ten_MiB_upload) !! 2%nat = Some w /\
    In (Ste.OpPutBlock (BlockId.encodedBlockId (Ste.sample_tape 2))
          (Ste.startIndex (Ste.w_msg w)) (Ste.chunkSize (Ste.w_msg w)), false)
       (Ste.remote (Ste.shared (Ste.run Ste.worker_step Ste.sample_tape Ste.three_in_turn
                                  Ste.ten_MiB_upload))).
Proof.
  destruct (committed_blocks_were_put Ste.sample_tape 3 Ste.ten_MiB_upload
              Ste.three_in_turn) as (H & _).
  - vm_compute. discriminate.
  - exact ten_MiB_scheduled.
  - destruct (H (map (fun i => BlockId.encodedBlockId (Ste.sample_tape i)) (seq 0 3)) false)
      with (i := 2%nat) as (w & Hl & _ & Hin).
    + vm_compute. left. reflexivity.
    + lia.
    + exists w. split; [exact Hl | exact Hin].
Defined.

Lemma failed_block_never_commits_witness :
  Ste.logged Ste.is_PutBlockList
    (Ste.shared (Ste.run Ste.worker_step Ste.sample_tape SteCalls.first_fails
                   (Ste.start Ste.two_chunks Ste.two_slots))) = false.
Proof.
  destruct (failed_block_never_commits Ste.sample_tape 2
              (Ste.start Ste.two_chunks Ste.two_slots) SteCalls.first_fails) as (H & _).
  - vm_compute. discriminate.
  - exact two_chunks_scheduled.
  - reflexivity.
  - exact H.
Defined.

Lemma later_status_is_final_witness :
  Ste.status
    (Ste.shared (Ste.run Ste.worker_step Ste.sample_tape
                   (Ste.three_in_turn ++ [Ste.ECancel; Ste.ERun 0 true])
                   Ste.ten_MiB_upload))
  = Ste.status
      (Ste.shared (Ste.run Ste.worker_step Ste.sample_tape Ste.three_in_turn
                     Ste.ten_MiB_upload)).
Proof.
  destruct (later_status_is_final Ste.sample_tape 3 Ste.ten_MiB_upload
              Ste.three_in_turn) as (_ & _ & H & _).
  - vm_compute. discriminate.
  - exact ten_MiB_scheduled.
  - apply H. reflexivity.
Defined.

Lemma uncancelled_upload_commits_witness :
  SteCalls.countOps Ste.is_PutBlock
    (Ste.remote (Ste.shared (Ste.run Ste.worker_step Ste.sample_tape Ste.three_in_turn
                               Ste.ten_MiB_upload))) = 3.
Proof.
  destruct (uncancelled_upload_commits Ste.sample_tape 3 Ste.ten_MiB_upload
              Ste.three_in_turn) as (H & _).
  - vm_compute. discriminate.
  - lia.
  - exact ten_MiB_scheduled.
  - intros i w Hl.
    destruct i as [|[|[|i]]]; vm_compute in Hl; inversion Hl; reflexivity.
  - reflexivity.
  - exact H.
Defined.

Lemma earlier_failure_never_commits_witness :
  Ste.unmaps
    (Ste.shared (Ste.run Ste.worker_stepV0 Ste.sample_tape SteCalls.first_fails
                   (Ste.start Ste.two_chunks Ste.two_slots))) = [].
Proof.
  destruct (earlier_failure_never_commits Ste.sample_tape 2
              (Ste.start Ste.two_chunks Ste.two_slots) SteCalls.first_fails)
    as (_ & _ & H & _).
  - vm_compute. discriminate.
  - exact two_chunks_scheduled.
  - reflexivity.
  - exact H.
Defined.

(** ** The HTTP client and its callers *)

Section HttpFacts.

Import Handlers Http.

Context {UUID : Type}.
Variable marshals : UUID -> bool.
Variable do : Request UUID -> Done.
Variable ParseUUID : string -> option UUID.
Variable show : Z -> string.
Variable showUUID : UUID -> string.

(** What [post] does, by what [client.Do] returns. *)
Lemma post_cases verb success jobId :
  let rq := {| rq_commandType := verb; rq_payload := jobId |} in
  let run := post marshals do show showUUID verb success jobId in
  (marshals jobId = false ->
   run = {| posted := []; lines := [marshal_line verb];
            ended := Some nil_dereference |}) /\
  (forall err, marshals jobId = true -> do rq = Failed err None ->
   run = {| posted := [rq]; lines := [send_error_line url err];
            ended := Some nil_dereference |}) /\
  (forall a, marshals jobId = true ->
     do rq = Answered a \/ (exists err, do rq = Failed err (Some a)) ->
     posted run = [rq] /\
     (an_bodyReads a = false <-> ended run <> None) /\
     (In (success_line showUUID jobId success) (lines run) <->
      an_bodyReads a = true /\ StatusCode (an_resp a) = StatusAccepted) /\
     (In (failure_line (an_resp a)) (lines run) <->
      an_bodyReads a = true /\ StatusCode (an_resp a) <> StatusAccepted)).
Proof.
  intros rq run. subst run. unfold post, Send. fold rq.
  split; [intros ->; reflexivity|].
  split; [intros err -> ->; reflexivity|].
  intros a -> Hdo. cbn [negb].
  assert (Hlines : exists line,
            (line = status_line show a \/ exists err, line = send_error_line url err) /\
            match do rq with
            | Answered a0 => (Some a0, [rq], [status_line show a0])
            | Failed err resp => (resp, [rq], [send_error_line url err])
            end = (Some a, [rq], [line])).
  { destruct Hdo as [-> | [err ->]]; eexists; (split; [|reflexivity]); eauto. }
  destruct Hlines as (line & Hline & ->).
  assert (Hs : line <> success_line showUUID jobId success).
  { destruct Hline as [-> | [err ->]]; discriminate. }
  assert (Hf : line <> failure_line (an_resp a)).
  { destruct Hline as [-> | [err ->]]; unfold status_line, send_error_line, failure_line;
      cbn; intros [= H]. }
  assert (Hsf : failure_line (an_resp a) <> success_line showUUID jobId success)
    by discriminate.
  destruct (an_bodyReads a); cbn [negb].
  - destruct (Z.eqb_spec (StatusCode (an_resp a)) StatusAccepted) as [E|E]; cbn [negb];
      cbn [posted lines ended app In].
    + split; [reflexivity|]. split; [split; [discriminate|congruence]|].
      split; [tauto|]. split; [|tauto].
      intros [H|[H|[]]]; [congruence|]. symmetry in H. contradiction.
    + split; [reflexivity|]. split; [split; [discriminate|congruence]|].
      split; [|tauto]. split; [|tauto].
      intros [H|[H|[]]]; congruence.
  - cbn [posted lines ended In].
    split; [reflexivity|]. split; [split; [discriminate|reflexivity]|].
    split; (split; [intros [H|[]]; congruence | intros [H _]; discriminate]).
Qed.

(** X12: when the payload cannot be marshalled, or the request fails without a
    response, [Send] returns a nil response and each of cancel, pause and
    resume panics on it, having printed only the line of [Send].  With a
    response the handler has posted exactly one request, cancel with the verb
    "cancel", pause and resume both with the verb "resume"; it panics exactly
    when the body cannot be read; it prints its line of success exactly when
    the body is read and the status code is 202, and the line of the failed
    request exactly when the body is read and the code is another. *)
Theorem handlers_on_a_nil_response jobIdString jobId :
  ParseUUID jobIdString = Some jobId ->
  let behaves (h : string -> Run UUID) (verb success : string) :=
    let rq := {| rq_commandType := verb; rq_payload := jobId |} in
    (marshals jobId = false ->
     h jobIdString
     = {| posted := []; lines := [marshal_line verb];
          ended := Some nil_dereference |}) /\
    (forall err, marshals jobId = true -> do rq = Failed err None ->
     h jobIdString
     = {| posted := [rq]; lines := [send_error_line url err];
          ended := Some nil_dereference |}) /\
    (forall a, marshals jobId = true ->
       do rq = Answered a \/ (exists err, do rq = Failed err (Some a)) ->
       posted (h jobIdString) = [rq] /\
       (an_bodyReads a = false <-> ended (h jobIdString) <> None) /\
       (In (success_line showUUID jobId success) (lines (h jobIdString)) <->
        an_bodyReads a = true /\ StatusCode (an_resp a) = StatusAccepted) /\
       (In (failure_line (an_resp a)) (lines (h jobIdString)) <->
        an_bodyReads a = true /\ StatusCode (an_resp a) <> StatusAccepted)) in
  behaves (HandleCancelCommand marshals do ParseUUID show showUUID) "cancel"%string
          " cancelled successfully"%string /\
  behaves (HandlePauseCommand marshals do ParseUUID show showUUID) "resume"%string
          " paused successfully"%string /\
  behaves (HandleResumeCommand marshals do ParseUUID show showUUID) "resume"%string
          " resume successfully"%string.
Proof.
  intros Hparse. cbv zeta.
  unfold HandleCancelCommand, HandlePauseCommand, HandleResumeCommand.
  rewrite Hparse.
  split; [|split]; apply post_cases.
Qed.

(** X13: [sendJobPartOrderToSTE] does not look at the status code: whatever the
    engine answers, if it answers and the body can be read, the function
    returns, having posted the order once with the verb "copy" and printed
    only the status code; when the request fails without a response it
    panics on the nil response. *)
Theorem order_is_posted_unchecked payload :
  marshals payload = true ->
  let rq := {| rq_commandType := "copy"; rq_payload := payload |} in
  let run := sendJobPartOrderToSTE marshals do show payload in
  posted run = [rq] /\
  (forall a, do rq = Answered a -> an_bodyReads a = true ->
     ended run = None /\ lines run = [status_line show a]) /\
  (forall err, do rq = Failed err None -> ended run = Some nil_dereference).
Proof.
  intros Hm rq run. subst run. unfold sendJobPartOrderToSTE, Send.
  rewrite Hm. cbn [negb]. fold rq.
  destruct (do rq) as [a|err [a|]].
  - split; [destruct (an_bodyReads a); reflexivity|].
    split; [|discriminate]. intros a' [= <-] ->. split; reflexivity.
  - split; [destruct (an_bodyReads a); reflexivity|].
    split; discriminate.
  - split; [reflexivity|]. split; [discriminate|reflexivity].
Qed.

End HttpFacts.

(** The engine cannot be reached: the cancel command panics. *)
Lemma handlers_on_a_nil_response_witness :
  Http.ended (Http.HandleCancelCommand (fun _ => true) Http.unreachable Some
                (fun _ => "202"%string) id "job-1")
  = Some Http.nil_dereference.
Proof.
  destruct (handlers_on_a_nil_response (fun _ => true) Http.unreachable Some
              (fun _ => "202"%string) id "job-1" "job-1" eq_refl) as ((_ & H & _) & _).
  rewrite (H _ eq_refl eq_refl). reflexivity.
Defined.

(** The engine rejects the order: the function returns all the same. *)
Lemma order_is_posted_unchecked_witness :
  Http.ended (Http.sendJobPartOrderToSTE (fun _ => true) Http.rejecting
                (fun _ => "400"%string) "order") = None.
Proof.
  destruct (order_is_posted_unchecked (fun _ => true) Http.rejecting
              (fun _ => "400"%string) "order" eq_refl)
    as (_ & H & _).
  exact (proj1 (H _ eq_refl eq_refl)).
Defined.

(** ** The list command *)

Section ListCommandFacts.

Import Handlers ListCommand.

Variable show : Z -> string.
Variable showb : bool -> string.
Variable Unmarshal_jobs : string -> option (list string).
Variable Unmarshal_transfers : string -> option (list TransferStatus).
Variable Unmarshal_summary : string -> option JobProgressSummary.
Variable get : ListJobPartsTransfers -> option Http.Answer.

Lemma named_code t :
  named t = true ->
  Common.TransferStatusCodeToString (TransferStatus_ t)
  = Ret (status_name (TransferStatus_ t)).
Proof.
  unfold named, status_name, Common.TransferStatusCodeToString. intros H.
  destruct (TransferStatus_ t =? 0); [reflexivity|].
  destruct (TransferStatus_ t =? 1); [reflexivity|].
  destruct (TransferStatus_ t =? 2); [reflexivity|].
  destruct (TransferStatus_ t =? 255); [reflexivity|discriminate].
Qed.

Lemma unnamed_code t :
  named t = false ->
  panics (Common.TransferStatusCodeToString (TransferStatus_ t)) = true.
Proof.
  unfold named, Common.TransferStatusCodeToString. intros H.
  destruct (TransferStatus_ t =? 0); [discriminate|].
  destruct (TransferStatus_ t =? 1); [discriminate|].
  destruct (TransferStatus_ t =? 2); [discriminate|].
  destruct (TransferStatus_ t =? 255); [discriminate|reflexivity].
Qed.

Lemma print_transfers_prefix good : forall rest,
  forallb named good = true ->
  out (print_transfers (good ++ rest))
  = map line_of good ++ out (print_transfers rest) /\
  panic (print_transfers (good ++ rest)) = panic (print_transfers rest).
Proof.
  induction good as [|t good IH]; intros rest Hg; [split; reflexivity|].
  cbn [forallb] in Hg. apply andb_true_iff in Hg as [Ht Hg].
  cbn [app print_transfers]. rewrite (named_code t Ht).
  destruct (IH rest Hg) as [Ho Hp]. cbn. rewrite Ho, Hp. split; reflexivity.
Qed.

(** X14: [PrintJobTransfers] prints its header and then a line for each transfer,
    in order, up to the first transfer whose status code has no name (any
    code but 0, 1, 2 and 255): there it panics, and the transfers from that
    one on are not printed.  With names for all codes it prints them all and
    returns. *)
Theorem transfers_printed_up_to_unnamed_code data jobId transfers :
  Unmarshal_transfers data = Some transfers ->
  (forallb named transfers = true ->
   PrintJobTransfers Unmarshal_transfers data jobId
   = {| out := transfers_header jobId :: map line_of transfers; panic := None |}) /\
  (forall good t rest,
     transfers = good ++ t :: rest ->
     forallb named good = true -> named t = false ->
     out (PrintJobTransfers Unmarshal_transfers data jobId)
     = transfers_header jobId :: map line_of good /\
     panic (PrintJobTransfers Unmarshal_transfers data jobId) <> None).
Proof.
  intros Hparse. unfold PrintJobTransfers. rewrite Hparse. split.
  - intros Hall.
    destruct (print_transfers_prefix transfers [] Hall) as [Ho Hp].
    rewrite app_nil_r in Ho, Hp. cbn in Ho, Hp. rewrite app_nil_r in Ho.
    unfold printed_then. rewrite Ho, Hp. reflexivity.
  - intros good t rest -> Hgood Hbad.
    destruct (print_transfers_prefix good (t :: rest) Hgood) as [Ho Hp].
    unfold printed_then. cbn [out panic]. rewrite Ho, Hp.
    cbn [print_transfers].
    pose proof (unnamed_code t Hbad) as Hpanic.
    destruct (Common.TransferStatusCodeToString (TransferStatus_ t)); [discriminate|].
    cbn. rewrite app_nil_r. split; [reflexivity|discriminate].
Qed.

(** X15: the list command sends at most one request, and none when the status
    filter is not a status string; the order it sends carries the job id and
    the code of the filter, 255 without a filter; unless the engine answers
    with status 202 it panics; and with an empty job id it prints the list of
    jobs whether or not a filter was given. *)
Theorem list_command_requests input :
  let run := HandleListCommand show showb Unmarshal_jobs Unmarshal_transfers
               Unmarshal_summary get input in
  (panics (HandleListCommand_order input) = true ->
   fst run = [] /\ out (snd run) = [] /\ panic (snd run) <> None) /\
  (forall order, HandleListCommand_order input = Ret order ->
     fst run = [order] /\
     lo_JobId order = lc_JobId input /\
     (lc_TransferStatus input = EmptyString -> lo_ExpectedTransferStatus order = 255) /\
     (lc_TransferStatus input <> EmptyString ->
      Common.TransferStatusStringToStatusCode (lc_TransferStatus input)
      = Ret (lo_ExpectedTransferStatus order)) /\
     (forall a, get order = Some a ->
        StatusCode (Http.an_resp a) <> StatusAccepted ->
        panic (snd run) <> None /\ length (out (snd run)) = 1%nat) /\
     (get order = None -> out (snd run) = [] /\ panic (snd run) <> None) /\
     (forall a, get order = Some a ->
        StatusCode (Http.an_resp a) = StatusAccepted -> Http.an_bodyReads a = true ->
        lc_JobId input = EmptyString ->
        snd run = PrintExistingJobIds Unmarshal_jobs (Body (Http.an_resp a)))).
Proof.
  cbv zeta. unfold HandleListCommand. split.
  - intros Hp. destruct (HandleListCommand_order input); [discriminate|].
    cbn. repeat split; discriminate.
  - intros order Horder. rewrite Horder.
    assert (Hshape : lo_JobId order = lc_JobId input /\
      (lc_TransferStatus input = EmptyString -> lo_ExpectedTransferStatus order = 255) /\
      (lc_TransferStatus input <> EmptyString ->
       Common.TransferStatusStringToStatusCode (lc_TransferStatus input)
       = Ret (lo_ExpectedTransferStatus order))).
    { unfold HandleListCommand_order in Horder.
      destruct (String.eqb_spec (lc_TransferStatus input) "") as [E|E]; cbn [negb] in Horder.
      - injection Horder as <-. cbn. split; [reflexivity|]. split; [reflexivity|].
        intros H. contradiction.
      - destruct (Common.TransferStatusStringToStatusCode (lc_TransferStatus input))
          as [code|] eqn:Hc; [|discriminate].
        injection Horder as <-. cbn. split; [reflexivity|]. split; [|reflexivity].
        intros H. contradiction. }
    destruct Hshape as (Hj & H255 & Hcode).
    assert (Hfst : fst (match get order with
      | Some a =>
          if negb (StatusCode (Http.an_resp a) =? StatusAccepted)
          then ([order],
                {| out := [("request failed with status  " ++ Status (Http.an_resp a))%string];
                   panic := Some ("request failed with status " ++ Status (Http.an_resp a))%string |})
          else if negb (Http.an_bodyReads a) then ([order], panicked_with "ReadAll")
          else if String.eqb (lo_JobId order) "" then
            ([order], PrintExistingJobIds Unmarshal_jobs (Body (Http.an_resp a)))
          else if String.eqb (lc_TransferStatus input) "" then
            ([order], fst (PrintJobProgressSummary show showb Unmarshal_summary
                             (Body (Http.an_resp a)) (lc_JobId input)))
          else ([order], PrintJobTransfers Unmarshal_transfers
                           (Body (Http.an_resp a)) (lc_JobId input))
      | None => ([order], panicked_with "client.Do")
      end) = [order]).
    { destruct (get order) as [a|]; [|reflexivity].
      destruct (negb _); [reflexivity|]. destruct (negb _); [reflexivity|].
      destruct (String.eqb _ _); [reflexivity|]. destruct (String.eqb _ _); reflexivity. }
    split; [exact Hfst|]. split; [exact Hj|]. split; [exact H255|]. split; [exact Hcode|].
    split; [|split].
    + intros a -> Hne. destruct (Z.eqb_spec (StatusCode (Http.an_resp a)) StatusAccepted);
        [contradiction|]. cbn. split; [discriminate|reflexivity].
    + intros ->. cbn. split; [reflexivity|discriminate].
    + intros a -> Hok -> Hempty. rewrite Hok, Z.eqb_refl. cbn [negb].
      rewrite Hj, Hempty. reflexivity.
Qed.

End ListCommandFacts.

(** Three transfers of which the second carries the code 254: the header and
    the line of the first are printed, then the command panics. *)
Lemma transfers_printed_up_to_unnamed_code_witness :
  length (ListCommand.out
            (ListCommand.PrintJobTransfers (fun _ => Some ListCommand.three_transfers)
               "body" "job-1")) = 2%nat.
Proof.
  destruct (transfers_printed_up_to_unnamed_code
              (fun _ => Some ListCommand.three_transfers) "body" "job-1"
              ListCommand.three_transfers eq_refl) as [_ H].
  destruct (H [ {| ListCommand.Src := "a"; ListCommand.Dst := "x";
                   ListCommand.TransferStatus_ := 1 |} ]
              {| ListCommand.Src := "b"; ListCommand.Dst := "y";
                 ListCommand.TransferStatus_ := 254 |}
              [ {| ListCommand.Src := "c"; ListCommand.Dst := "z";
                   ListCommand.TransferStatus_ := 2 |} ]
              eq_refl eq_refl eq_refl) as [Ho _].
  rewrite Ho. reflexivity.
Defined.

(** ** The copy command: upload *)

Section UploadContents.

Import GoInt Handlers.

Variable pathJoin : string -> string -> string.
Variable destinationFor : string -> string -> string.
Variable source : string.
Variable cleanContainerPath : string.

Local Abbreviation upload_file :=
  (upload_file pathJoin destinationFor source cleanContainerPath).
Local Abbreviation transfer_of :=
  (transfer_of pathJoin destinationFor source cleanContainerPath).

(** What the parts dispatched so far and the pending transfers hold: the
    regular files seen so far, in their order; and every part is that of the
    job, from local to blob. *)
Lemma upload_contents o files :
  let st := fold_left upload_file files (upload_start o) in
  concat (map Transfers (ul_dispatched st)) ++ ul_Transfers st
  = map transfer_of (regular_files files) /\
  ID (ul_order st) = ID o /\ SourceType (ul_order st) = SourceType o /\
  DestinationType (ul_order st) = DestinationType o /\
  Forall (fun p => ID p = ID o /\ SourceType p = SourceType o /\
                   DestinationType p = DestinationType o) (ul_dispatched st).
Proof.
  induction files as [|f files IH] using rev_ind.
  - cbn. repeat split; auto.
  - cbv zeta in *. rewrite fold_left_app. cbn [fold_left].
    set (st := fold_left upload_file files (upload_start o)) in *.
    destruct IH as (Hc & Hid & Hs & Hd & Hall).
    rewrite regular_files_snoc.
    unfold Handlers.upload_file.
    destruct (fi_IsDir f); cbn [negb].
    { rewrite app_nil_r. repeat split; assumption. }
    rewrite map_app. cbn [map]. rewrite <- Hc.
    destruct (_ =? _); cbn [ul_dispatched ul_Transfers ul_order].
    + rewrite map_app, concat_app. cbn. rewrite !app_nil_r, <- app_assoc.
      repeat split; try assumption.
      apply Forall_app. split; [assumption|].
      constructor; [cbn; auto|constructor].
    + rewrite <- app_assoc. repeat split; assumption.
Qed.

(** The directory branch dispatches every regular file of the listing exactly
    once, in the order of the listing, with its path, its URL, its time and
    its size; sub-directories are left out; all parts carry the id of the job
    and go from local to blob. *)
Lemma directory_upload_contents o files :
  let parts := HandleUploadFromLocalToWastore_dir pathJoin destinationFor source
                 cleanContainerPath o files in
  concat (map Transfers parts) = map transfer_of (regular_files files) /\
  Forall (fun p => ID p = ID o /\ SourceType p = Local /\ DestinationType p = Blob) parts.
Proof.
  cbv zeta. unfold HandleUploadFromLocalToWastore_dir, upload_finish.
  destruct (upload_contents (set_types o Local Blob) files) as (Hc & Hid & Hs & Hd & Hall).
  cbv zeta in *.
  set (st := fold_left upload_file files (upload_start (set_types o Local Blob))) in *.
  split.
  - rewrite map_app, concat_app. cbn [map concat]. rewrite app_nil_r.
    rewrite <- Hc. f_equal.
    assert (Hnum : ul_numInTransfers st = 0 -> ul_Transfers st = []).
    { clear. subst st. induction files as [|f files IH] using rev_ind; [reflexivity|].
      rewrite fold_left_app. cbn [fold_left].
      set (st := fold_left upload_file files _) in *.
      unfold Handlers.upload_file.
      destruct (fi_IsDir f); cbn [negb]; [assumption|].
      destruct (Z.eqb_spec (to_int64 (ul_numInTransfers st + 1)) NumOfFilesPerUploadJobPart);
        cbn; [reflexivity|].
      intros H0. exfalso.
      assert (Hrange : 0 <= ul_numInTransfers st <= 1).
      { clear - st. subst st.
        induction files as [|g files IH] using rev_ind; [cbn; lia|].
        rewrite fold_left_app. cbn [fold_left].
        set (st := fold_left upload_file files _) in *.
        unfold Handlers.upload_file.
        destruct (fi_IsDir g); cbn [negb]; [assumption|].
        rewrite to_int64_id by (unfold max_int64; lia).
        unfold NumOfFilesPerUploadJobPart.
        destruct (Z.eqb_spec (ul_numInTransfers st + 1) 2); cbn; lia. }
      rewrite to_int64_id in H0 by (unfold max_int64; lia). lia. }
    destruct (Z.eqb_spec (ul_numInTransfers st) 0) as [E|E]; cbn [negb].
    + cbn. symmetry. apply Hnum, E.
    + reflexivity.
  - apply Forall_app. split.
    + eapply Forall_impl; [exact Hall|]. cbn. intros p (H1 & H2 & H3). auto.
    + constructor; [|constructor].
      destruct (negb _); cbn; rewrite Hid, Hs, Hd; auto.
Qed.

End UploadContents.

Section UploadFacts.

Import GoInt Handlers CopyHandlers.

Variable Stat : string -> option FileInfo.
Variable Parse : string -> option URL.
Variable ReadDir : string -> option (list FileInfo).
Variable pathJoin : string -> string -> string.
Variable urlString : URL -> string.

(** X16: the upload of a single file dispatches one order: part 0, final, from
    local to blob, with the one transfer of the file; the name of the file is
    appended to the destination exactly when the path of the URL, after its
    first character, has no slash, that is, when it names a container. *)
Theorem upload_single_file Source Destination o fi u :
  Stat Source = Some fi -> fi_IsDir fi = false ->
  Parse Destination = Some u -> u_Path u <> EmptyString ->
  exists p rest,
    HandleUploadFromLocalToWastore Stat Parse ReadDir pathJoin urlString
      Source Destination o = Ret [p] /\
    from_1 (u_Path u) = Ret rest /\
    PartNum p = 0 /\ IsFinalPart p = true /\ ID p = ID o /\
    SourceType p = Local /\ DestinationType p = Blob /\
    Transfers p
    = [ {| ct_Source := Source;
           ct_Destination :=
             urlString (if contains_slash rest then u
                        else set_Path u (u_Path u ++ "/" ++ fi_Name fi)%string);
           ct_LastModifiedTime := fi_ModTime fi;
           ct_SourceSize := fi_Size fi |} ].
Proof.
  intros Hstat Hfile Hparse Hpath.
  unfold HandleUploadFromLocalToWastore. rewrite Hstat, Hparse, Hfile.
  destruct (u_Path u) as [|c rest] eqn:Hp; [contradiction|].
  cbn [from_1 outcome_bind].
  eexists _, rest. split; [reflexivity|]. split; [reflexivity|].
  cbn. repeat split. destruct (contains_slash rest); reflexivity.
Qed.

(** X17: the upload of a directory dispatches every regular file of its listing
    exactly once, in the order of the listing; every order carries the id of
    the job and goes from local to blob; the part numbers count from 0 and
    exactly the last order is final. *)
Theorem upload_directory_lists_every_file Source Destination o fi u files rest :
  Stat Source = Some fi -> fi_IsDir fi = true ->
  Parse Destination = Some u -> ReadDir Source = Some files ->
  from_1 (u_Path u) = Ret rest -> contains_slash rest = false ->
  IsFinalPart o = false ->
  Z.of_nat (length (regular_files files)) < 2 ^ 33 ->
  exists parts,
    HandleUploadFromLocalToWastore Stat Parse ReadDir pathJoin urlString
      Source Destination o = Ret parts /\
    concat (map Transfers parts)
    = map (fun f => {| ct_Source := pathJoin Source (fi_Name f);
                       ct_Destination := destination_in urlString u (u_Path u) (fi_Name f);
                       ct_LastModifiedTime := fi_ModTime f;
                       ct_SourceSize := fi_Size f |})
          (regular_files files) /\
    Forall (fun p => ID p = ID o /\ SourceType p = Local /\ DestinationType p = Blob) parts /\
    (forall i p, parts !! i = Some p ->
       PartNum p = Z.of_nat i /\
       (IsFinalPart p = true <-> S i = length parts)).
Proof.
  intros Hstat Hdir Hparse Hread Hfrom Hslash Hopen Hbound.
  unfold HandleUploadFromLocalToWastore.
  rewrite Hstat, Hparse, Hdir, Hread, Hfrom. cbn [outcome_bind]. rewrite Hslash.
  eexists. split; [reflexivity|].
  destruct (directory_upload_contents pathJoin (destination_in urlString u) Source
              (u_Path u) o files) as [Hc Hall].
  destruct (directory_upload_shape pathJoin (destination_in urlString u) Source
              (u_Path u) o files Hbound Hopen)
    as (Hnum & (init & final & Hparts & Hfinal & Hinit) & _ & _).
  cbv zeta in *.
  split; [exact Hc|]. split; [exact Hall|].
  intros i p Hl. split; [apply (Hnum i p Hl)|].
  rewrite Hparts in Hl |- *. rewrite length_app. cbn [length].
  apply lookup_app_Some in Hl as [Hl | [Hge Hl]].
  - pose proof (lookup_lt_Some _ _ _ Hl) as Hlt.
    destruct (Forall_lookup_1 _ _ _ _ Hinit Hl) as [Hf _].
    rewrite Hf. split; [discriminate|lia].
  - apply list_lookup_singleton_Some in Hl as [Hi <-].
    split; [intros _; lia|intros _; exact Hfinal].
Qed.


End UploadFacts.

(** ** The copy command: download *)

Section DownloadFacts.

Import GoInt Handlers CopyHandlers.

Variable Parse : string -> option URL.
Variable urlString : URL -> string.
Variable pathJoin : string -> string -> string.
Variable Stat : string -> StatResult.
Variable MkdirAll : string -> bool.
Variable StatAgain : string -> option FileInfo.
Variable GetPropertiesAndMetadata : URL -> option (Z * Z).
Variable ListBlobs : URL -> Listing.

Section Loop.

Variable Destination : string.
Variable sourceUrl : URL.

Local Abbreviation transfer_of_blob :=
  (fun b => blob_transfer urlString pathJoin Destination sourceUrl b (size_of b)).
Local Abbreviation append_blobs :=
  (append_blobs urlString pathJoin Destination sourceUrl).
Local Abbreviation download_loop :=
  (download_loop urlString pathJoin Destination sourceUrl).

Lemma append_blobs_sized blobs Transfers :
  Forall (fun b => sized b = true) blobs ->
  append_blobs blobs Transfers = Ret (Transfers ++ map transfer_of_blob blobs).
Proof.
  revert Transfers. induction blobs as [|b blobs IH]; intros Transfers Hs.
  - cbn. rewrite app_nil_r. reflexivity.
  - inversion Hs as [|? ? Hb Hrest]; subst. cbn [CopyHandlers.append_blobs].
    unfold sized in Hb. destruct (b_ContentLength b) as [len|] eqn:E; [|discriminate].
    rewrite IH by assumption. cbn [map]. unfold size_of at 2. rewrite E.
    rewrite <- app_assoc. reflexivity.
Qed.

(** The loop over the segments: one part per segment, numbered in turn; the
    transfers of a part are those before the loop and those of all segments
    up to its own. *)
Lemma download_loop_parts l segs o ts partNumber :
  segments l = Some segs ->
  Forall (Forall (fun b => sized b = true)) segs ->
  0 <= partNumber -> partNumber + Z.of_nat (length segs) <= 2 ^ 32 ->
  IsFinalPart o = false ->
  let d := download_loop l o ts partNumber in
  ending d = None /\ length (parts d) = length segs /\
  forall i p, parts d !! i = Some p ->
    PartNum p = partNumber + Z.of_nat i /\
    Transfers p = (ts ++ map transfer_of_blob (concat (take (S i) segs)))%list /\
    (IsFinalPart p = true <-> S i = length segs) /\
    ID p = ID o /\ SourceType p = SourceType o /\ DestinationType p = DestinationType o.
Proof.
  revert segs o ts partNumber.
  induction l as [blobs|blobs next IH|]; intros segs o T pn Hsegs Hsized Hpn Hfit Hopen;
    cbn [segments] in Hsegs; [| |discriminate].
  - injection Hsegs as <-. inversion Hsized as [|? ? Hb _]; subst.
    cbn [CopyHandlers.download_loop]. rewrite append_blobs_sized by assumption.
    cbn. split; [reflexivity|]. split; [reflexivity|].
    intros [|i] p Hl; [|discriminate]. injection Hl as <-. cbn.
    cbn [length] in Hfit.
    rewrite to_uint32_id by (unfold max_uint32; lia).
    rewrite app_nil_r. repeat split; try reflexivity. lia.
  - destruct (segments next) as [segs'|] eqn:Hnext; [|discriminate].
    injection Hsegs as <-. inversion Hsized as [|? ? Hb Hrest]; subst.
    cbn [length] in Hfit.
    cbn [CopyHandlers.download_loop]. rewrite append_blobs_sized by assumption.
    set (o' := set_PartNum _ _).
    assert (Hlen' : (1 <= length segs')%nat).
    { clear - Hnext. destruct next; cbn in Hnext; try discriminate.
      - injection Hnext as <-. cbn. lia.
      - destruct (segments next); [|discriminate]. injection Hnext as <-. cbn. lia. }
    rewrite to_int64_id by (unfold max_int64; lia).
    destruct (IH segs' o' (T ++ map transfer_of_blob blobs)%list (pn + 1) eq_refl Hrest)
      as (Hend & Hlen & Hparts); [lia|lia|exact Hopen|].
    cbn [after_part ending parts length]. split; [exact Hend|]. split; [lia|].
    intros [|i] p Hl.
    + injection Hl as <-. subst o'. cbn.
      rewrite to_uint32_id by (unfold max_uint32; lia).
      rewrite app_nil_r. repeat split; try reflexivity; try lia.
      rewrite Hopen. discriminate.
    + cbn in Hl. destruct (Hparts i p Hl) as (H1 & H2 & H3 & H4 & H5 & H6).
      split; [lia|]. split.
      { rewrite H2. cbn [take concat]. rewrite map_app, <- app_assoc. reflexivity. }
      split; [rewrite H3; lia|]. subst o'. cbn in *. auto.
Qed.


End Loop.

(** X19: the download of a container into a directory (one that exists, or one
    that does not exist and is created) dispatches one order per segment of
    the listing, numbered from 0, of which exactly the last is final; the
    transfers are never emptied between segments, so the order of a segment
    holds the blobs of all segments up to its own. *)
Theorem download_container_parts_accumulate Source Destination o u c rest segs :
  Parse Source = Some u -> u_Path u = String c rest -> contains_slash rest = false ->
  (exists fi, fi_IsDir fi = true /\
     (Stat Destination = Exists fi \/
      Stat Destination = NotExist /\ MkdirAll Destination = true /\
      StatAgain Destination = Some fi)) ->
  segments (ListBlobs u) = Some segs ->
  Forall (Forall (fun b => sized b = true)) segs ->
  Z.of_nat (length segs) <= 2 ^ 32 ->
  IsFinalPart o = false ->
  let d := HandleDownloadFromWastoreToLocal Parse urlString pathJoin Stat MkdirAll
             StatAgain GetPropertiesAndMetadata ListBlobs Source Destination o in
  ending d = None /\ length (parts d) = length segs /\
  forall i p, parts d !! i = Some p ->
    PartNum p = Z.of_nat i /\
    Transfers p
    = map (fun b =>
             {| ct_Source := urlString (set_Path u (u_Path u ++ "/" ++ b_Name b)%string);
                ct_Destination := pathJoin Destination (b_Name b);
                ct_LastModifiedTime := b_LastModified b;
                ct_SourceSize := size_of b |})
          (concat (take (S i) segs)) /\
    (IsFinalPart p = true <-> S i = length segs) /\
    ID p = ID o /\ SourceType p = Blob /\ DestinationType p = Local.
Proof.
  intros Hparse Hpath Hslash (fi & Hdir & Hthere) Hsegs Hsized Hfit Hopen.
  unfold HandleDownloadFromWastoreToLocal, download_from. rewrite Hparse, Hpath.
  cbn [from_1]. cbv zeta. rewrite Hslash. cbn [negb andb].
  assert (Hloc : match Stat Destination with
                 | Exists fi => Ret (Some fi)
                 | NotExist =>
                     if negb (MkdirAll Destination)
                     then Panic "failed to create the destination on the local file system"
                     else Ret (StatAgain Destination)
                 | StatError =>
                     Panic "cannot access destination, not a valid local file system path"
                 end = Ret (Some fi)).
  { destruct Hthere as [-> | (-> & -> & ->)]; reflexivity. }
  rewrite Hloc, Hdir. cbn [negb].
  rewrite <- Hpath.
  destruct (download_loop_parts Destination u (ListBlobs u) segs (set_types o Blob Local)
              [] 0 Hsegs Hsized) as (Hend & Hlen & Hparts); [lia|lia|exact Hopen|].
  cbv zeta in *. split; [exact Hend|]. split; [exact Hlen|].
  intros i p Hl. destruct (Hparts i p Hl) as (H1 & H2 & H3 & H4 & H5 & H6).
  rewrite H2. cbn in *. repeat split; auto; apply H3.
Qed.

(** X20: the download of a single blob dispatches one order: part 0, final, from
    blob to local, with the one transfer of the blob to the destination as it
    was given. *)
Theorem download_single_blob Source Destination o u c rest LastModified ContentLength :
  Parse Source = Some u -> u_Path u = String c rest -> contains_slash rest = true ->
  Stat Destination <> StatError ->
  GetPropertiesAndMetadata u = Some (LastModified, ContentLength) ->
  let d := HandleDownloadFromWastoreToLocal Parse urlString pathJoin Stat MkdirAll
             StatAgain GetPropertiesAndMetadata ListBlobs Source Destination o in
  ending d = None /\
  exists p, parts d = [p] /\
    PartNum p = 0 /\ IsFinalPart p = true /\ ID p = ID o /\
    SourceType p = Blob /\ DestinationType p = Local /\
    Transfers p = [ {| ct_Source := urlString u; ct_Destination := Destination;
                       ct_LastModifiedTime := LastModified;
                       ct_SourceSize := ContentLength |} ].
Proof.
  intros Hparse Hpath Hslash Hstat Hprops.
  unfold HandleDownloadFromWastoreToLocal, download_from. rewrite Hparse, Hpath.
  cbn [from_1]. cbv zeta. rewrite Hslash. cbn [negb andb].
  destruct (Stat Destination); [| |contradiction]; rewrite Hprops; cbn;
    (split; [reflexivity|]); eexists; (split; [reflexivity|]); cbn; repeat split.
Qed.


End DownloadFacts.

(** A file uploaded to a container. *)
Lemma upload_single_file_witness :
  exists p,
    CopyHandlers.HandleUploadFromLocalToWastore
      (fun _ => Some CopyHandlers.a_file) CopyHandlers.plain_parse (fun _ => None)
      Handlers.plain_join CopyHandlers.plain_url "f.bin" "/container"
      (Handlers.new_order "job") = Ret [p] /\
    Handlers.Transfers p
    = [ {| Handlers.ct_Source := "f.bin";
           Handlers.ct_Destination := "https://account/container/f.bin";
           Handlers.ct_LastModifiedTime := 7; Handlers.ct_SourceSize := 12 |} ].
Proof.
  destruct (upload_single_file (fun _ => Some CopyHandlers.a_file) CopyHandlers.plain_parse
              (fun _ => None) Handlers.plain_join CopyHandlers.plain_url
              "f.bin" "/container" (Handlers.new_order "job") CopyHandlers.a_file
              {| CopyHandlers.u_Host := "https://account";
                 CopyHandlers.u_Path := "/container" |}
              eq_refl eq_refl eq_refl ltac:(discriminate))
    as (p & rest & Hrun & Hrest & _ & _ & _ & _ & _ & Htransfers).
  exists p. split; [exact Hrun|].
  injection Hrest as <-. exact Htransfers.
Defined.

(** The listing of five files and a sub-directory uploaded to a container. *)
Lemma upload_directory_lists_every_file_witness :
  exists parts,
    CopyHandlers.HandleUploadFromLocalToWastore
      (fun _ => Some CopyHandlers.a_directory) CopyHandlers.plain_parse
      (fun _ => Some Handlers.five_files)
      Handlers.plain_join CopyHandlers.plain_url "dir" "/container"
      (Handlers.new_order "job") = Ret parts /\
    map Handlers.ct_Source (concat (map Handlers.Transfers parts))
    = ["dir/a"; "dir/b"; "dir/c"; "dir/d"; "dir/e"]%string.
Proof.
  destruct (upload_directory_lists_every_file (fun _ => Some CopyHandlers.a_directory)
              CopyHandlers.plain_parse (fun _ => Some Handlers.five_files)
              Handlers.plain_join CopyHandlers.plain_url
              "dir" "/container" (Handlers.new_order "job") CopyHandlers.a_directory
              {| CopyHandlers.u_Host := "https://account";
                 CopyHandlers.u_Path := "/container" |}
              Handlers.five_files "container"
              eq_refl eq_refl eq_refl eq_refl eq_refl eq_refl eq_refl
              ltac:(vm_compute; reflexivity))
    as (parts & Hrun & Hall & _).
  exists parts. split; [exact Hrun|]. rewrite Hall. reflexivity.
Defined.

(** A container listed in two segments: the second order repeats the blobs
    of the first. *)
Lemma download_container_parts_accumulate_witness :
  let d := CopyHandlers.HandleDownloadFromWastoreToLocal
             CopyHandlers.plain_parse CopyHandlers.plain_url Handlers.plain_join
             (fun _ => CopyHandlers.Exists CopyHandlers.a_directory)
             (fun _ => true) (fun _ => None) (fun _ => None)
             (fun _ => CopyHandlers.two_segments)
             "/container" "dir" (Handlers.new_order "job") in
  length (CopyHandlers.parts d) = 2%nat /\
  forall p, CopyHandlers.parts d !! 1%nat = Some p ->
    map Handlers.ct_Destination (Handlers.Transfers p)
    = ["dir/a"; "dir/b"; "dir/c"]%string.
Proof.
  destruct (download_container_parts_accumulate
              CopyHandlers.plain_parse CopyHandlers.plain_url Handlers.plain_join
              (fun _ => CopyHandlers.Exists CopyHandlers.a_directory)
              (fun _ => true) (fun _ => None) (fun _ => None)
              (fun _ => CopyHandlers.two_segments)
              "/container" "dir" (Handlers.new_order "job")
              {| CopyHandlers.u_Host := "https://account";
                 CopyHandlers.u_Path := "/container" |}
              "/"%char "container" _
              eq_refl eq_refl eq_refl
              (ex_intro _ CopyHandlers.a_directory (conj eq_refl (or_introl eq_refl)))
              eq_refl
              ltac:(repeat constructor)
              ltac:(vm_compute; discriminate) eq_refl)
    as (_ & Hlen & Hparts).
  split; [exact Hlen|].
  intros p Hl. destruct (Hparts 1%nat p Hl) as (_ & Htransfers & _).
  rewrite Htransfers. reflexivity.
Defined.

(** A blob downloaded to a file that does not exist yet. *)
Lemma download_single_blob_witness :
  let d := CopyHandlers.HandleDownloadFromWastoreToLocal
             CopyHandlers.plain_parse CopyHandlers.plain_url Handlers.plain_join
             (fun _ => CopyHandlers.NotExist)
             (fun _ => false) (fun _ => None) (fun _ => Some (3, 30))
             (fun _ => CopyHandlers.ListError)
             "/container/c" "c.bin" (Handlers.new_order "job") in
  CopyHandlers.ending d = None /\ length (CopyHandlers.parts d) = 1%nat.
Proof.
  destruct (download_single_blob
              CopyHandlers.plain_parse CopyHandlers.plain_url Handlers.plain_join
              (fun _ => CopyHandlers.NotExist)
              (fun _ => false) (fun _ => None) (fun _ => Some (3, 30))
              (fun _ => CopyHandlers.ListError)
              "/container/c" "c.bin" (Handlers.new_order "job")
              {| CopyHandlers.u_Host := "https://account";
                 CopyHandlers.u_Path := "/container/c" |}
              "/"%char "container/c" 3 30
              eq_refl eq_refl eq_refl ltac:(discriminate) eq_refl)
    as (Hend & p & Hparts & _).
  split; [exact Hend|]. rewrite Hparts. reflexivity.
Defined.

